(** * run.ts: versioned transactions and address lookup tables

    A shallow embedding of the demonstration script [src/run.ts] and of the
    collaborators it talks to (the JavaScript runtime, the RPC provider, the
    ledger and the transaction encoder of the client SDK), followed by the
    properties of the script that the specification states.

    Part I holds the definitions: the JavaScript operations the script uses,
    the SDK's instruction builders and encoders, the ledger, the provider in
    a state-and-exception monad, and the script.  Part II holds the lemmas and
    the theorems.  Part III holds the properties of the script that the
    specification leaves unsaid: what a whole run does when nothing is
    refused, where it can fail, and what it never does. *)

From Stdlib Require Import ZArith NArith Lia List.
From stdpp Require Import base option list gmap strings.

Open Scope Z_scope.


(* ===================================================================== *)
(** * Part I: definitions *)
(* ===================================================================== *)

(** ** The JavaScript operations used by the script *)

Module JS.

(** The index clamping of [Array.prototype.slice]: a negative relative index
    counts from the end of the array, and both ends are clamped to the range
    [0 .. len]. *)
Definition clamp_index (len rel : Z) : Z :=
  if rel <? 0 then Z.max (len + rel) 0 else Z.min rel len.

(** [arr.slice(start, end)]: the elements at positions [k .. final - 1], none
    when [final <= k]. *)
Definition slice {A : Type} (arr : list A) (start end_ : Z) : list A :=
  let len := Z.of_nat (length arr) in
  let k := clamp_index len start in
  let final := clamp_index len end_ in
  take (Z.to_nat (final - k)) (drop (Z.to_nat k) arr).

(** [arr.findIndex(e => e.equals(key))], with [None] for the result -1. *)
Fixpoint findIndex (arr : list N) (key : N) : option nat :=
  match arr with
  | [] => None
  | e :: arr' =>
      if N.eqb e key then Some O
      else match findIndex arr' key with
           | Some idx => Some (S idx)
           | None => None
           end
  end.

(** Integers that a JavaScript number (a binary64 float) represents exactly;
    arithmetic on them is exact as long as the result stays in this range. *)
Definition MAX_SAFE_INTEGER : Z := 2 ^ 53 - 1.

Definition safe_integer (z : Z) : Prop :=
  - MAX_SAFE_INTEGER <= z <= MAX_SAFE_INTEGER.

End JS.

(** ** Results of a computation that may throw *)

(** What a JavaScript exception carries, by the party that raises it. *)
Inductive Error : Type :=
| RpcError (msg : string)      (* raised by the provider: the request or the
                                  transaction was refused by the network *)
| SdkError (msg : string)      (* raised by the SDK while building, signing or
                                  encoding a transaction *)
| ScriptError (msg : string)   (* [throw new Error(msg)] in run.ts *)
| AssertionError.              (* [assert(false)] in run.ts *)

(** [OutOfFuel] is not a JavaScript result: it says that a loop was still
    running when the iteration bound of the model was reached. *)
Inductive Outcome (A : Type) : Type :=
| Ok (a : A)
| Throw (e : Error)
| OutOfFuel.

Arguments Ok {A} a.
Arguments Throw {A} e.
Arguments OutOfFuel {A}.

Definition Outcome_bind {A B : Type} (f : A -> Outcome B) (o : Outcome A)
  : Outcome B :=
  match o with
  | Ok a => f a
  | Throw e => Throw e
  | OutOfFuel => OutOfFuel
  end.

#[global] Instance Outcome_mret : MRet Outcome := fun _ a => Ok a.
#[global] Instance Outcome_mbind : MBind Outcome := fun _ _ f o => Outcome_bind f o.

(** An assertion inside the SDK: it throws an error of the SDK. *)
Definition sdk_assert (cond : bool) (msg : string) : Outcome unit :=
  if cond then Ok tt else Throw (SdkError msg).

(** ** Bytes *)

Definition byte_of_N (n : N) : Byte.byte :=
  match Byte.of_N (n mod 256) with
  | Some b => b
  | None => Byte.x00
  end.

(** [width] bytes of [v], least significant first. *)
Fixpoint le_bytes (width : nat) (v : N) : list Byte.byte :=
  match width with
  | O => []
  | S width' => byte_of_N v :: le_bytes width' (v / 256)
  end.

(** [width] bytes of [v], most significant first. *)
Definition be_bytes (width : nat) (v : N) : list Byte.byte :=
  rev (le_bytes width v).

(** ** The client SDK: keys, instructions and their builders *)

(** The SDK is a collaborator of the script, not part of the repository.  It
    is modelled from its published behaviour (the instruction layouts of the
    system and address-lookup-table programs, the legacy and version-0
    message formats, the account-key compilation of [MessageV0.compile]), to
    the extent that the script depends on it. *)

Module Web3.

(** A [PublicKey] wraps a 256-bit number; [toBuffer] writes it as 32 bytes,
    most significant first.  A blockhash is a 32-byte value of the same
    kind. *)
Abbreviation PublicKey := N (only parsing).
Abbreviation Blockhash := N (only parsing).

Definition LAMPORTS_PER_SOL : Z := 1000000000.

(** The largest serialized transaction the network accepts:
    1280 (IPv6 minimum MTU) - 40 - 8. *)
Definition PACKET_DATA_SIZE : Z := 1232.

Definition PUBLIC_KEY_LENGTH : nat := 32.
Definition SIGNATURE_LENGTH_IN_BYTES : nat := 64.

Definition toBuffer (key : PublicKey) : list Byte.byte :=
  be_bytes PUBLIC_KEY_LENGTH key.

Record AccountMeta : Type := {
  pubkey : PublicKey;
  isSigner : bool;
  isWritable : bool
}.

(** The payload of the three instructions the script builds, before it is
    laid out as bytes. *)
Inductive InstructionData : Type :=
| Transfer (lamports : Z)
| CreateLookupTable (recentSlot : N) (bumpSeed : N)
| ExtendLookupTable (addresses : list PublicKey).

Record TransactionInstruction : Type := {
  keys : list AccountMeta;
  programId : PublicKey;
  data : InstructionData
}.

(** The byte layouts: a 32-bit instruction index, then the fields. *)
Definition encodeData (d : InstructionData) : list Byte.byte :=
  match d with
  | Transfer lamports =>
      le_bytes 4 2 ++ le_bytes 8 (Z.to_N (lamports mod 2 ^ 64))
  | CreateLookupTable recentSlot bumpSeed =>
      le_bytes 4 0 ++ le_bytes 8 recentSlot ++ le_bytes 1 bumpSeed
  | ExtendLookupTable addresses =>
      le_bytes 4 2 ++ le_bytes 8 (N.of_nat (length addresses))
        ++ flat_map toBuffer addresses
  end.

Module SystemProgram.

(** The key "11111111111111111111111111111111": thirty-two zero bytes. *)
Definition programId : PublicKey := 0%N.

(** [SystemProgram.transfer({fromPubkey, toPubkey, lamports})]. *)
Definition transfer (fromPubkey toPubkey : PublicKey) (lamports : Z)
  : TransactionInstruction :=
  Build_TransactionInstruction
    [ {| pubkey := fromPubkey; isSigner := true; isWritable := true |};
      {| pubkey := toPubkey; isSigner := false; isWritable := true |} ]
    programId
    (Transfer lamports).

End SystemProgram.

Module AddressLookupTableProgram.

(** The key "AddressLookupTab1e1111111111111111111111111". *)
Definition programId : PublicKey :=
  1116030921682780568096491429978046360386022396843073789800531807787208933376%N.

(** [AddressLookupTableProgram.createLookupTable({authority, payer,
    recentSlot})]: the instruction and the address of the table, which is
    derived from the authority and the slot.  The derivation
    ([PublicKey.findProgramAddressSync], a hash) is a parameter. *)
Definition createLookupTable
    (findProgramAddressSync : PublicKey -> N -> PublicKey * N)
    (authority payer : PublicKey) (recentSlot : N)
  : TransactionInstruction * PublicKey :=
  let '(lookupTableAddress, bumpSeed) :=
    findProgramAddressSync authority recentSlot in
  (Build_TransactionInstruction
     [ {| pubkey := lookupTableAddress; isSigner := false; isWritable := true |};
       {| pubkey := authority; isSigner := true; isWritable := false |};
       {| pubkey := payer; isSigner := true; isWritable := true |};
       {| pubkey := SystemProgram.programId; isSigner := false; isWritable := false |} ]
     programId
     (CreateLookupTable recentSlot bumpSeed),
   lookupTableAddress).

(** [AddressLookupTableProgram.extendLookupTable({payer, authority,
    lookupTable, addresses})], with the payer given as the script does. *)
Definition extendLookupTable (payer authority lookupTable : PublicKey)
    (addresses : list PublicKey) : TransactionInstruction :=
  Build_TransactionInstruction
    [ {| pubkey := lookupTable; isSigner := false; isWritable := true |};
      {| pubkey := authority; isSigner := true; isWritable := false |};
      {| pubkey := payer; isSigner := true; isWritable := true |};
      {| pubkey := SystemProgram.programId; isSigner := false; isWritable := false |} ]
    programId
    (ExtendLookupTable addresses).

End AddressLookupTableProgram.

(** ** The client SDK: encoding *)

(** [shortvec.encodeLength]: seven bits per byte, least significant group
    first, the high bit set on every byte but the last.  The loop runs at
    most five times on a 32-bit length. *)
Fixpoint encodeLength_loop (fuel : nat) (rem_len : N) : list Byte.byte :=
  match fuel with
  | O => []
  | S fuel' =>
      let elem := N.land rem_len 127 in
      let rem_len' := N.shiftr rem_len 7 in
      if N.eqb rem_len' 0 then [byte_of_N elem]
      else byte_of_N (N.lor elem 128) :: encodeLength_loop fuel' rem_len'
  end.

Definition encodeLength (len : nat) : list Byte.byte :=
  encodeLength_loop 5 (N.of_nat len).

Definition u8 (n : nat) : Byte.byte := byte_of_N (N.of_nat n).

(** An instruction inside a compiled message: the program and the accounts
    are positions in the message's list of account keys. *)
Record MessageCompiledInstruction : Type := {
  programIdIndex : nat;
  accountKeyIndexes : list nat;
  ci_data : InstructionData
}.

Definition serializeInstruction (ci : MessageCompiledInstruction)
  : list Byte.byte :=
  let bytes := encodeData (ci_data ci) in
  u8 (programIdIndex ci)
    :: encodeLength (length (accountKeyIndexes ci))
    ++ map u8 (accountKeyIndexes ci)
    ++ encodeLength (length bytes)
    ++ bytes.

Record MessageHeader : Type := {
  numRequiredSignatures : nat;
  numReadonlySignedAccounts : nat;
  numReadonlyUnsignedAccounts : nat
}.

(** *** Legacy transactions *)

Record Transaction : Type := {
  feePayer : option PublicKey;
  recentBlockhash : option Blockhash;
  lastValidBlockHeight : option N;
  tx_instructions : list TransactionInstruction
}.

(** [new Transaction()] and [new Transaction({feePayer, blockhash,
    lastValidBlockHeight})]. *)
Definition Transaction_empty : Transaction :=
  {| feePayer := None; recentBlockhash := None; lastValidBlockHeight := None;
     tx_instructions := [] |}.

Definition Transaction_new (feePayer : PublicKey) (blockhash : Blockhash)
    (lastValidBlockHeight : N) : Transaction :=
  {| feePayer := Some feePayer; recentBlockhash := Some blockhash;
     lastValidBlockHeight := Some lastValidBlockHeight;
     tx_instructions := [] |}.

(** [tx.add(instruction)]. *)
Definition add (tx : Transaction) (instruction : TransactionInstruction)
  : Transaction :=
  {| feePayer := feePayer tx; recentBlockhash := recentBlockhash tx;
     lastValidBlockHeight := lastValidBlockHeight tx;
     tx_instructions := tx_instructions tx ++ [instruction] |}.

(** The account keys of the compiled legacy message: the fee payer, the
    accounts of the instructions and their programs, each once.  (The SDK
    also sorts them; the order does not change any length.) *)
Definition legacyAccountKeys (payer : PublicKey)
    (instructions : list TransactionInstruction) : list PublicKey :=
  remove_dups
    (payer :: flat_map (fun ix => map pubkey (keys ix)) instructions
           ++ map programId instructions).

(** The keys that must sign: the fee payer and every account some instruction
    marks as a signer. *)
Definition legacySignerKeys (payer : PublicKey)
    (instructions : list TransactionInstruction) : list PublicKey :=
  remove_dups
    (payer :: flat_map (fun ix => map pubkey (filter (fun m => isSigner m = true) (keys ix)))
                       instructions).

Definition legacyInstructionLength (ix : TransactionInstruction) : nat :=
  let bytes := encodeData (data ix) in
  (1 + length (encodeLength (length (keys ix))) + length (keys ix)
   + length (encodeLength (length bytes)) + length bytes)%nat.

(** The length of [Message.serialize()]: header, keys, blockhash,
    instructions. *)
Definition legacyMessageLength (payer : PublicKey)
    (instructions : list TransactionInstruction) : nat :=
  let accountKeys := legacyAccountKeys payer instructions in
  (3 + length (encodeLength (length accountKeys))
   + PUBLIC_KEY_LENGTH * length accountKeys
   + 32
   + length (encodeLength (length instructions))
   + list_sum (map legacyInstructionLength instructions))%nat.

(** The length of the wire transaction: the signatures, then the message. *)
Definition legacyWireLength (payer : PublicKey)
    (instructions : list TransactionInstruction) : nat :=
  let signers := legacySignerKeys payer instructions in
  (length (encodeLength (length signers))
   + SIGNATURE_LENGTH_IN_BYTES * length signers
   + legacyMessageLength payer instructions)%nat.

(** [tx.serialize({requireAllSignatures: false}).length]: the transaction
    must name a blockhash and a fee payer, and the wire transaction must fit
    in a packet. *)
Definition Transaction_serialize_length (tx : Transaction) : Outcome nat :=
  match recentBlockhash tx, feePayer tx with
  | None, _ => Throw (SdkError "Transaction recentBlockhash required")
  | _, None => Throw (SdkError "Transaction fee payer required")
  | Some _, Some payer =>
      let len := legacyWireLength payer (tx_instructions tx) in
      if Z.of_nat len <=? PACKET_DATA_SIZE then Ok len
      else Throw (SdkError "Transaction too large")
  end.

(** *** Version-0 messages *)

(** [new TransactionMessage({payerKey, recentBlockhash, instructions})]. *)
Record TransactionMessage : Type := {
  payerKey : PublicKey;
  msg_recentBlockhash : Blockhash;
  instructions : list TransactionInstruction
}.

(** A lookup table as the client sees it: its address and the addresses it
    holds ([lookupTable.key], [lookupTable.state.addresses]). *)
Record AddressLookupTableAccount : Type := {
  key : PublicKey;
  state_addresses : list PublicKey
}.

Record MessageAddressTableLookup : Type := {
  accountKey : PublicKey;
  writableIndexes : list nat;
  readonlyIndexes : list nat
}.

Record MessageV0 : Type := {
  header : MessageHeader;
  staticAccountKeys : list PublicKey;
  v0_recentBlockhash : Blockhash;
  compiledInstructions : list MessageCompiledInstruction;
  addressTableLookups : list MessageAddressTableLookup
}.

(** [CompiledKeys]: what the message needs of each key.  The SDK keeps a
    [Map] from address to this record; a [Map] iterates in insertion order,
    so it is an association list here. *)
Record CompiledKeyMeta : Type := {
  km_isSigner : bool;
  km_isWritable : bool;
  km_isInvoked : bool
}.

Definition KeyMetaMap : Type := list (PublicKey * CompiledKeyMeta).

(** [getOrInsertDefault(pubkey)] followed by an update of the record found:
    a key not yet in the map is added at the end with all flags false. *)
Fixpoint updateKeyMeta (address : PublicKey)
    (f : CompiledKeyMeta -> CompiledKeyMeta) (m : KeyMetaMap) : KeyMetaMap :=
  match m with
  | [] => [(address, f {| km_isSigner := false; km_isWritable := false;
                          km_isInvoked := false |})]
  | (a, meta) :: m' =>
      if N.eqb a address then (a, f meta) :: m'
      else (a, meta) :: updateKeyMeta address f m'
  end.

Definition markPayer (meta : CompiledKeyMeta) : CompiledKeyMeta :=
  {| km_isSigner := true; km_isWritable := true;
     km_isInvoked := km_isInvoked meta |}.

Definition markInvoked (meta : CompiledKeyMeta) : CompiledKeyMeta :=
  {| km_isSigner := km_isSigner meta; km_isWritable := km_isWritable meta;
     km_isInvoked := true |}.

Definition markAccount (accountMeta : AccountMeta) (meta : CompiledKeyMeta)
  : CompiledKeyMeta :=
  {| km_isSigner := km_isSigner meta || isSigner accountMeta;
     km_isWritable := km_isWritable meta || isWritable accountMeta;
     km_isInvoked := km_isInvoked meta |}.

(** [CompiledKeys.compile(instructions, payer)]. *)
Definition CompiledKeys_compile (instructions : list TransactionInstruction)
    (payer : PublicKey) : KeyMetaMap :=
  fold_left
    (fun m ix =>
       fold_left (fun m accountMeta =>
                    updateKeyMeta (pubkey accountMeta) (markAccount accountMeta) m)
                 (keys ix)
                 (updateKeyMeta (programId ix) markInvoked m))
    instructions
    (updateKeyMeta payer markPayer []).

(** [drainKeysFoundInLookupTable(entries, keyMetaFilter)]: every key that
    passes the filter and occurs in the table leaves the map; the result is
    the positions in the table, the keys drained, and the map that is left. *)
Fixpoint drainKeysFoundInLookupTable (lookupTableEntries : list PublicKey)
    (keyMetaFilter : CompiledKeyMeta -> bool) (m : KeyMetaMap)
  : Outcome (list nat * list PublicKey * KeyMetaMap) :=
  match m with
  | [] => Ok ([], [], [])
  | (address, meta) :: m' =>
      let found :=
        if keyMetaFilter meta then JS.findIndex lookupTableEntries address
        else None in
      match found with
      | Some lookupTableIndex =>
          sdk_assert (lookupTableIndex <? 256)%nat
                     "Max lookup table index exceeded";;
          '(indexes, drained, rest) ← drainKeysFoundInLookupTable
                                        lookupTableEntries keyMetaFilter m';
          Ok (lookupTableIndex :: indexes, address :: drained, rest)
      | None =>
          '(indexes, drained, rest) ← drainKeysFoundInLookupTable
                                        lookupTableEntries keyMetaFilter m';
          Ok (indexes, drained, (address, meta) :: rest)
      end
  end.

(** [extractTableLookup(lookupTable)]: first the writable keys, then the
    read-only ones; signers and invoked programs stay in the message. *)
Definition extractTableLookup (lookupTable : AddressLookupTableAccount)
    (m : KeyMetaMap)
  : Outcome (option (MessageAddressTableLookup * (list PublicKey * list PublicKey))
             * KeyMetaMap) :=
  '(writableIndexes, drainedWritableKeys, m1) ←
    drainKeysFoundInLookupTable (state_addresses lookupTable)
      (fun meta => negb (km_isSigner meta) && negb (km_isInvoked meta)
                   && km_isWritable meta) m;
  '(readonlyIndexes, drainedReadonlyKeys, m2) ←
    drainKeysFoundInLookupTable (state_addresses lookupTable)
      (fun meta => negb (km_isSigner meta) && negb (km_isInvoked meta)
                   && negb (km_isWritable meta)) m1;
  match writableIndexes, readonlyIndexes with
  | [], [] => Ok (None, m2)
  | _, _ =>
      Ok (Some ({| accountKey := key lookupTable;
                   writableIndexes := writableIndexes;
                   readonlyIndexes := readonlyIndexes |},
                (drainedWritableKeys, drainedReadonlyKeys)),
          m2)
  end.

(** The loop of [MessageV0.compile] over the lookup tables supplied. *)
Fixpoint extractTableLookups (lookupTables : list AddressLookupTableAccount)
    (m : KeyMetaMap)
  : Outcome (list MessageAddressTableLookup * (list PublicKey * list PublicKey)
             * KeyMetaMap) :=
  match lookupTables with
  | [] => Ok ([], ([], []), m)
  | lookupTable :: rest =>
      '(extractResult, m1) ← extractTableLookup lookupTable m;
      '(lookups, (writable, readonly), m2) ← extractTableLookups rest m1;
      match extractResult with
      | Some (lookup, (w, r)) => Ok (lookup :: lookups, (w ++ writable, r ++ readonly), m2)
      | None => Ok (lookups, (writable, readonly), m2)
      end
  end.

Definition keysWhere (p : CompiledKeyMeta -> bool) (m : KeyMetaMap)
  : list PublicKey :=
  map fst (List.filter (fun entry => p (snd entry)) m).

(** [getMessageComponents()]: the header and the keys that stay in the
    message, signers first and writable keys first among each. *)
Definition getMessageComponents (payer : PublicKey) (m : KeyMetaMap)
  : Outcome (MessageHeader * list PublicKey) :=
  sdk_assert (length m <=? 256)%nat "Max static account keys length exceeded";;
  let writableSigners := keysWhere (fun k => km_isSigner k && km_isWritable k) m in
  let readonlySigners := keysWhere (fun k => km_isSigner k && negb (km_isWritable k)) m in
  let writableNonSigners := keysWhere (fun k => negb (km_isSigner k) && km_isWritable k) m in
  let readonlyNonSigners :=
    keysWhere (fun k => negb (km_isSigner k) && negb (km_isWritable k)) m in
  match writableSigners with
  | [] => Throw (SdkError "Expected at least one writable signer key")
  | payerAddress :: _ =>
      sdk_assert (N.eqb payerAddress payer)
                 "Expected first writable signer key to be the fee payer";;
      Ok ({| numRequiredSignatures := length writableSigners + length readonlySigners;
             numReadonlySignedAccounts := length readonlySigners;
             numReadonlyUnsignedAccounts := length readonlyNonSigners |},
          writableSigners ++ readonlySigners ++ writableNonSigners
            ++ readonlyNonSigners)
  end.

(** The index that [keyIndexMap] holds for a key: the SDK fills the map by
    walking the keys in order, so a key listed twice keeps its last
    position. *)
Fixpoint findKeyIndex_from (i : nat) (accountKeys : list PublicKey)
    (k : PublicKey) : option nat :=
  match accountKeys with
  | [] => None
  | a :: rest =>
      match findKeyIndex_from (S i) rest k with
      | Some idx => Some idx
      | None => if N.eqb a k then Some i else None
      end
  end.

Definition findKeyIndex (accountKeys : list PublicKey) (k : PublicKey)
  : Outcome nat :=
  match findKeyIndex_from 0 accountKeys k with
  | Some idx => Ok idx
  | None =>
      Throw (SdkError "Encountered an unknown instruction account key during compilation")
  end.

Fixpoint findKeyIndexes (accountKeys : list PublicKey)
    (metas : list AccountMeta) : Outcome (list nat) :=
  match metas with
  | [] => Ok []
  | meta :: rest =>
      idx ← findKeyIndex accountKeys (pubkey meta);
      idxs ← findKeyIndexes accountKeys rest;
      Ok (idx :: idxs)
  end.

(** [MessageAccountKeys.compileInstructions(instructions)]. *)
Fixpoint compileInstructions_map (accountKeys : list PublicKey)
    (instructions : list TransactionInstruction)
  : Outcome (list MessageCompiledInstruction) :=
  match instructions with
  | [] => Ok []
  | ix :: rest =>
      p ← findKeyIndex accountKeys (programId ix);
      idxs ← findKeyIndexes accountKeys (keys ix);
      cis ← compileInstructions_map accountKeys rest;
      Ok ({| programIdIndex := p; accountKeyIndexes := idxs;
             ci_data := data ix |} :: cis)
  end.

Definition compileInstructions (accountKeys : list PublicKey)
    (instructions : list TransactionInstruction)
  : Outcome (list MessageCompiledInstruction) :=
  sdk_assert (length accountKeys <=? 256)%nat
             "Account index overflow encountered during compilation";;
  compileInstructions_map accountKeys instructions.

(** [message.compileToV0Message(addressLookupTableAccounts)]. *)
Definition compileToV0Message (message : TransactionMessage)
    (addressLookupTableAccounts : list AddressLookupTableAccount)
  : Outcome MessageV0 :=
  let compiledKeys := CompiledKeys_compile (instructions message) (payerKey message) in
  '(lookups, (writable, readonly), compiledKeys') ←
    extractTableLookups addressLookupTableAccounts compiledKeys;
  '(header, staticAccountKeys) ← getMessageComponents (payerKey message) compiledKeys';
  compiledInstructions ←
    compileInstructions (staticAccountKeys ++ writable ++ readonly)
                        (instructions message);
  Ok {| header := header;
        staticAccountKeys := staticAccountKeys;
        v0_recentBlockhash := msg_recentBlockhash message;
        compiledInstructions := compiledInstructions;
        addressTableLookups := lookups |}.

(** [MessageV0.serialize()]: the version prefix, the header, the static
    keys, the blockhash, the instructions and the table lookups, written
    into a buffer of [PACKET_DATA_SIZE] bytes. *)
Definition serializeAddressTableLookup (lookup : MessageAddressTableLookup)
  : list Byte.byte :=
  toBuffer (accountKey lookup)
    ++ encodeLength (length (writableIndexes lookup))
    ++ map u8 (writableIndexes lookup)
    ++ encodeLength (length (readonlyIndexes lookup))
    ++ map u8 (readonlyIndexes lookup).

Definition MessageV0_bytes (msg : MessageV0) : list Byte.byte :=
  byte_of_N 128
    :: [ u8 (numRequiredSignatures (header msg));
         u8 (numReadonlySignedAccounts (header msg));
         u8 (numReadonlyUnsignedAccounts (header msg)) ]
    ++ encodeLength (length (staticAccountKeys msg))
    ++ flat_map toBuffer (staticAccountKeys msg)
    ++ toBuffer (v0_recentBlockhash msg)
    ++ encodeLength (length (compiledInstructions msg))
    ++ flat_map serializeInstruction (compiledInstructions msg)
    ++ encodeLength (length (addressTableLookups msg))
    ++ flat_map serializeAddressTableLookup (addressTableLookups msg).

Definition MessageV0_serialize (msg : MessageV0) : Outcome (list Byte.byte) :=
  let bytes := MessageV0_bytes msg in
  sdk_assert (Z.of_nat (length bytes) <=? PACKET_DATA_SIZE)
             "encoding overruns Buffer";;
  Ok bytes.

(** A signature is a 64-byte value. *)
Record VersionedTransaction : Type := {
  signatures : list N;
  message : MessageV0
}.

(** [new VersionedTransaction(message)]: one empty signature per required
    signer. *)
Definition VersionedTransaction_new (message : MessageV0)
  : VersionedTransaction :=
  {| signatures := replicate (numRequiredSignatures (header message)) 0%N;
     message := message |}.

(** [tx.sign([signer])]: the signer must be one of the first
    [numRequiredSignatures] static keys; its signature over the serialized
    message takes the matching slot.  [ed25519_sign] is the signing function
    of the signer's key pair. *)
Definition VersionedTransaction_sign (ed25519_sign : list Byte.byte -> N)
    (signer : PublicKey) (tx : VersionedTransaction)
  : Outcome VersionedTransaction :=
  messageData ← MessageV0_serialize (message tx);
  let signerPubkeys :=
    take (numRequiredSignatures (header (message tx)))
         (staticAccountKeys (message tx)) in
  match JS.findIndex signerPubkeys signer with
  | None => Throw (SdkError "Cannot sign with non signer key")
  | Some signerIndex =>
      Ok {| signatures := <[signerIndex := ed25519_sign messageData]> (signatures tx);
            message := message tx |}
  end.

(** [tx.serialize()]: the signatures, then the message, written into a
    buffer of 2048 bytes. *)
Definition VersionedTransaction_serialize (tx : VersionedTransaction)
  : Outcome (list Byte.byte) :=
  serializedMessage ← MessageV0_serialize (message tx);
  let bytes :=
    encodeLength (length (signatures tx))
      ++ flat_map (be_bytes SIGNATURE_LENGTH_IN_BYTES) (signatures tx)
      ++ serializedMessage in
  sdk_assert (length bytes <=? 2048)%nat "encoding overruns Buffer";;
  Ok bytes.

End Web3.

(** ** The ledger *)

(** The accounts the script touches: lamport balances and address lookup
    tables.  A transaction is applied as a whole or not at all.  Fees and
    rent are not part of the model: they only lower the balance of the payer,
    and a transaction refused for lack of them is one of the refusals of the
    environment (see [fault] below). *)

Module Ledger.
Import Web3.

Record LookupTable : Type := {
  authority : PublicKey;
  addresses : list PublicKey
}.

Record State : Type := {
  lamports : gmap N N;
  tables : gmap N LookupTable
}.

Definition LOOKUP_TABLE_MAX_ADDRESSES : nat := 256.

Definition balance (s : State) (account : PublicKey) : N :=
  default 0%N (lamports s !! account).

Definition set_balance (account : PublicKey) (v : N) (s : State) : State :=
  {| lamports := <[account := v]> (lamports s); tables := tables s |}.

Definition set_table (address : PublicKey) (t : LookupTable) (s : State)
  : State :=
  {| lamports := lamports s; tables := <[address := t]> (tables s) |}.

(** Lamports are unsigned 64-bit quantities; a credit that would overflow is
    refused. *)
Definition credit (account : PublicKey) (amount : N) (s : State)
  : option State :=
  if (balance s account + amount <? 2 ^ 64)%N
  then Some (set_balance account (balance s account + amount) s)
  else None.

Definition debit (account : PublicKey) (amount : N) (s : State)
  : option State :=
  if (amount <=? balance s account)%N
  then Some (set_balance account (balance s account - amount) s)
  else None.

(** One instruction, with the privileges of its accounts as the message
    grants them. *)
Definition processInstruction
    (findProgramAddressSync : PublicKey -> N -> PublicKey * N)
    (ix : TransactionInstruction) (s : State) : option State :=
  if N.eqb (programId ix) SystemProgram.programId then
    match data ix, keys ix with
    | Transfer amount, from :: to :: _ =>
        if isSigner from && isWritable from && isWritable to
           && (0 <=? amount) && (amount <? 2 ^ 64)
        then s' ← debit (pubkey from) (Z.to_N amount) s;
             credit (pubkey to) (Z.to_N amount) s'
        else None
    | _, _ => None
    end
  else if N.eqb (programId ix) AddressLookupTableProgram.programId then
    match data ix, keys ix with
    | CreateLookupTable recentSlot bumpSeed, table :: auth :: payer :: _ =>
        let '(derived, bump) := findProgramAddressSync (pubkey auth) recentSlot in
        if isWritable table && isSigner payer && isWritable payer
           && N.eqb derived (pubkey table) && N.eqb bump bumpSeed
        then match tables s !! pubkey table with
             | Some _ => Some s
             | None => Some (set_table (pubkey table)
                               {| authority := pubkey auth; addresses := [] |} s)
             end
        else None
    | ExtendLookupTable new_addresses, table :: auth :: _ =>
        match tables s !! pubkey table with
        | Some t =>
            if isWritable table && isSigner auth
               && N.eqb (authority t) (pubkey auth)
               && negb (length new_addresses =? 0)%nat
               && (length (addresses t) + length new_addresses
                   <=? LOOKUP_TABLE_MAX_ADDRESSES)%nat
            then Some (set_table (pubkey table)
                         {| authority := authority t;
                            addresses := addresses t ++ new_addresses |} s)
            else None
        | None => None
        end
    | _, _ => None
    end
  else None.

Fixpoint processInstructions
    (findProgramAddressSync : PublicKey -> N -> PublicKey * N)
    (ixs : list TransactionInstruction) (s : State) : option State :=
  match ixs with
  | [] => Some s
  | ix :: rest =>
      s' ← processInstruction findProgramAddressSync ix s;
      processInstructions findProgramAddressSync rest s'
  end.

(** *** What a legacy transaction asks for *)

(** An account signs if it pays the fee or if some instruction marks it as a
    signer; it is writable if it pays the fee or if some instruction marks it
    as writable. *)
Definition legacyWritable (payer : PublicKey)
    (ixs : list TransactionInstruction) (k : PublicKey) : bool :=
  N.eqb k payer
  || existsb (fun ix => existsb (fun m => N.eqb (pubkey m) k && isWritable m)
                                (keys ix)) ixs.

Definition legacySigner (payer : PublicKey)
    (ixs : list TransactionInstruction) (k : PublicKey) : bool :=
  N.eqb k payer
  || existsb (fun ix => existsb (fun m => N.eqb (pubkey m) k && isSigner m)
                                (keys ix)) ixs.

Definition legacyResolve (payer : PublicKey)
    (ixs : list TransactionInstruction) : list TransactionInstruction :=
  map (fun ix =>
         {| keys := map (fun m => {| pubkey := pubkey m;
                                     isSigner := legacySigner payer ixs (pubkey m);
                                     isWritable := legacyWritable payer ixs (pubkey m) |})
                        (keys ix);
            programId := programId ix;
            data := data ix |})
      ixs.

(** *** What a version-0 transaction asks for *)

(** The addresses a message loads from the tables on the ledger: the
    writable ones of every lookup, then the read-only ones. *)
Fixpoint loadAddresses (s : State) (lookups : list MessageAddressTableLookup)
  : option (list PublicKey * list PublicKey) :=
  match lookups with
  | [] => Some ([], [])
  | lookup :: rest =>
      t ← tables s !! accountKey lookup;
      w ← mapM (fun i => addresses t !! i) (writableIndexes lookup);
      r ← mapM (fun i => addresses t !! i) (readonlyIndexes lookup);
      '(ws, rs) ← loadAddresses s rest;
      Some (w ++ ws, r ++ rs)
  end.

(** The privileges of the static keys follow from their position and the
    header. *)
Definition staticMeta (h : MessageHeader) (numStatic i : nat)
    (k : PublicKey) : AccountMeta :=
  {| pubkey := k;
     isSigner := (i <? numRequiredSignatures h)%nat;
     isWritable :=
       if (i <? numRequiredSignatures h)%nat
       then (i <? numRequiredSignatures h - numReadonlySignedAccounts h)%nat
       else (i <? numStatic - numReadonlyUnsignedAccounts h)%nat |}.

Definition v0Accounts (msg : MessageV0) (loaded : list PublicKey * list PublicKey)
  : list AccountMeta :=
  imap (staticMeta (header msg) (length (staticAccountKeys msg)))
       (staticAccountKeys msg)
  ++ map (fun k => {| pubkey := k; isSigner := false; isWritable := true |})
         (fst loaded)
  ++ map (fun k => {| pubkey := k; isSigner := false; isWritable := false |})
         (snd loaded).

Definition v0Instruction (accounts : list AccountMeta)
    (ci : MessageCompiledInstruction) : option TransactionInstruction :=
  program ← accounts !! programIdIndex ci;
  ks ← mapM (fun i => accounts !! i) (accountKeyIndexes ci);
  Some {| keys := ks; programId := pubkey program; data := ci_data ci |}.

Definition v0Resolve (s : State) (msg : MessageV0)
  : option (list TransactionInstruction) :=
  loaded ← loadAddresses s (addressTableLookups msg);
  mapM (v0Instruction (v0Accounts msg loaded)) (compiledInstructions msg).

End Ledger.

(** ** The environment, the world and the monad of the script *)

Import Web3.

(** Everything the script does not decide: the key of the provider's wallet,
    the requests the network refuses, the key pairs drawn, the blockhashes
    and slots reported, the lateness of the timer, and the two cryptographic
    functions of the SDK (address derivation and signing) that the model
    leaves abstract.  Requests are numbered in the order the script issues
    them; key pairs likewise.

    Three assumptions are built into the provider below.  A request that
    the network refuses changes nothing on the ledger.  The ledger changes
    only through the requests of the script: nobody else uses the wallet or
    the table while the script runs.  A transaction that the network accepts
    is applied at once, so that what the script reads afterwards, at any
    commitment level, includes it. *)
Record Env : Type := {
  wallet_publicKey : PublicKey;
  fault : nat -> option string;
  Keypair_generate : nat -> PublicKey;
  latestBlockhash : nat -> Blockhash * N;
  finalizedSlot : nat -> N;
  timerLateness : nat -> N;
  findProgramAddressSync : PublicKey -> N -> PublicKey * N;
  ed25519_sign : PublicKey -> list Byte.byte -> N
}.

(** What the script hands to the network.  A submission also stands for the
    transaction signature that the provider returns for it. *)
Inductive Submission : Type :=
| Airdrop (to : PublicKey) (amount : Z)
| Legacy (tx : Transaction)
| Versioned (tx : VersionedTransaction).

(** The exchanges with the network that the properties speak about, in the
    order in which they happen. *)
Inductive Event : Type :=
| Submitted (s : Submission)
| Confirmed (s : Submission)
| Fetched (table : PublicKey) (time : Z).

Inductive ConsoleLine : Type :=
| LogV0Size (v0TransactionSize : nat)
| LogExecuted (sig : Submission)
| LogBalance (i : nat) (balance : Z)
| LogError (e : Error).

Record World : Type := {
  ledger : Ledger.State;
  requests : nat;        (* requests issued so far *)
  keypairs : nat;        (* key pairs drawn so far *)
  clock : Z;             (* milliseconds elapsed *)
  trace : list Event;
  console : list ConsoleLine
}.

Definition M (A : Type) : Type := World -> Outcome A * World.

#[global] Instance M_mret : MRet M := fun _ a w => (Ok a, w).

#[global] Instance M_mbind : MBind M := fun _ _ f m w =>
  match m w with
  | (Ok a, w') => f a w'
  | (Throw e, w') => (Throw e, w')
  | (OutOfFuel, w') => (OutOfFuel, w')
  end.

Definition throw {A : Type} (e : Error) : M A := fun w => (Throw e, w).

Definition out_of_fuel {A : Type} : M A := fun w => (OutOfFuel, w).

(** An SDK call: it throws or returns, and leaves the world alone. *)
Definition lift {A : Type} (o : Outcome A) : M A := fun w => (o, w).

Definition get_world : M World := fun w => (Ok w, w).

Definition set_ledger (s : Ledger.State) : M unit := fun w =>
  (Ok tt, {| ledger := s; requests := requests w; keypairs := keypairs w;
             clock := clock w; trace := trace w; console := console w |}).

Definition emit (ev : Event) : M unit := fun w =>
  (Ok tt, {| ledger := ledger w; requests := requests w; keypairs := keypairs w;
             clock := clock w; trace := trace w ++ [ev]; console := console w |}).

Definition console_log (line : ConsoleLine) : M unit := fun w =>
  (Ok tt, {| ledger := ledger w; requests := requests w; keypairs := keypairs w;
             clock := clock w; trace := trace w; console := console w ++ [line] |}).

(** The number of the next request. *)
Definition next_request : M nat := fun w =>
  (Ok (requests w),
   {| ledger := ledger w; requests := S (requests w); keypairs := keypairs w;
      clock := clock w; trace := trace w; console := console w |}).

Definition next_keypair : M nat := fun w =>
  (Ok (keypairs w),
   {| ledger := ledger w; requests := requests w; keypairs := S (keypairs w);
      clock := clock w; trace := trace w; console := console w |}).

Definition advance_clock (ms : Z) : M unit := fun w =>
  (Ok tt, {| ledger := ledger w; requests := requests w; keypairs := keypairs w;
             clock := clock w + ms; trace := trace w; console := console w |}).

(** The longest delay a timer takes (Node.js: a delay larger than this, or
    less than 1, is set to 1). *)
Definition TIMEOUT_MAX : Z := 2 ^ 31 - 1.

Definition timer_delay (ms : Z) : Z :=
  if (1 <=? ms) && (ms <=? TIMEOUT_MAX) then ms else 1.

Section Provider.
Variable env : Env.

(** The network refuses request [n], or lets it through. *)
Definition refused (n : nat) : M unit :=
  match fault env n with
  | Some msg => throw (RpcError msg)
  | None => mret tt
  end.

(** A transaction that the ledger cannot apply is refused as a whole. *)
Definition apply_to_ledger (ixs : option (list TransactionInstruction))
  : M unit :=
  w ← get_world;
  match ixs ≫= fun ixs => Ledger.processInstructions
                            (findProgramAddressSync env) ixs (ledger w) with
  | Some s' => set_ledger s'
  | None => throw (RpcError "Transaction simulation failed")
  end.

(** [Keypair.generate().publicKey]. *)
Definition generate : M PublicKey :=
  n ← next_keypair; mret (Keypair_generate env n).

(** [connection.requestAirdrop(to, lamports)]. *)
Definition requestAirdrop (to : PublicKey) (amount : Z) : M Submission :=
  n ← next_request;
  emit (Submitted (Airdrop to amount));;
  refused n;;
  w ← get_world;
  match Ledger.credit to (Z.to_N amount) (ledger w) with
  | Some s' => set_ledger s';; mret (Airdrop to amount)
  | None => throw (RpcError "airdrop request failed")
  end.

(** [connection.confirmTransaction(signature, commitment)]. *)
Definition confirmTransaction (sig : Submission) : M unit :=
  n ← next_request;
  refused n;;
  emit (Confirmed sig).

(** [connection.getLatestBlockhash()]: the blockhash and the last block
    height at which it is valid. *)
Definition getLatestBlockhash : M (Blockhash * N) :=
  n ← next_request;
  refused n;;
  mret (latestBlockhash env n).

(** [connection.getSlot("finalized")]. *)
Definition getSlot : M N :=
  n ← next_request;
  refused n;;
  mret (finalizedSlot env n).

(** The transaction as the provider sends it: its wallet named as the fee
    payer when the transaction names none, and the blockhash the network
    reports to request [n]. *)
Definition prepared (n : nat) (tx : Transaction) : Transaction :=
  {| feePayer := Some (default (wallet_publicKey env) (feePayer tx));
     recentBlockhash := Some (fst (latestBlockhash env n));
     lastValidBlockHeight := lastValidBlockHeight tx;
     tx_instructions := tx_instructions tx |}.

(** [provider.sendAndConfirm(tx)]: the provider prepares the transaction,
    signs with the wallet (the only key it holds) and serializes, sends the
    transaction and waits for its confirmation.  It returns once the
    transaction is confirmed and throws when any step fails; the whole
    exchange counts as one request. *)
Definition sendAndConfirm (tx : Transaction) : M Submission :=
  n ← next_request;
  let payer := default (wallet_publicKey env) (feePayer tx) in
  let tx' := prepared n tx in
  lift (sdk_assert
          (forallb (N.eqb (wallet_publicKey env))
                   (legacySignerKeys payer (tx_instructions tx)))
          "Signature verification failed");;
  lift (Transaction_serialize_length tx');;
  emit (Submitted (Legacy tx'));;
  refused n;;
  apply_to_ledger (Some (Ledger.legacyResolve payer (tx_instructions tx)));;
  emit (Confirmed (Legacy tx'));;
  mret (Legacy tx').

(** The signatures the ledger expects on a version-0 transaction: one per
    required signer, over the serialized message. *)
Definition validSignatures (tx : VersionedTransaction) : bool :=
  bool_decide
    (signatures tx
     = map (fun signer => ed25519_sign env signer (MessageV0_bytes (message tx)))
           (take (numRequiredSignatures (header (message tx)))
                 (staticAccountKeys (message tx)))).

(** [connection.sendTransaction(v0Transaction)]: the transaction is
    serialized and sent; the node checks its size and signatures, loads the
    addresses from the lookup tables and applies the instructions. *)
Definition sendTransaction (tx : VersionedTransaction) : M Submission :=
  wireTransaction ← lift (VersionedTransaction_serialize tx);
  n ← next_request;
  emit (Submitted (Versioned tx));;
  refused n;;
  (if Z.of_nat (length wireTransaction) <=? PACKET_DATA_SIZE then mret tt
   else throw (RpcError "transaction too large"));;
  (if validSignatures tx then mret tt
   else throw (RpcError "Transaction signature verification failure"));;
  w ← get_world;
  apply_to_ledger (Ledger.v0Resolve (ledger w) (message tx));;
  mret (Versioned tx).

(** [(await connection.getAddressLookupTable(lut)).value]: the table, or
    [None] for [null]. *)
Definition getAddressLookupTable (lut : PublicKey)
  : M (option AddressLookupTableAccount) :=
  n ← next_request;
  w ← get_world;
  emit (Fetched lut (clock w));;
  refused n;;
  mret (match Ledger.tables (ledger w) !! lut with
        | Some t => Some {| key := lut; state_addresses := Ledger.addresses t |}
        | None => None
        end).

(** [connection.getBalance(account, "finalized")]. *)
Definition getBalance (account : PublicKey) : M Z :=
  n ← next_request;
  refused n;;
  w ← get_world;
  mret (Z.of_N (Ledger.balance (ledger w) account)).

(** [sleep(ms)] of run.ts lines 116-118: the promise resolves when the timer
    fires, not before the delay of the timer has passed. *)
Definition sleep (ms : Z) : M unit :=
  w ← get_world;
  advance_clock (timer_delay ms + Z.of_N (timerLateness env (requests w))).

(** [assert(cond)]. *)
Definition assert (cond : bool) : M unit :=
  if cond then mret tt else throw AssertionError.

End Provider.

(** ** The script *)

(** The steps of run.ts, in the order of the file.  The script is one
    asynchronous function; it is cut here at the places where the
    specification names a procedure, and [main] puts the pieces back in
    sequence.  Every [await] is a bind of [M]: the next step starts when the
    awaited call has returned. *)

Section Script.
Variable env : Env.

Let publicKey : PublicKey := wallet_publicKey env.

(** Lines 44-47: fifty fresh public keys, pushed in order ([n] is the number
    of iterations still to run). *)
Fixpoint generateRecipients (n : nat) (recipients : list PublicKey)
  : M (list PublicKey) :=
  match n with
  | O => mret recipients
  | S n' =>
      k ← generate env;
      generateRecipients n' (recipients ++ [k])
  end.

(** Lines 48-57: one transfer of 4 SOL from the provider to [recipients[i]],
    for [i] from 0 to 49. *)
Definition transferInstructions (recipients : list PublicKey)
  : list TransactionInstruction :=
  fold_left
    (fun instructions i =>
       instructions
         ++ [SystemProgram.transfer publicKey (recipients !!! i)
                                    (4 * LAMPORTS_PER_SOL)])
    (seq 0 50) [].

(** Lines 59-68: the legacy transaction holding all the instructions.  The
    script builds it and never sends it. *)
Definition legacyTransaction (blockhash : Blockhash) (lastValid : N)
    (instructions : list TransactionInstruction) : Transaction :=
  fold_left add instructions (Transaction_new publicKey blockhash lastValid).

(** Lines 79-86: the table is created by a transaction of its own. *)
Definition createTable : M PublicKey :=
  recentSlot ← getSlot env;
  let '(create, lut) :=
    AddressLookupTableProgram.createLookupTable
      (findProgramAddressSync env) publicKey publicKey recentSlot in
  sendAndConfirm env (add Transaction_empty create);;
  mret lut.

(** Lines 100-107: the transaction of one iteration. *)
Definition extendTransaction (lut : PublicKey) (addresses : list PublicKey)
  : Transaction :=
  add Transaction_empty
      (AddressLookupTableProgram.extendLookupTable publicKey publicKey lut
                                                   addresses).

(** Lines 99-109: the loop that extends the table, for any step [batch];
    [fuel] bounds the number of iterations. *)
Fixpoint extendLoop (fuel : nat) (lut : PublicKey)
    (lookupAccounts : list PublicKey) (batch i : Z) : M unit :=
  match fuel with
  | O => out_of_fuel
  | S fuel' =>
      if i <? Z.of_nat (length lookupAccounts) then
        let extend :=
          extendTransaction lut (JS.slice lookupAccounts i (i + batch)) in
        sendAndConfirm env extend;;
        extendLoop fuel' lut lookupAccounts batch (i + batch)
      else mret tt
  end.

(** The loop from [i = 0].  A loop whose step is at least one runs at most
    once per address, so this fuel never runs out for such a step. *)
Definition extendTable (lut : PublicKey) (lookupAccounts : list PublicKey)
    (batch : Z) : M unit :=
  extendLoop (S (length lookupAccounts)) lut lookupAccounts batch 0.

(** Lines 116-125: wait, fetch the table, and give up if there is none. *)
Definition awaitActivation (lut : PublicKey) (delay : Z)
  : M AddressLookupTableAccount :=
  sleep env delay;;
  lookupTable ← getAddressLookupTable env lut;
  match lookupTable with
  | None => throw (ScriptError "Lookup table is uninitialized")
  | Some t => mret t
  end.

(** Lines 128-135 without the request for the blockhash: the message, its
    compilation against the lookup tables, the signature of the payer
    ([provider.wallet.signTransaction], which signs with the key pair of the
    wallet) and the serialized transaction. *)
Definition compileComposite (instructions : list TransactionInstruction)
    (lookupTables : list AddressLookupTableAccount) (payer : PublicKey)
    (recentBlockhash : Blockhash)
  : Outcome (VersionedTransaction * list Byte.byte) :=
  let message := {| payerKey := payer;
                    msg_recentBlockhash := recentBlockhash;
                    instructions := instructions |} in
  compiled ← compileToV0Message message lookupTables;
  let v0Transaction := VersionedTransaction_new compiled in
  v0Transaction ← VersionedTransaction_sign (ed25519_sign env payer) payer
                                             v0Transaction;
  bytes ← VersionedTransaction_serialize v0Transaction;
  Ok (v0Transaction, bytes).

(** Lines 128-136 as the script runs them. *)
Definition compileStep (instructions : list TransactionInstruction)
    (lookupTable : AddressLookupTableAccount) : M VersionedTransaction :=
  '(blockhash, _) ← getLatestBlockhash env;
  '(v0Transaction, bytes) ←
    lift (compileComposite instructions [lookupTable] publicKey blockhash);
  let v0TransactionSize := length bytes in
  console_log (LogV0Size v0TransactionSize);;
  mret v0Transaction.

(** Lines 144-150: every recipient must hold at least 4 SOL. *)
Fixpoint checkBalances (i : nat) (recipients : list PublicKey) : M unit :=
  match recipients with
  | [] => mret tt
  | recipient :: rest =>
      balance ← getBalance env recipient;
      console_log (LogBalance i balance);;
      assert (4 * LAMPORTS_PER_SOL <=? balance);;
      checkBalances (S i) rest
  end.

Definition batch : Z := 15.

Definition airdropAmount : Z := 300 * LAMPORTS_PER_SOL.

(** Lines 33-150. *)
Definition main : M unit :=
  sig ← requestAirdrop env publicKey airdropAmount;
  confirmTransaction env sig;;
  recipients ← generateRecipients 50 [];
  let instructions := transferInstructions recipients in
  blockInfo ← getLatestBlockhash env;
  let legacy := legacyTransaction (fst blockInfo) (snd blockInfo) instructions in
  lut ← createTable;
  let lookupAccounts := [SystemProgram.programId; publicKey] ++ recipients in
  extendTable lut lookupAccounts batch;;
  lookupTable ← awaitActivation lut 2000;
  v0Transaction ← compileStep instructions lookupTable;
  sig ← sendTransaction env v0Transaction;
  confirmTransaction env sig;;
  console_log (LogExecuted sig);;
  checkBalances 0 recipients.

(** Line 151: [.catch(console.error)]. *)
Definition run : M unit := fun w =>
  match main w with
  | (Throw e, w') => console_log (LogError e) w'
  | result => result
  end.

End Script.

(** ** The batching loop, read as a function *)

(** The sequence of [addresses] arguments that the loop of lines 99-109
    builds, one per iteration: [extendLoop] without the network.  [None]
    says that the loop was still running when the fuel ran out. *)
Fixpoint batchLoop {A : Type} (fuel : nat) (lookupAccounts : list A)
    (batch i : Z) : option (list (list A)) :=
  match fuel with
  | O => None
  | S fuel' =>
      if i <? Z.of_nat (length lookupAccounts) then
        match batchLoop fuel' lookupAccounts batch (i + batch) with
        | Some rest => Some (JS.slice lookupAccounts i (i + batch) :: rest)
        | None => None
        end
      else Some []
  end.

Definition planBatches {A : Type} (lookupAccounts : list A) (batch : Z)
  : option (list (list A)) :=
  batchLoop (S (length lookupAccounts)) lookupAccounts batch 0.

(** [ceil (n / d)] for [n >= 0] and [d >= 1]. *)
Definition ceil_div (n d : Z) : Z := (n + d - 1) / d.

(** The lamports an instruction moves between accounts. *)
Definition lamportsMoved (ix : TransactionInstruction) : Z :=
  match data ix with
  | Transfer amount => amount
  | _ => 0
  end.

Definition totalLamportsMoved (ixs : list TransactionInstruction) : Z :=
  fold_right Z.add 0 (map lamportsMoved ixs).

(** The submissions of a list of transactions one after the other, each
    sent when the one before has been confirmed: what the loop of lines
    99-109 does with the chunks of [batchLoop]. *)
Fixpoint submitAll (env : Env) (txs : list Transaction) : M unit :=
  match txs with
  | [] => mret tt
  | tx :: rest => sendAndConfirm env tx;; submitAll env rest
  end.

(** A stretch of the trace in which no transaction is submitted before the
    one submitted before it has been confirmed: it is a run of
    submitted-confirmed pairs, with at most one unconfirmed submission, the
    last event. *)
Inductive Sequential : list Event -> Prop :=
| Sequential_nil : Sequential []
| Sequential_pending (s : Submission) : Sequential [Submitted s]
| Sequential_pair (s : Submission) (rest : list Event) :
    Sequential rest -> Sequential (Submitted s :: Confirmed s :: rest).

(** The submissions of a stretch of the trace, in order. *)
Fixpoint submissionsOf (events : list Event) : list Submission :=
  match events with
  | [] => []
  | Submitted s :: rest => s :: submissionsOf rest
  | _ :: rest => submissionsOf rest
  end.

(** The confirmations of a stretch of the trace, in order. *)
Fixpoint confirmationsOf (events : list Event) : list Submission :=
  match events with
  | [] => []
  | Confirmed s :: rest => s :: confirmationsOf rest
  | _ :: rest => confirmationsOf rest
  end.

(** Why the provider gives up on the transaction it prepared as [tx'] for
    request [n], and what it has put on the trace by then. *)
Inductive SubmissionFailure (env : Env) (n : nat) (tx' : Transaction)
  : Error -> list Event -> Prop :=
| Failure_too_large :
    SubmissionFailure env n tx' (SdkError "Transaction too large") []
| Failure_refused (msg : string) :
    fault env n = Some msg ->
    SubmissionFailure env n tx' (RpcError msg) [Submitted (Legacy tx')]
| Failure_not_applied :
    fault env n = None ->
    SubmissionFailure env n tx' (RpcError "Transaction simulation failed")
                      [Submitted (Legacy tx')].

(** The world after a request: one more request issued, the ledger as
    given, the events added to the trace. *)
Definition sent (w : World) (s : Ledger.State) (events : list Event) : World :=
  {| ledger := s; requests := S (requests w); keypairs := keypairs w;
     clock := clock w; trace := trace w ++ events; console := console w |}.

(** The events of transactions that went through: each submitted, then
    confirmed. *)
Definition confirmedPairs (txs : list Transaction) : list Event :=
  flat_map (fun tx => [Submitted (Legacy tx); Confirmed (Legacy tx)]) txs.

(** The transactions the provider sends for [txs] when the first of them
    goes out as request [n]. *)
Definition preparedFrom (env : Env) (n : nat) (txs : list Transaction)
  : list Transaction :=
  imap (fun j tx => prepared env (n + j) tx) txs.

(** The lookup table after [new_addresses] have been appended. *)
Definition extended (new_addresses : list PublicKey) (t : Ledger.LookupTable)
  : Ledger.LookupTable :=
  {| Ledger.authority := Ledger.authority t;
     Ledger.addresses := Ledger.addresses t ++ new_addresses |}.

(** The chunk of iteration [j] of a loop started at [i]. *)
Definition sliceAt {A : Type} (lookupAccounts : list A) (b i : Z) (j : nat)
  : list A :=
  JS.slice lookupAccounts (i + Z.of_nat j * b) (i + Z.of_nat j * b + b).

(** One transfer of the script: 4 SOL from the provider to [recipient]. *)
Definition transferTo (env : Env) (recipient : PublicKey) : TransactionInstruction :=
  SystemProgram.transfer (wallet_publicKey env) recipient (4 * LAMPORTS_PER_SOL).

(** The ledger holds, under the address of each table given to the compiler,
    the addresses the compiler saw. *)
Definition tablesAgree (s : Ledger.State) (lookupTables : list AddressLookupTableAccount)
  : Prop :=
  Forall (fun t => exists T, Ledger.tables s !! key t = Some T
                             /\ Ledger.addresses T = state_addresses t)
         lookupTables.

(** The same keys, the same program, the same data: what an instruction
    keeps through compilation; the privileges are those of the message. *)
Definition sameInstruction (ix' ix : TransactionInstruction) : Prop :=
  programId ix' = programId ix
  /\ data ix' = data ix
  /\ map pubkey (keys ix') = map pubkey (keys ix).

(** [triple P m Q]: from a world in which [P] holds, [m] returns a value
    and a world in which [Q] holds, or throws an error that is not the
    failure of an assertion, or runs out of fuel. *)
Definition triple {A : Type} (P : World -> Prop) (m : M A)
    (Q : A -> World -> Prop) : Prop :=
  forall w, P w ->
    match m w with
    | (Ok a, w') => Q a w'
    | (Throw e, _) => e <> AssertionError
    | (OutOfFuel, _) => True
    end.

(** A property of the world that only looks at the ledger and at the number
    of key pairs drawn. *)
Definition stable (P : World -> Prop) : Prop :=
  forall w w', ledger w' = ledger w -> keypairs w' = keypairs w -> P w -> P w'.

(** An SDK call that throws nothing but errors of the SDK. *)
Definition sdk_only {A : Type} (o : Outcome A) : Prop :=
  forall e, o = Throw e -> exists msg, e = SdkError msg.

(** A step that only adds to the trace. *)
Definition appends {A : Type} (m : M A) : Prop :=
  forall w, exists delta, trace (snd (m w)) = trace w ++ delta.

(** ** Outcomes of a whole run *)

(** [hoare P m Q E]: from a world in which [P] holds, [m] returns a value
    and a world in which [Q] holds, or stops in a world in which [E] holds
    of the error thrown ([None] when the fuel ran out). *)
Definition hoare {A : Type} (P : World -> Prop) (m : M A)
    (Q : A -> World -> Prop) (E : option Error -> World -> Prop) : Prop :=
  forall w, P w ->
    match m w with
    | (Ok a, w') => Q a w'
    | (Throw e, w') => E (Some e) w'
    | (OutOfFuel, w') => E None w'
    end.

(** No account but the payer's holds another balance in [s] than in [s0]. *)
Definition othersUntouched (payer : PublicKey) (s0 s : Ledger.State) : Prop :=
  forall x, x <> payer -> Ledger.balance s x = Ledger.balance s0 x.

(** Every recipient holds [amount] more in [s] than in [s0], and no account
    but theirs and the payer's holds another balance. *)
Definition recipientsPaid (payer : PublicKey) (recipients : list PublicKey)
    (amount : N) (s0 s : Ledger.State) : Prop :=
  (forall r, r ∈ recipients ->
     Ledger.balance s r = (Ledger.balance s0 r + amount)%N)
  /\ (forall x, x <> payer -> x ∉ recipients ->
        Ledger.balance s x = Ledger.balance s0 x).

(** The error, if any, is a refusal of the network. *)
Definition refusal (o : option Error) : Prop :=
  exists msg, o = Some (RpcError msg).

(** The world after [n] turns of the loop of lines 144-150 that started at
    recipient number [i]: [n] more requests, and the [n] balances logged. *)
Definition balancesChecked (w : World) (i : nat) (recipients : list PublicKey)
    (n : nat) : World :=
  {| ledger := ledger w; requests := (requests w + n)%nat; keypairs := keypairs w;
     clock := clock w; trace := trace w;
     console := console w
                ++ imap (fun j r => LogBalance (i + j)
                                      (Z.of_N (Ledger.balance (ledger w) r)))
                        (take n recipients) |}.

(** The events of a run of the script in which nothing fails, from the world
    [w0]: the airdrop, the creation of the table and its four extensions,
    each submitted and then confirmed, the fetch of the table at [time], and
    the versioned transaction [v0]. *)
Definition scriptTrace (env : Env) (w0 : World) (time : Z)
    (v0 : VersionedTransaction) : list Event :=
  let payer := wallet_publicKey env in
  let recipients := map (Keypair_generate env) (seq (keypairs w0) 50) in
  let lookupAccounts := [SystemProgram.programId; payer] ++ recipients in
  let '(create, lut) :=
    AddressLookupTableProgram.createLookupTable
      (findProgramAddressSync env) payer payer
      (finalizedSlot env (requests w0 + 3)) in
  [Submitted (Airdrop payer airdropAmount); Confirmed (Airdrop payer airdropAmount)]
  ++ confirmedPairs
       (preparedFrom env (requests w0 + 4)
          (add Transaction_empty create
           :: map (extendTransaction env lut)
                  (default [] (planBatches lookupAccounts batch))))
  ++ [Fetched lut time; Submitted (Versioned v0); Confirmed (Versioned v0)].

(** A legacy transaction that only speaks to the lookup-table program, in
    one instruction. *)
Definition tableTransaction (tx : Transaction) : Prop :=
  exists ix, tx_instructions tx = [ix]
             /\ programId ix = AddressLookupTableProgram.programId.

(** ** A concrete environment *)

(** A local validator that refuses nothing: the wallet has key 7, the
    recipients drawn are 1000, 1001, ..., the table is derived at address
    900.  [localnet_refusing n] is the same network refusing request [n]. *)
Definition localnet_refusing (refusal : nat -> option string) : Env :=
  {| wallet_publicKey := 7%N;
     fault := refusal;
     Keypair_generate := fun n => N.of_nat (1000 + n);
     latestBlockhash := fun n => (N.of_nat (500 + n), 77%N);
     finalizedSlot := fun _ => 42%N;
     timerLateness := fun _ => 0%N;
     findProgramAddressSync := fun _ _ => (900%N, 255%N);
     ed25519_sign := fun k bytes => (k + N.of_nat (length bytes))%N |}.

Definition localnet : Env := localnet_refusing (fun _ => None).

(** The network that refuses request [k], and only that one. *)
Definition refuse_request (k : nat) (msg : string) : nat -> option string :=
  fun n => if (n =? k)%nat then Some msg else None.

Definition genesis : World :=
  {| ledger := {| Ledger.lamports := ∅; Ledger.tables := ∅ |};
     requests := 0; keypairs := 0; clock := 0; trace := []; console := [] |}.

(** The fifty recipients that [localnet] draws, and the accounts that go
    into the table. *)
Definition localnet_recipients : list PublicKey :=
  map (fun n => N.of_nat (1000 + n)) (seq 0 50).

Definition localnet_lookupAccounts : list PublicKey :=
  [SystemProgram.programId; 7%N] ++ localnet_recipients.

(** The world in which the table at address 900 has just been created. *)
Definition table_created : World := snd (createTable localnet genesis).

(* ===================================================================== *)
(** * Part II: properties *)
(* ===================================================================== *)

(** ** The batching loop *)

Section BatchingFacts.
Context {A : Type}.
Implicit Types (l : list A) (b i : Z).

(** Inside the array, [slice(i, i + b)] is the next [b] elements. *)
Lemma slice_in_range l i b :
  0 <= i -> 0 <= b ->
  JS.slice l i (i + b) = take (Z.to_nat b) (drop (Z.to_nat i) l).
Proof.
  intros Hi Hb. unfold JS.slice, JS.clamp_index.
  set (len := Z.of_nat (length l)).
  assert (Hlen : 0 <= len) by (unfold len; lia).
  destruct (Z.ltb_spec i 0) as [?|_]; [lia|].
  destruct (Z.ltb_spec (i + b) 0) as [?|_]; [lia|].
  destruct (Z_le_gt_dec i len) as [Hle|Hgt].
  - rewrite (Z.min_l i len) by lia.
    destruct (Z_le_gt_dec (i + b) len) as [Hle2|Hgt2].
    + rewrite (Z.min_l (i + b) len) by lia. f_equal. f_equal. lia.
    + rewrite (Z.min_r (i + b) len) by lia.
      rewrite !take_ge; [reflexivity| |]; rewrite length_drop; unfold len; lia.
  - rewrite (Z.min_r i len), (Z.min_r (i + b) len) by lia.
    rewrite !drop_ge by (unfold len in *; lia). by rewrite !take_nil.
Qed.

(** More fuel does not change a result already reached. *)
Lemma batchLoop_fuel_mono (fuel fuel' : nat) l b i chunks :
  batchLoop fuel l b i = Some chunks ->
  (fuel <= fuel')%nat ->
  batchLoop fuel' l b i = Some chunks.
Proof.
  revert fuel' i chunks. induction fuel as [|fuel IH]; intros fuel' i chunks H Hle.
  - discriminate.
  - destruct fuel' as [|fuel']; [lia|]. simpl in *.
    destruct (i <? Z.of_nat (length l)); [|exact H].
    destruct (batchLoop fuel l b (i + b)) as [rest|] eqn:E; [|discriminate].
    rewrite (IH fuel' (i + b) rest E) by lia. exact H.
Qed.

(** The loop from any position [i >= 0], for a step of at least one. *)
Lemma batchLoop_from (fuel : nat) l b i :
  1 <= b -> 0 <= i ->
  (Z.to_nat (Z.of_nat (length l) - i) < fuel)%nat ->
  exists chunks,
    batchLoop fuel l b i = Some chunks
    /\ concat chunks = drop (Z.to_nat i) l
    /\ Forall (fun c => 1 <= Z.of_nat (length c) <= b) chunks
    /\ Z.of_nat (length chunks)
       = ceil_div (Z.max 0 (Z.of_nat (length l) - i)) b.
Proof.
  intros Hb. revert i. induction fuel as [|fuel IH]; intros i Hi Hfuel; [lia|].
  simpl. destruct (Z.ltb_spec i (Z.of_nat (length l))) as [Hlt|Hge].
  - destruct (IH (i + b)) as (rest & -> & Hcat & Hall & Hlen); [lia|lia|].
    eexists. split; [reflexivity|]. rewrite slice_in_range by lia.
    split; [|split].
    + simpl. rewrite Hcat.
      replace (Z.to_nat (i + b)) with (Z.to_nat i + Z.to_nat b)%nat by lia.
      rewrite <- drop_drop. apply take_drop.
    + constructor; [|exact Hall].
      rewrite length_take, length_drop. lia.
    + simpl length. rewrite Nat2Z.inj_succ, Hlen. unfold ceil_div.
      rewrite (Z.max_r 0 (Z.of_nat (length l) - i)) by lia.
      destruct (Z_le_gt_dec 0 (Z.of_nat (length l) - (i + b))) as [Hn|Hn].
      * rewrite Z.max_r by lia.
        replace (Z.of_nat (length l) - i + b - 1)
          with (Z.of_nat (length l) - (i + b) + b - 1 + 1 * b) by lia.
        rewrite Z.div_add by lia. lia.
      * rewrite Z.max_l by lia.
        rewrite (Z.div_small (0 + b - 1) b) by lia.
        apply Z.div_unique with (r := Z.of_nat (length l) - i - 1); lia.
  - exists []. repeat split.
    + simpl. rewrite drop_ge by lia. reflexivity.
    + constructor.
    + simpl. unfold ceil_div. rewrite Z.max_l by lia.
      rewrite Z.div_small; lia.
Qed.

(** With a step of zero or less the index never reaches the length of a
    non-empty array: the loop has no last iteration. *)
Lemma batchLoop_stuck (fuel : nat) l b i :
  b <= 0 -> i <= 0 -> l <> [] -> batchLoop fuel l b i = None.
Proof.
  intros Hb. revert i. induction fuel as [|fuel IH]; intros i Hi Hl; [reflexivity|].
  simpl. destruct (Z.ltb_spec i (Z.of_nat (length l))) as [_|Hge].
  - rewrite IH by (auto; lia). reflexivity.
  - destruct l; [congruence|]. simpl in Hge. lia.
Qed.

End BatchingFacts.

(** ** The provider and the extension loop *)

Section ProviderFacts.
Variable env : Env.
#[local] Abbreviation pk := (wallet_publicKey env).


Lemma sendAndConfirm_run (tx : Transaction) (w : World) :
  forallb (N.eqb pk) (legacySignerKeys (default pk (feePayer tx)) (tx_instructions tx)) = true ->
  sendAndConfirm env tx w =
    let tx' := prepared env (requests w) tx in
    match Transaction_serialize_length tx' with
    | Ok _ =>
        match fault env (requests w) with
        | Some msg => (Throw (RpcError msg), sent w (ledger w) [Submitted (Legacy tx')])
        | None =>
            match Ledger.processInstructions (findProgramAddressSync env)
                    (Ledger.legacyResolve (default pk (feePayer tx)) (tx_instructions tx))
                    (ledger w) with
            | Some s' => (Ok (Legacy tx'),
                          sent w s' [Submitted (Legacy tx'); Confirmed (Legacy tx')])
            | None => (Throw (RpcError "Transaction simulation failed"),
                       sent w (ledger w) [Submitted (Legacy tx')])
            end
        end
    | Throw e => (Throw e, sent w (ledger w) [])
    | OutOfFuel => (OutOfFuel, sent w (ledger w) [])
    end.
Proof.
  intros Hsig.
  cbv beta iota zeta delta
    [sendAndConfirm sent mbind M_mbind mret M_mret next_request lift emit
     refused apply_to_ledger get_world set_ledger throw option_bind sdk_assert].
  cbn [ledger requests keypairs clock trace console].
  rewrite Hsig.
  destruct (Transaction_serialize_length (prepared env (requests w) tx)) as [len|e|];
    rewrite ?app_nil_r; try reflexivity.
  destruct (fault env (requests w)) as [msg|]; [reflexivity|].
  cbn [ledger requests keypairs clock trace console].
  match goal with
  | |- context [Ledger.processInstructions ?a ?b ?c] =>
      destruct (Ledger.processInstructions a b c) as [s'|]
  end; cbn [ledger requests keypairs clock trace console];
    rewrite <- ?app_assoc; reflexivity.
Qed.

Lemma forallb_remove_dups (k : N) (l : list N) :
  Forall (fun x => x = k) l -> forallb (N.eqb k) (remove_dups l) = true.
Proof.
  intros H. apply forallb_forall. intros x Hx.
  apply list_elem_of_In in Hx. rewrite elem_of_remove_dups in Hx.
  rewrite Forall_forall in H. rewrite (H x Hx). apply N.eqb_refl.
Qed.

Lemma extend_signers lut (c : list N) :
  forallb (N.eqb pk)
    (legacySignerKeys (default pk (feePayer (extendTransaction env lut c)))
                      (tx_instructions (extendTransaction env lut c))) = true.
Proof.
  apply forallb_remove_dups. cbn. repeat constructor.
Qed.

Lemma extend_process lut (c : list N) (s : Ledger.State) :
  Ledger.processInstructions (findProgramAddressSync env)
    (Ledger.legacyResolve
       (default pk (feePayer (extendTransaction env lut c)))
       (tx_instructions (extendTransaction env lut c))) s
  = match Ledger.tables s !! lut with
    | Some t =>
        if N.eqb (Ledger.authority t) pk
           && negb (length c =? 0)%nat
           && (length (Ledger.addresses t) + length c
               <=? Ledger.LOOKUP_TABLE_MAX_ADDRESSES)%nat
        then Some (Ledger.set_table lut (extended c t) s)
        else None
    | None => None
    end.
Proof.
  set (ix := AddressLookupTableProgram.extendLookupTable pk pk lut c).
  assert (Hw : Ledger.legacyWritable pk [ix] lut = true).
  { unfold Ledger.legacyWritable. cbn. rewrite N.eqb_refl. cbn. apply orb_true_r. }
  assert (Hs : Ledger.legacySigner pk [ix] pk = true).
  { unfold Ledger.legacySigner. rewrite N.eqb_refl. reflexivity. }
  cbn -[Ledger.LOOKUP_TABLE_MAX_ADDRESSES N.eqb Nat.leb Nat.eqb
        Ledger.legacyWritable Ledger.legacySigner].
  fold ix. rewrite Hw, Hs.
  unfold Ledger.processInstruction.
  cbn [programId data keys pubkey isSigner isWritable].
  change (N.eqb AddressLookupTableProgram.programId SystemProgram.programId)
    with false.
  change (N.eqb AddressLookupTableProgram.programId AddressLookupTableProgram.programId)
    with true.
  cbn iota.
  destruct (Ledger.tables s !! lut) as [t|]; [|reflexivity].
  cbn [andb].
  destruct (N.eqb (Ledger.authority t) pk && negb (length c =? 0)%nat
            && (length (Ledger.addresses t) + length c
                <=? Ledger.LOOKUP_TABLE_MAX_ADDRESSES)%nat); reflexivity.
Qed.

Lemma prepared_serialize_length n tx :
  Transaction_serialize_length (prepared env n tx)
  = if Z.of_nat (legacyWireLength (default pk (feePayer tx)) (tx_instructions tx))
       <=? PACKET_DATA_SIZE
    then Ok (legacyWireLength (default pk (feePayer tx)) (tx_instructions tx))
    else Throw (SdkError "Transaction too large").
Proof. reflexivity. Qed.

(** One iteration of the loop: the table grows by the chunk, or nothing
    changes and the provider throws. *)
Lemma sendAndConfirm_extend lut (c : list N) w r w' :
  sendAndConfirm env (extendTransaction env lut c) w = (r, w') ->
  let tx' := prepared env (requests w) (extendTransaction env lut c) in
  (exists t,
      r = Ok (Legacy tx')
      /\ Ledger.tables (ledger w) !! lut = Some t
      /\ c <> []
      /\ fault env (requests w) = None
      /\ w' = sent w (Ledger.set_table lut (extended c t) (ledger w))
                   [Submitted (Legacy tx'); Confirmed (Legacy tx')])
  \/ (exists e pending,
        r = Throw e
        /\ SubmissionFailure env (requests w) tx' e pending
        /\ w' = sent w (ledger w) pending).
Proof.
  rewrite sendAndConfirm_run by apply extend_signers.
  cbv zeta. rewrite prepared_serialize_length, extend_process.
  destruct (Z.of_nat _ <=? PACKET_DATA_SIZE).
  - destruct (fault env (requests w)) as [msg|] eqn:Hfault.
    + intros [= <- <-]. right. eexists _, _. split; [reflexivity|].
      split; [by constructor|reflexivity].
    + destruct (Ledger.tables (ledger w) !! lut) as [t|] eqn:Ht.
      * destruct (N.eqb (Ledger.authority t) pk && negb (length c =? 0)%nat
                  && _) eqn:Hok.
        -- intros [= <- <-]. left. exists t. repeat split; try reflexivity; auto.
           intros ->. rewrite andb_false_r in Hok. discriminate.
        -- intros [= <- <-]. right. eexists _, _. split; [reflexivity|].
           split; [by constructor|reflexivity].
      * intros [= <- <-]. right. eexists _, _. split; [reflexivity|].
        split; [by constructor|reflexivity].
  - intros [= <- <-]. right. eexists _, _. split; [reflexivity|].
    split; [constructor|reflexivity].
Qed.

Lemma bind_run {A B : Type} (m : M A) (f : A -> M B) (w : World) :
  (m ≫= f) w = match m w with
               | (Ok a, w1) => f a w1
               | (Throw e, w1) => (Throw e, w1)
               | (OutOfFuel, w1) => (OutOfFuel, w1)
               end.
Proof. reflexivity. Qed.


Lemma Sequential_pairs_app (txs : list Transaction) (pending : list Event) :
  Sequential pending -> Sequential (confirmedPairs txs ++ pending).
Proof.
  intros Hp. induction txs as [|tx txs IH]; [exact Hp|].
  cbn. by constructor.
Qed.

Lemma SubmissionFailure_pending n tx' e pending :
  SubmissionFailure env n tx' e pending ->
  pending = [] \/ pending = [Submitted (Legacy tx')].
Proof. intros []; auto. Qed.

Lemma sliceAt_0 (l : list N) b i : sliceAt l b i 0 = JS.slice l i (i + b).
Proof. unfold sliceAt. f_equal; lia. Qed.

Lemma sliceAt_S (l : list N) b i j : sliceAt l b (i + b) j = sliceAt l b i (S j).
Proof. unfold sliceAt. rewrite Nat2Z.inj_succ. f_equal; ring. Qed.

Lemma extendLoop_sequential lut (lookupAccounts : list N) (b : Z) (fuel : nat) :
  forall i w,
  exists delta m,
    trace (snd (extendLoop env fuel lut lookupAccounts b i w)) = trace w ++ delta
    /\ Sequential delta
    /\ submissionsOf delta
       = map (fun j => Legacy (prepared env (requests w + j)
                                 (extendTransaction env lut
                                    (sliceAt lookupAccounts b i j))))
             (seq 0 m).
Proof.
  induction fuel as [|fuel IH]; intros i w.
  - exists [], O. cbn. rewrite app_nil_r. repeat split. constructor.
  - cbn [extendLoop].
    destruct (i <? Z.of_nat (length lookupAccounts)).
    2:{ exists [], O. cbn. rewrite app_nil_r. repeat split. constructor. }
    rewrite bind_run.
    destruct (sendAndConfirm env _ w) as [r1 w1] eqn:Hstep.
    apply sendAndConfirm_extend in Hstep. cbv zeta in Hstep.
    destruct Hstep as [(t & -> & _ & _ & _ & ->)|(e & pending & -> & Hfail & ->)].
    + set (c := JS.slice lookupAccounts i (i + b)).
      set (tx' := prepared env (requests w) (extendTransaction env lut c)).
      destruct (IH (i + b)
                   (sent w (Ledger.set_table lut (extended c t) (ledger w))
                         [Submitted (Legacy tx'); Confirmed (Legacy tx')]))
        as (delta & m & Htr & Hseq & Hsub).
      eexists (_ :: _ :: delta), (S m). split; [|split].
      * rewrite Htr. cbn [sent trace]. rewrite <- app_assoc. reflexivity.
      * by constructor.
      * cbn [submissionsOf seq map]. rewrite Hsub. f_equal.
        -- rewrite sliceAt_0, Nat.add_0_r. reflexivity.
        -- rewrite <- seq_shift, map_map. apply map_ext. intros j.
           cbn [sent requests]. rewrite sliceAt_S, Nat.add_succ_r. reflexivity.
    + cbn [snd sent trace].
      destruct (SubmissionFailure_pending _ _ _ _ Hfail) as [->| ->].
      * exists [], O. repeat split. constructor.
      * eexists [_], 1%nat. split; [reflexivity|]. split; [constructor|].
        cbn [submissionsOf seq map]. rewrite sliceAt_0, Nat.add_0_r. reflexivity.
Qed.


(** When the loop ends, it has submitted the chunks of [batchLoop], one after
    the other. *)
Lemma extendLoop_submitAll lut (lookupAccounts : list N) (b : Z) (fuel : nat) :
  forall i chunks w,
    batchLoop fuel lookupAccounts b i = Some chunks ->
    extendLoop env fuel lut lookupAccounts b i w
    = submitAll env (map (extendTransaction env lut) chunks) w.
Proof.
  induction fuel as [|fuel IH]; intros i chunks w Hplan; [discriminate|].
  cbn [batchLoop extendLoop] in *.
  destruct (i <? Z.of_nat (length lookupAccounts)).
  - destruct (batchLoop fuel lookupAccounts b (i + b)) as [rest|] eqn:Hrest;
      [|discriminate].
    injection Hplan as <-. cbn [map submitAll]. rewrite !bind_run.
    destruct (sendAndConfirm env _ w) as [[?| |] w1]; auto.
  - injection Hplan as <-. reflexivity.
Qed.

Lemma extended_nil (t : Ledger.LookupTable) : extended [] t = t.
Proof. destruct t. unfold extended. cbn. by rewrite app_nil_r. Qed.

Lemma extended_app (c1 c2 : list N) (t : Ledger.LookupTable) :
  extended c2 (extended c1 t) = extended (c1 ++ c2) t.
Proof. unfold extended. cbn. by rewrite app_assoc. Qed.

Lemma alter_extended_nil lut (m : gmap N Ledger.LookupTable) :
  alter (extended []) lut m = m.
Proof. apply alter_id. intros t _. apply extended_nil. Qed.

Lemma alter_extended_insert lut c1 c2 t (m : gmap N Ledger.LookupTable) :
  m !! lut = Some t ->
  alter (extended c2) lut (<[lut := extended c1 t]> m)
  = alter (extended (c1 ++ c2)) lut m.
Proof.
  intros Ht. apply map_eq. intros a.
  destruct (decide (a = lut)) as [->|Hne].
  - rewrite !lookup_alter_eq, lookup_insert_eq, Ht. cbn. by rewrite extended_app.
  - rewrite !lookup_alter_ne, lookup_insert_ne by done. reflexivity.
Qed.

Lemma preparedFrom_cons n tx txs :
  preparedFrom env n (tx :: txs) = prepared env n tx :: preparedFrom env (S n) txs.
Proof.
  unfold preparedFrom. cbn. rewrite Nat.add_0_r. f_equal.
  apply imap_ext. intros j x _. cbn. f_equal. lia.
Qed.

(** Running the submissions of the chunks [cs] against the table [lut]: the
    first [k] go through and are the only ones applied; either all did, or
    submission [k] (counting from 0) failed and the later ones were never
    made. *)
Lemma submitAll_extend lut (cs : list (list N)) :
  forall w r w',
    submitAll env (map (extendTransaction env lut) cs) w = (r, w') ->
    exists (k : nat) (pending : list Event),
      trace w' = trace w
                 ++ confirmedPairs
                      (take k (preparedFrom env (requests w)
                                 (map (extendTransaction env lut) cs)))
                 ++ pending
      /\ Ledger.tables (ledger w')
         = alter (extended (concat (take k cs))) lut (Ledger.tables (ledger w))
      /\ Ledger.lamports (ledger w') = Ledger.lamports (ledger w)
      /\ keypairs w' = keypairs w /\ clock w' = clock w /\ console w' = console w
      /\ ((r = Ok tt /\ k = length cs /\ pending = []
           /\ requests w' = (requests w + k)%nat)
          \/ (exists e c,
                r = Throw e /\ cs !! k = Some c
                /\ requests w' = S (requests w + k)
                /\ SubmissionFailure env (requests w + k)
                     (prepared env (requests w + k) (extendTransaction env lut c))
                     e pending)).
Proof.
  induction cs as [|c cs IH]; intros w r w' Hrun.
  - cbn in Hrun. injection Hrun as <- <-. exists O, []. cbn.
    rewrite alter_extended_nil, app_nil_r, Nat.add_0_r. repeat split. left. done.
  - cbn [map submitAll] in Hrun. rewrite bind_run in Hrun.
    destruct (sendAndConfirm env _ w) as [r1 w1] eqn:Hstep.
    apply sendAndConfirm_extend in Hstep. cbv zeta in Hstep.
    destruct Hstep as [(t & -> & Ht & _ & _ & ->)|(e & pending & -> & Hfail & ->)].
    + apply IH in Hrun as (k & pending & Htr & Htab & Hlam & Hkp & Hclk & Hcon & Hres).
      exists (S k), pending. cbn [sent trace requests ledger keypairs clock console] in *.
      cbn [map]. rewrite preparedFrom_cons. cbn [take confirmedPairs flat_map concat].
      split; [|split; [|split; [|split; [|split; [|split]]]]]; try done.
      * rewrite Htr. rewrite <- !app_assoc. reflexivity.
      * rewrite Htab. cbn. by apply alter_extended_insert.
      * destruct Hres as [(-> & -> & -> & Hreq)|(e & c' & -> & Hc & Hreq & Hfail)].
        -- left. repeat split; try done. rewrite Hreq. lia.
        -- right. exists e, c'.
           replace (requests w + S k)%nat with (S (requests w) + k)%nat by lia.
           repeat split; try done.
    + injection Hrun as <- <-. exists O, pending.
      cbn [sent trace requests ledger keypairs clock console take confirmedPairs flat_map concat].
      rewrite alter_extended_nil, Nat.add_0_r.
      split; [|split; [|split; [|split; [|split; [|split]]]]]; try done.
      right. exists e, c. repeat split; try done.
Qed.

(** The only errors of the loop are those of the provider's submissions. *)
Lemma extendLoop_errors lut (lookupAccounts : list N) (b : Z) (fuel : nat) :
  forall i w e,
    fst (extendLoop env fuel lut lookupAccounts b i w) = Throw e ->
    exists n tx' pending, SubmissionFailure env n tx' e pending.
Proof.
  induction fuel as [|fuel IH]; intros i w e; [discriminate|].
  cbn [extendLoop].
  destruct (i <? Z.of_nat (length lookupAccounts)); [|discriminate].
  rewrite bind_run.
  destruct (sendAndConfirm env _ w) as [r1 w1] eqn:Hstep.
  apply sendAndConfirm_extend in Hstep. cbv zeta in Hstep.
  destruct Hstep as [(t & -> & _ & _ & _ & ->)|(e' & pending & -> & Hfail & ->)].
  - apply IH.
  - cbn. intros [= <-]. eauto.
Qed.

End ProviderFacts.

(** [ceil_div] is the ceiling of the quotient. *)
Lemma ceil_div_bounds (n d : Z) :
  0 <= n -> 1 <= d -> n <= d * ceil_div n d < n + d.
Proof.
  intros Hn Hd. unfold ceil_div.
  pose proof (Z.div_mod (n + d - 1) d ltac:(lia)) as Hdiv.
  pose proof (Z.mod_pos_bound (n + d - 1) d ltac:(lia)) as Hmod.
  lia.
Qed.

(** C1. For every address sequence, the empty one included, and every
    maximum chunk size of at least one, the batching loop ends and yields
    chunks that concatenate to the sequence in its order, each of at most
    the maximum size (and none empty), their number being the ceiling of
    length over size (the least number of chunks of that size that hold the
    sequence): zero chunks for the empty sequence.  More fuel gives the same
    chunks, and the extension loop of the script is the submission of these
    chunks, one after the other. *)
Theorem planBatches_partition (addresses : list PublicKey) (maxChunkSize : Z) :
  1 <= maxChunkSize ->
  exists chunks,
    planBatches addresses maxChunkSize = Some chunks
    /\ (forall fuel, (length addresses < fuel)%nat ->
          batchLoop fuel addresses maxChunkSize 0 = Some chunks)
    /\ concat chunks = addresses
    /\ Forall (fun c => 1 <= Z.of_nat (length c) <= maxChunkSize) chunks
    /\ Z.of_nat (length chunks)
       = ceil_div (Z.of_nat (length addresses)) maxChunkSize
    /\ Z.of_nat (length addresses)
       <= maxChunkSize * Z.of_nat (length chunks)
       < Z.of_nat (length addresses) + maxChunkSize
    /\ (addresses = [] -> chunks = [])
    /\ (forall env lut w,
          extendTable env lut addresses maxChunkSize w
          = submitAll env (map (extendTransaction env lut) chunks) w).
Proof.
  intros Hb. unfold planBatches.
  destruct (batchLoop_from (S (length addresses)) addresses maxChunkSize 0)
    as (chunks & Hrun & Hcat & Hall & Hlen); [lia|lia|lia|].
  rewrite Z.sub_0_r, Z.max_r in Hlen by lia.
  exists chunks. split; [exact Hrun|].
  split; [|split; [|split; [|split; [|split; [|split]]]]].
  - intros fuel Hfuel.
    apply (batchLoop_fuel_mono (S (length addresses))); [exact Hrun|lia].
  - exact Hcat.
  - exact Hall.
  - exact Hlen.
  - rewrite Hlen. apply ceil_div_bounds; lia.
  - intros ->. simpl in Hrun. congruence.
  - intros env lut w. by apply extendLoop_submitAll.
Qed.

(** C1 at a concrete input: seven addresses in chunks of three. *)
Lemma planBatches_partition_witness :
  1 <= 3 /\
  exists chunks,
    planBatches [1; 2; 3; 4; 5; 6; 7]%N 3 = Some chunks
    /\ concat chunks = [1; 2; 3; 4; 5; 6; 7]%N
    /\ Forall (fun c => 1 <= Z.of_nat (length c) <= 3) chunks
    /\ Z.of_nat (length chunks) = ceil_div 7 3.
Proof.
  split; [lia|].
  destruct (planBatches_partition [1; 2; 3; 4; 5; 6; 7]%N 3)
    as (chunks & H1 & _ & H3 & H4 & H5 & _); [lia|].
  exists chunks. auto.
Defined.

(** C3. In every run of the extension loop, whatever the addresses, the
    step, the table and the answers of the network, the events that the loop
    adds to the trace are a run of submitted-then-confirmed pairs, followed
    by at most one unconfirmed submission (the one that failed): no
    transaction is submitted before the one before it is confirmed, and no
    two are ever in flight together.  The [j]-th transaction submitted
    carries the [j]-th slice of the addresses. *)
Theorem extendTable_sequential (env : Env) (lut : PublicKey)
    (lookupAccounts : list PublicKey) (maxChunkSize : Z) (w : World) :
  exists (delta : list Event) (m : nat),
    trace (snd (extendTable env lut lookupAccounts maxChunkSize w))
    = trace w ++ delta
    /\ Sequential delta
    /\ submissionsOf delta
       = map (fun j => Legacy (prepared env (requests w + j)
                                 (extendTransaction env lut
                                    (sliceAt lookupAccounts maxChunkSize 0 j))))
             (seq 0 m).
Proof. apply extendLoop_sequential. Qed.

(** ** The extension of the table, chunk by chunk *)

(** Fifty-two addresses in steps of fifteen. *)
Lemma planBatches_52 {A : Type} (l : list A) :
  length l = 52%nat ->
  planBatches l 15
  = Some [take 15 l; take 15 (drop 15 l); take 15 (drop 30 l); drop 45 l].
Proof.
  intros Hlen. unfold planBatches. rewrite Hlen.
  cbn [batchLoop]. rewrite Hlen.
  change (0 <? Z.of_nat 52) with true. cbn iota.
  change (0 + 15 <? Z.of_nat 52) with true. cbn iota.
  change (0 + 15 + 15 <? Z.of_nat 52) with true. cbn iota.
  change (0 + 15 + 15 + 15 <? Z.of_nat 52) with true. cbn iota.
  change (0 + 15 + 15 + 15 + 15 <? Z.of_nat 52) with false. cbn iota.
  rewrite !slice_in_range by lia.
  change (Z.to_nat 15) with 15%nat. change (Z.to_nat 0) with 0%nat.
  change (Z.to_nat (0 + 15)) with 15%nat.
  change (Z.to_nat (0 + 15 + 15)) with 30%nat.
  change (Z.to_nat (0 + 15 + 15 + 15)) with 45%nat.
  rewrite drop_0. repeat f_equal.
  apply take_ge. rewrite length_drop. lia.
Qed.

(** The addresses of the first [k] chunks are the first [k] times
    [maxChunkSize] addresses. *)
Lemma batchLoop_take {A : Type} (fuel : nat) (l : list A) (b : Z) :
  1 <= b ->
  forall i chunks k,
    0 <= i ->
    batchLoop fuel l b i = Some chunks ->
    concat (take k chunks) = take (k * Z.to_nat b) (drop (Z.to_nat i) l).
Proof.
  intros Hb. induction fuel as [|fuel IH]; intros i chunks k Hi Hplan; [discriminate|].
  cbn [batchLoop] in Hplan.
  destruct (Z.ltb_spec i (Z.of_nat (length l))) as [Hlt|Hge].
  - destruct (batchLoop fuel l b (i + b)) as [rest|] eqn:Hrest; [|discriminate].
    injection Hplan as <-. destruct k as [|k]; [reflexivity|].
    cbn [take concat]. rewrite (IH (i + b) rest k) by (auto; lia).
    rewrite slice_in_range by lia.
    replace (Z.to_nat (i + b)) with (Z.to_nat i + Z.to_nat b)%nat by lia.
    rewrite <- drop_drop, take_take_drop. f_equal.
  - injection Hplan as <-. rewrite take_nil, drop_ge by lia. by rewrite take_nil.
Qed.

(** C2. For the list of 52 lookup accounts of the script (the system
    program, the payer, the 50 recipients) and a step of 15, the batching
    yields four chunks of 15, 15, 15 and 7 addresses that concatenate to the
    list; a run of the extension loop in which no submission fails adds to
    the trace exactly four submissions, one per chunk in order, each followed
    by its confirmation before the next is made, and leaves the 52 addresses
    appended to the table. *)
Theorem extendTable_52_addresses (env : Env) (lut : PublicKey)
    (recipients : list PublicKey) (w : World) :
  let lookupAccounts :=
    [SystemProgram.programId; wallet_publicKey env] ++ recipients in
  length recipients = 50%nat ->
  fst (extendTable env lut lookupAccounts batch w) = Ok tt ->
  exists c1 c2 c3 c4,
    planBatches lookupAccounts batch = Some [c1; c2; c3; c4]
    /\ map length [c1; c2; c3; c4] = [15; 15; 15; 7]%nat
    /\ c1 ++ c2 ++ c3 ++ c4 = lookupAccounts
    /\ trace (snd (extendTable env lut lookupAccounts batch w))
       = trace w
         ++ confirmedPairs
              (preparedFrom env (requests w)
                 (map (extendTransaction env lut) [c1; c2; c3; c4]))
    /\ Ledger.tables (ledger (snd (extendTable env lut lookupAccounts batch w)))
       = alter (extended lookupAccounts) lut (Ledger.tables (ledger w)).
Proof.
  intros lookupAccounts Hlen Hok.
  assert (Hlen' : length lookupAccounts = 52%nat) by (cbn; lia).
  pose proof (planBatches_52 lookupAccounts Hlen') as Hplan.
  eexists _, _, _, _. split; [exact Hplan|].
  assert (Hcat : take 15 lookupAccounts ++ take 15 (drop 15 lookupAccounts)
                 ++ take 15 (drop 30 lookupAccounts) ++ drop 45 lookupAccounts
                 = lookupAccounts).
  { rewrite <- (take_drop 15 lookupAccounts) at 5. f_equal.
    rewrite <- (take_drop 15 (drop 15 lookupAccounts)) at 2. f_equal.
    rewrite drop_drop.
    rewrite <- (take_drop 15 (drop (15 + 15) lookupAccounts)) at 1. f_equal.
    rewrite drop_drop. reflexivity. }
  split; [|split; [exact Hcat|]].
  { cbn [map]. rewrite !length_take, !length_drop, Hlen'. reflexivity. }
  unfold extendTable in *.
  destruct (extendLoop env _ lut lookupAccounts batch 0 w) as [r w'] eqn:Hrun.
  cbn [fst snd] in *. subst r.
  rewrite (extendLoop_submitAll env lut lookupAccounts batch _ 0 _ w Hplan) in Hrun.
  apply submitAll_extend in Hrun
    as (k & pending & Htr & Htab & _ & _ & _ & _ & Hres).
  destruct Hres as [(_ & -> & -> & _)|(e & c & [=] & _)].
  cbn [length] in Htr, Htab.
  rewrite take_ge in Htr
    by (unfold preparedFrom; rewrite length_imap; cbn; lia).
  rewrite app_nil_r in Htr. split; [exact Htr|].
  rewrite Htab. cbn [take concat]. rewrite app_nil_r, Hcat. reflexivity.
Qed.

(** C2 on the local network, from the world in which the table has just
    been created. *)
Lemma extendTable_52_addresses_witness :
  length localnet_recipients = 50%nat
  /\ fst (extendTable localnet 900%N
            ([SystemProgram.programId; wallet_publicKey localnet]
               ++ localnet_recipients)
            batch table_created) = Ok tt
  /\ exists c1 c2 c3 c4,
       planBatches ([SystemProgram.programId; wallet_publicKey localnet]
                      ++ localnet_recipients) batch
       = Some [c1; c2; c3; c4]
       /\ map length [c1; c2; c3; c4] = [15; 15; 15; 7]%nat
       /\ trace (snd (extendTable localnet 900%N
                        ([SystemProgram.programId; wallet_publicKey localnet]
                           ++ localnet_recipients)
                        batch table_created))
          = trace table_created
            ++ confirmedPairs
                 (preparedFrom localnet (requests table_created)
                    (map (extendTransaction localnet 900%N) [c1; c2; c3; c4])).
Proof.
  split; [reflexivity|]. split; [vm_compute; reflexivity|].
  destruct (extendTable_52_addresses localnet 900%N localnet_recipients
                                     table_created)
    as (c1 & c2 & c3 & c4 & H1 & H2 & _ & H4 & _);
    [reflexivity|vm_compute; reflexivity|].
  exists c1, c2, c3, c4. auto.
Defined.




(** C4 as stated fails: with a step of zero or of minus one, the loop over
    the empty list of addresses returns normally, with no chunk and no
    error. *)
Lemma planBatches_nonpositive_counterexample :
  planBatches (@nil PublicKey) 0 = Some []
  /\ planBatches (@nil PublicKey) (-1) = Some []
  /\ fst (extendTable localnet 900%N [] 0 table_created) = Ok tt
  /\ fst (extendTable localnet 900%N [] (-1) table_created) = Ok tt.
Proof. repeat split; vm_compute; reflexivity. Qed.

(** C4, as the code has it.  The loop does not check its step.  For a step
    of zero or less, the batching of the empty list is the empty list of
    chunks; over a list that is not empty the index never reaches the length
    and the batching has no result, however many iterations are allowed; and
    the only errors the extension loop ever throws, for any step, are the
    errors of the provider for a submission. *)
Theorem planBatches_nonpositive (addresses : list PublicKey) (maxChunkSize : Z) :
  maxChunkSize <= 0 ->
  (addresses = [] -> planBatches addresses maxChunkSize = Some [])
  /\ (addresses <> [] ->
      forall fuel, batchLoop fuel addresses maxChunkSize 0 = None)
  /\ (forall env lut fuel i w e,
        fst (extendLoop env fuel lut addresses maxChunkSize i w) = Throw e ->
        exists n tx' pending, SubmissionFailure env n tx' e pending).
Proof.
  intros Hb. split; [|split].
  - intros ->. reflexivity.
  - intros Hne fuel. apply batchLoop_stuck; auto; lia.
  - intros env lut fuel i w e. apply extendLoop_errors.
Qed.

(** C4 at a concrete input: one address, step zero. *)
Lemma planBatches_nonpositive_witness :
  0 <= 0
  /\ forall fuel, batchLoop fuel [5%N] 0 0 = None.
Proof.
  split; [lia|]. intros fuel.
  apply (planBatches_nonpositive [5%N] 0); [lia|discriminate].
Defined.

(** ** Waiting for the table *)

Lemma awaitActivation_run (env : Env) (lut : PublicKey) (delay : Z) (w : World) :
  awaitActivation env lut delay w =
    let fetched :=
      clock w + (timer_delay delay + Z.of_N (timerLateness env (requests w))) in
    let w' := {| ledger := ledger w; requests := S (requests w);
                 keypairs := keypairs w; clock := fetched;
                 trace := trace w ++ [Fetched lut fetched];
                 console := console w |} in
    match fault env (requests w) with
    | Some msg => (Throw (RpcError msg), w')
    | None =>
        match Ledger.tables (ledger w) !! lut with
        | Some t => (Ok {| key := lut; state_addresses := Ledger.addresses t |}, w')
        | None => (Throw (ScriptError "Lookup table is uninitialized"), w')
        end
    end.
Proof.
  cbv beta iota zeta delta
    [awaitActivation sleep getAddressLookupTable advance_clock mbind M_mbind
     mret M_mret next_request emit refused get_world throw].
  cbn [ledger requests keypairs clock trace console].
  destruct (fault env (requests w)) as [msg|]; [reflexivity|].
  destruct (Ledger.tables (ledger w) !! lut) as [t|]; reflexivity.
Qed.

Lemma timer_delay_ge (delay : Z) : delay <= TIMEOUT_MAX -> delay <= timer_delay delay.
Proof.
  intros H. unfold timer_delay.
  destruct (Z.leb_spec 1 delay), (Z.leb_spec delay TIMEOUT_MAX); cbn; lia.
Qed.

(** C6, as the code has it.  For a delay within the range of the timer
    ([TIMEOUT_MAX], 2^31 - 1 milliseconds; the script waits 2000), the
    procedure blocks for at least the delay, then issues one fetch of the
    table, and changes nothing on the ledger.  It throws the error of the
    script ("Lookup table is uninitialized") if and only if the fetch comes
    back with no table, and it returns a table if and only if the fetch comes
    back with that table: the address asked for and the addresses the ledger
    holds under it, unchanged. *)
Theorem awaitActivation_spec (env : Env) (lut : PublicKey) (delay : Z)
    (w : World) :
  delay <= TIMEOUT_MAX ->
  let r := fst (awaitActivation env lut delay w) in
  let w' := snd (awaitActivation env lut delay w) in
  clock w + delay <= clock w'
  /\ trace w' = trace w ++ [Fetched lut (clock w')]
  /\ ledger w' = ledger w
  /\ (r = Throw (ScriptError "Lookup table is uninitialized")
      <-> fault env (requests w) = None
          /\ Ledger.tables (ledger w) !! lut = None)
  /\ (forall table,
        r = Ok table
        <-> fault env (requests w) = None
            /\ exists t, Ledger.tables (ledger w) !! lut = Some t
                         /\ table = {| key := lut;
                                       state_addresses := Ledger.addresses t |}).
Proof.
  intros Hdelay. cbv zeta. rewrite awaitActivation_run. cbv zeta.
  pose proof (timer_delay_ge delay Hdelay) as Hd.
  assert (Hl : 0 <= Z.of_N (timerLateness env (requests w))) by lia.
  destruct (fault env (requests w)) as [msg|];
    [|destruct (Ledger.tables (ledger w) !! lut) as [t|]];
    cbn [fst snd clock trace ledger];
    (split; [lia|]); (split; [reflexivity|]); (split; [reflexivity|]); split.
  - split; [discriminate|]. intros [[=] _].
  - intros table. split; [discriminate|]. intros [[=] _].
  - split; [discriminate|]. intros [_ [=]].
  - intros table. split.
    + intros [= <-]. split; [reflexivity|]. by exists t.
    + intros [_ (t' & [= <-] & ->)]. reflexivity.
  - split; [done|]. done.
  - intros table. split; [discriminate|]. intros [_ (t' & [=] & _)].
Qed.

(** C6 on the local network: the table created at address 900 is fetched
    after the 2000 ms of the script. *)
Lemma awaitActivation_spec_witness :
  2000 <= TIMEOUT_MAX
  /\ clock table_created + 2000
     <= clock (snd (awaitActivation localnet 900%N 2000 table_created))
  /\ fst (awaitActivation localnet 900%N 2000 table_created)
     = Ok {| key := 900%N; state_addresses := [] |}.
Proof.
  split; [unfold TIMEOUT_MAX; lia|].
  destruct (awaitActivation_spec localnet 900%N 2000 table_created)
    as (H1 & _ & _ & _ & H5); [unfold TIMEOUT_MAX; lia|].
  split; [exact H1|]. apply H5. split; [reflexivity|].
  exists {| Ledger.authority := 7%N; Ledger.addresses := [] |}.
  split; [vm_compute; reflexivity|reflexivity].
Defined.

(** C6 as stated fails for a delay beyond the range of the timer: asked to
    wait 2^31 ms, the timer fires after 1 ms, and the table is fetched
    then. *)
Lemma awaitActivation_long_delay :
  let w' := snd (awaitActivation localnet 900%N (2 ^ 31) table_created) in
  clock w' = clock table_created + 1
  /\ drop (length (trace table_created)) (trace w')
     = [Fetched 900%N (clock table_created + 1)]
  /\ ~ (clock table_created + 2 ^ 31 <= clock w').
Proof.
  cbv zeta. split; [vm_compute; reflexivity|]. split; [vm_compute; reflexivity|].
  vm_compute. intros H. apply H. reflexivity.
Qed.

(** ** The fifty transfers, with and without the table *)

(** ** The fifty transfers *)

Lemma fold_left_snoc {A B : Type} (f : B -> A) (l : list B) (acc : list A) :
  fold_left (fun acc i => acc ++ [f i]) l acc = acc ++ map f l.
Proof.
  revert acc. induction l as [|x l IH]; intros acc; cbn.
  - by rewrite app_nil_r.
  - rewrite IH, <- app_assoc. reflexivity.
Qed.

Lemma map_lookup_total_seq (l : list N) :
  map (fun i => l !!! i) (seq 0 (length l)) = l.
Proof.
  apply list_eq. intros i. rewrite list_lookup_fmap.
  destruct (decide (i < length l)%nat) as [Hlt|Hge].
  - rewrite lookup_seq_lt by done. cbn.
    destruct (lookup_lt_is_Some_2 l i Hlt) as [x Hx].
    rewrite Hx. f_equal. by apply list_lookup_total_correct.
  - rewrite lookup_seq_ge by lia. cbn. symmetry. apply lookup_ge_None. lia.
Qed.

Lemma transferInstructions_seq (env : Env) (recipients : list PublicKey) :
  transferInstructions env recipients
  = map (fun i => transferTo env (recipients !!! i)) (seq 0 50).
Proof. unfold transferInstructions. by rewrite fold_left_snoc. Qed.

Lemma transferInstructions_map (env : Env) (recipients : list PublicKey) :
  length recipients = 50%nat ->
  transferInstructions env recipients = map (transferTo env) recipients.
Proof.
  intros Hlen. rewrite transferInstructions_seq.
  transitivity (map (transferTo env)
                    (map (fun i => recipients !!! i) (seq 0 (length recipients)))).
  - rewrite Hlen, map_map. reflexivity.
  - by rewrite map_lookup_total_seq.
Qed.

Lemma totalLamportsMoved_transfers env recipients :
  totalLamportsMoved (transferInstructions env recipients) = 200 * LAMPORTS_PER_SOL.
Proof. rewrite transferInstructions_seq. vm_compute. reflexivity. Qed.

Lemma length_remove_dups_same (l k : list N) :
  NoDup k -> (forall x, x ∈ l <-> x ∈ k) -> length (remove_dups l) = length k.
Proof.
  intros Hk Hlk. apply Permutation_length, NoDup_Permutation.
  - apply NoDup_remove_dups.
  - exact Hk.
  - intros x. rewrite elem_of_remove_dups. apply Hlk.
Qed.

Lemma list_sum_map_const {A : Type} (f : A -> nat) (c : nat) (l : list A) :
  (forall x, f x = c) -> list_sum (map f l) = (c * length l)%nat.
Proof.
  intros Hf. unfold list_sum. induction l as [|x l IH]; cbn; [lia|].
  rewrite Hf, IH. lia.
Qed.

Section Legacy.
Variable env : Env.
#[local] Abbreviation pk := (wallet_publicKey env).

Lemma legacyInstructionLength_transfer r :
  legacyInstructionLength (transferTo env r) = 17%nat.
Proof. vm_compute. reflexivity. Qed.

Lemma legacyAccountKeys_transfers (rs : list PublicKey) :
  rs <> [] ->
  NoDup (SystemProgram.programId :: pk :: rs) ->
  length (legacyAccountKeys pk (map (transferTo env) rs)) = S (S (length rs)).
Proof.
  intros Hne Hnd. unfold legacyAccountKeys.
  rewrite (length_remove_dups_same _ (SystemProgram.programId :: pk :: rs) Hnd);
    [reflexivity|].
  intros x. rewrite !elem_of_cons, elem_of_app, !list_elem_of_In, in_flat_map, in_map_iff.
  split.
  - intros [->|[(ix & Hix & Hx)|(ix & <- & Hix)]].
    + auto.
    + apply in_map_iff in Hix as (r & <- & Hr). cbn in Hx.
      destruct Hx as [<-|[<-|[]]]; [auto|].
      auto.
    + apply in_map_iff in Hix as (r & <- & Hr). auto.
  - intros [->|[->|Hx]].
    + right. right. destruct rs as [|r rs']; [done|].
      exists (transferTo env r). split; [reflexivity|left; reflexivity].
    + auto.
    + right. left. exists (transferTo env x). split.
      * by apply in_map.
      * cbn. auto.
Qed.

Lemma legacySignerKeys_transfers (rs : list PublicKey) :
  length (legacySignerKeys pk (map (transferTo env) rs)) = 1%nat.
Proof.
  unfold legacySignerKeys.
  rewrite (length_remove_dups_same _ [pk]); [reflexivity|apply NoDup_singleton|].
  intros x. rewrite elem_of_cons, list_elem_of_singleton, list_elem_of_In, in_flat_map.
  split; [|auto].
  intros [->|(ix & Hix & Hx)]; [reflexivity|].
  apply in_map_iff in Hix as (r & <- & Hr). cbn in Hx.
  destruct Hx as [<-|[]]. reflexivity.
Qed.

Lemma legacyWireLength_transfers (rs : list PublicKey) :
  length rs = 50%nat ->
  NoDup (SystemProgram.programId :: pk :: rs) ->
  legacyWireLength pk (map (transferTo env) rs) = 2616%nat.
Proof.
  intros Hlen Hnd. unfold legacyWireLength, legacyMessageLength.
  rewrite legacySignerKeys_transfers, legacyAccountKeys_transfers; auto.
  2:{ intros ->. discriminate. }
  rewrite map_map, (list_sum_map_const _ 17) by apply legacyInstructionLength_transfer.
  rewrite !length_map, Hlen. vm_compute. reflexivity.
Qed.
End Legacy.

Section V0.
Variable env : Env.
#[local] Abbreviation pk := (wallet_publicKey env).
#[local] Abbreviation sys := SystemProgram.programId.
#[local] Abbreviation metaPayer :=
  {| km_isSigner := true; km_isWritable := true; km_isInvoked := false |}.
#[local] Abbreviation metaProgram :=
  {| km_isSigner := false; km_isWritable := false; km_isInvoked := true |}.
#[local] Abbreviation metaRecipient :=
  {| km_isSigner := false; km_isWritable := true; km_isInvoked := false |}.
#[local] Abbreviation recipientEntries :=
  (map (fun r : N => (r, metaRecipient))).

Lemma updateKeyMeta_notin (k : N) f (m : KeyMetaMap) :
  k ∉ map fst m ->
  updateKeyMeta k f m
  = m ++ [(k, f {| km_isSigner := false; km_isWritable := false;
                   km_isInvoked := false |})].
Proof.
  induction m as [|[a meta] m IH]; intros Hk; [reflexivity|].
  cbn in *. apply not_elem_of_cons in Hk as [Hne Hk].
  destruct (N.eqb_spec a k) as [->|_]; [done|]. by rewrite IH.
Qed.

Lemma compile_transfer (done : list N) (r : N) :
  sys <> pk -> r <> pk -> r <> sys -> r ∉ done ->
  fold_left (fun m accountMeta =>
               updateKeyMeta (pubkey accountMeta) (markAccount accountMeta) m)
            (keys (transferTo env r))
            (updateKeyMeta (programId (transferTo env r)) markInvoked
               ((pk, metaPayer) :: (sys, metaProgram) :: recipientEntries done))
  = (pk, metaPayer) :: (sys, metaProgram) :: recipientEntries (done ++ [r]).
Proof.
  intros Hsp Hrp Hrs Hrd.
  cbn [transferTo SystemProgram.transfer keys programId fold_left pubkey].
  cbn [updateKeyMeta].
  destruct (N.eqb_spec pk sys) as [Heq|_]; [congruence|].
  rewrite (N.eqb_refl sys). cbn [updateKeyMeta].
  rewrite (N.eqb_refl pk).
  rewrite updateKeyMeta_notin.
  - cbn. rewrite map_app. reflexivity.
  - cbn [map fst]. rewrite !not_elem_of_cons, map_map. cbn. rewrite map_id. auto.
Qed.

Lemma compile_transfers (rs2 : list N) :
  forall done,
    NoDup (sys :: pk :: done ++ rs2) ->
    fold_left
      (fun m ix =>
         fold_left (fun m accountMeta =>
                      updateKeyMeta (pubkey accountMeta) (markAccount accountMeta) m)
                   (keys ix)
                   (updateKeyMeta (programId ix) markInvoked m))
      (map (transferTo env) rs2)
      ((pk, metaPayer) :: (sys, metaProgram) :: recipientEntries done)
    = (pk, metaPayer) :: (sys, metaProgram) :: recipientEntries (done ++ rs2).
Proof.
  induction rs2 as [|r rs2 IH]; intros done Hnd.
  - by rewrite app_nil_r.
  - cbn [map fold_left].
    assert (Hnd' := Hnd).
    apply NoDup_cons in Hnd' as [Hs Hnd']. apply NoDup_cons in Hnd' as [Hp Hnd'].
    apply NoDup_app in Hnd' as (_ & Hdis & Hr).
    apply NoDup_cons in Hr as [Hr _].
    apply not_elem_of_cons in Hs as [Hsp Hs].
    apply not_elem_of_app in Hs as [_ Hs]. apply not_elem_of_cons in Hs as [Hsr _].
    apply not_elem_of_app in Hp as [_ Hp]. apply not_elem_of_cons in Hp as [Hpr _].
    rewrite compile_transfer; [|done|congruence|congruence|].
    + rewrite IH by (by rewrite <- app_assoc). by rewrite <- app_assoc.
    + intros Hd. apply (Hdis r Hd). left.
Qed.

Lemma CompiledKeys_compile_transfers (rs : list N) :
  rs <> [] ->
  NoDup (sys :: pk :: rs) ->
  CompiledKeys_compile (map (transferTo env) rs) pk
  = (pk, metaPayer) :: (sys, metaProgram) :: recipientEntries rs.
Proof.
  intros Hne Hnd. destruct rs as [|r rs]; [done|].
  unfold CompiledKeys_compile. cbn [map fold_left updateKeyMeta].
  assert (Hnd' := Hnd).
  apply NoDup_cons in Hnd' as [Hs Hnd']. apply NoDup_cons in Hnd' as [Hp _].
  apply not_elem_of_cons in Hs as [Hsp Hs]. apply not_elem_of_cons in Hs as [Hsr _].
  apply not_elem_of_cons in Hp as [Hpr _].
  cbn [transferTo SystemProgram.transfer keys programId fold_left pubkey updateKeyMeta].
  repeat (rewrite ?N.eqb_refl; cbn [updateKeyMeta];
          try match goal with
              | |- context [N.eqb ?a ?b] =>
                  destruct (N.eqb_spec a b) as [?|_]; [congruence|]
              end).
  cbn [updateKeyMeta markAccount markInvoked markPayer km_isSigner km_isWritable
       km_isInvoked isSigner isWritable orb].
  apply (compile_transfers rs [r]). exact Hnd.
Qed.


Lemma findIndex_elem (l : list N) (k : N) :
  k ∈ l -> exists i, JS.findIndex l k = Some i /\ (i < length l)%nat.
Proof.
  induction l as [|a l IH]; intros Hk; [by apply elem_of_nil in Hk|].
  cbn. destruct (N.eqb_spec a k) as [->|Hne].
  - exists O. split; [reflexivity|lia].
  - apply elem_of_cons in Hk as [->|Hk]; [done|].
    destruct (IH Hk) as (i & -> & Hi). exists (S i). split; [reflexivity|lia].
Qed.

Lemma findIndex_lookup (l : list N) (k : N) (i : nat) :
  JS.findIndex l k = Some i -> l !! i = Some k.
Proof.
  revert i. induction l as [|a l IH]; intros i; [discriminate|].
  cbn. destruct (N.eqb_spec a k) as [->|Hne].
  - intros [= <-]. reflexivity.
  - destruct (JS.findIndex l k) as [j|]; [|discriminate].
    intros [= <-]. cbn. by apply IH.
Qed.

(** The keys of the recipients all leave the map for the table. *)
Lemma drain_recipients (entries : list N) (keyMetaFilter : CompiledKeyMeta -> bool)
    (rs : list N) :
  keyMetaFilter metaRecipient = true ->
  (length entries <= 256)%nat ->
  Forall (fun r => r ∈ entries) rs ->
  exists indexes,
    drainKeysFoundInLookupTable entries keyMetaFilter (recipientEntries rs)
    = Ok (indexes, rs, [])
    /\ length indexes = length rs
    /\ Forall2 (fun i r => entries !! i = Some r) indexes rs.
Proof.
  intros Hf Hlen. induction rs as [|r rs IH]; intros Hall.
  - exists []. repeat split. constructor.
  - apply Forall_cons in Hall as [Hr Hall].
    destruct (IH Hall) as (indexes & Hdrain & Hlen' & Hlook).
    destruct (findIndex_elem entries r Hr) as (i & Hi & Hlt).
    exists (i :: indexes). cbn [map drainKeysFoundInLookupTable].
    rewrite Hf, Hi. unfold sdk_assert.
    destruct (Nat.ltb_spec i 256) as [_|?]; [|lia].
    cbn. rewrite Hdrain. cbn. repeat split; [by rewrite Hlen'|].
    constructor; [by apply findIndex_lookup|exact Hlook].
Qed.

Lemma extractTableLookup_transfers (lookupTable : AddressLookupTableAccount)
    (rs : list N) :
  rs <> [] ->
  (length (state_addresses lookupTable) <= 256)%nat ->
  Forall (fun r => r ∈ state_addresses lookupTable) rs ->
  exists indexes,
    extractTableLookup lookupTable
      ((pk, metaPayer) :: (sys, metaProgram) :: recipientEntries rs)
    = Ok (Some ({| accountKey := key lookupTable;
                   writableIndexes := indexes;
                   readonlyIndexes := [] |}, (rs, [])),
          [(pk, metaPayer); (sys, metaProgram)])
    /\ length indexes = length rs
    /\ Forall2 (fun i r => state_addresses lookupTable !! i = Some r) indexes rs.
Proof.
  intros Hne Hlen Hall.
  destruct (drain_recipients (state_addresses lookupTable)
              (fun meta => negb (km_isSigner meta) && negb (km_isInvoked meta)
                           && km_isWritable meta) rs)
    as (indexes & Hdrain & Hlen' & Hlook); auto.
  exists indexes. split; [|auto].
  unfold extractTableLookup. cbn [drainKeysFoundInLookupTable].
  cbn [km_isSigner km_isInvoked km_isWritable negb andb].
  rewrite Hdrain. cbn.
  destruct indexes as [|i indexes]; [|reflexivity].
  destruct rs; [done|discriminate].
Qed.


Lemma getMessageComponents_transfers :
  getMessageComponents pk [(pk, metaPayer); (sys, metaProgram)]
  = Ok ({| numRequiredSignatures := 1; numReadonlySignedAccounts := 0;
           numReadonlyUnsignedAccounts := 1 |}, [pk; sys]).
Proof.
  unfold getMessageComponents, keysWhere, sdk_assert. cbn.
  rewrite N.eqb_refl. reflexivity.
Qed.

Lemma findKeyIndex_from_lookup (accountKeys : list N) (k : N) :
  forall o i,
    findKeyIndex_from o accountKeys k = Some i ->
    (o <= i)%nat /\ accountKeys !! (i - o)%nat = Some k.
Proof.
  induction accountKeys as [|a l IH]; intros o i; [discriminate|].
  cbn. destruct (findKeyIndex_from (S o) l k) as [j|] eqn:Hj.
  - intros [= <-]. destruct (IH _ _ Hj) as [Hle Hl]. split; [lia|].
    replace (j - o)%nat with (S (j - S o)) by lia. exact Hl.
  - destruct (N.eqb_spec a k) as [->|_]; [|discriminate].
    intros [= <-]. split; [lia|]. by rewrite Nat.sub_diag.
Qed.

Lemma findKeyIndex_from_elem (accountKeys : list N) (k : N) :
  k ∈ accountKeys -> forall o, is_Some (findKeyIndex_from o accountKeys k).
Proof.
  induction accountKeys as [|a l IH]; intros Hk o; [by apply elem_of_nil in Hk|].
  cbn. destruct (findKeyIndex_from (S o) l k) as [j|] eqn:Hj; [by eexists|].
  apply elem_of_cons in Hk as [->|Hk].
  - rewrite N.eqb_refl. by eexists.
  - destruct (IH Hk (S o)) as [j Hj']. congruence.
Qed.

Lemma findKeyIndex_lookup (accountKeys : list N) (k : N) (i : nat) :
  findKeyIndex accountKeys k = Ok i -> accountKeys !! i = Some k.
Proof.
  unfold findKeyIndex.
  destruct (findKeyIndex_from 0 accountKeys k) as [j|] eqn:Hj; [|discriminate].
  intros [= <-]. apply findKeyIndex_from_lookup in Hj as [_ Hj].
  by rewrite Nat.sub_0_r in Hj.
Qed.

Lemma findKeyIndex_elem (accountKeys : list N) (k : N) :
  k ∈ accountKeys ->
  exists i, findKeyIndex accountKeys k = Ok i /\ accountKeys !! i = Some k.
Proof.
  intros Hk. destruct (findKeyIndex_from_elem accountKeys k Hk 0) as [i Hi].
  exists i. assert (H : findKeyIndex accountKeys k = Ok i).
  { unfold findKeyIndex. by rewrite Hi. }
  split; [exact H|]. by apply findKeyIndex_lookup.
Qed.

(** A transfer compiles to three positions: the program, the sender, the
    recipient. *)
Lemma compileInstructions_map_transfers (accountKeys : list N) (rs : list N) :
  pk ∈ accountKeys -> sys ∈ accountKeys ->
  Forall (fun r => r ∈ accountKeys) rs ->
  exists cis,
    compileInstructions_map accountKeys (map (transferTo env) rs) = Ok cis
    /\ Forall2 (fun ci r =>
                  exists p a b,
                    ci = {| programIdIndex := p; accountKeyIndexes := [a; b];
                            ci_data := Transfer (4 * LAMPORTS_PER_SOL) |}
                    /\ accountKeys !! p = Some sys
                    /\ accountKeys !! a = Some pk
                    /\ accountKeys !! b = Some r)
               cis rs.
Proof.
  intros Hpk Hsys. induction rs as [|r rs IH]; intros Hall.
  - exists []. split; [reflexivity|constructor].
  - apply Forall_cons in Hall as [Hr Hall].
    destruct (IH Hall) as (cis & Hcis & Hshape).
    destruct (findKeyIndex_elem accountKeys sys Hsys) as (p & Hp & Hp').
    destruct (findKeyIndex_elem accountKeys pk Hpk) as (a & Ha & Ha').
    destruct (findKeyIndex_elem accountKeys r Hr) as (b & Hb & Hb').
    eexists. cbn [map compileInstructions_map transferTo SystemProgram.transfer
                  programId keys data findKeyIndexes pubkey].
    rewrite Hp, Ha, Hb. cbn. rewrite Hcis. cbn. split; [reflexivity|].
    constructor; [|exact Hshape]. by exists p, a, b.
Qed.

End V0.

Lemma length_le_bytes (width : nat) (v : N) : length (le_bytes width v) = width.
Proof. revert v. induction width as [|w IH]; intros v; cbn; [reflexivity|]. by rewrite IH. Qed.

Lemma length_be_bytes (width : nat) (v : N) : length (be_bytes width v) = width.
Proof. unfold be_bytes. by rewrite length_rev, length_le_bytes. Qed.

Lemma length_toBuffer (k : N) : length (toBuffer k) = 32%nat.
Proof. apply length_be_bytes. Qed.

Lemma length_flat_map_const {A B : Type} (f : A -> list B) (c : nat) (l : list A) :
  Forall (fun x => length (f x) = c) l ->
  length (flat_map f l) = (c * length l)%nat.
Proof.
  induction 1 as [|x l Hx _ IH]; cbn; [lia|].
  rewrite length_app, Hx, IH. lia.
Qed.

Lemma length_MessageV0_bytes (msg : MessageV0) :
  length (MessageV0_bytes msg)
  = (4 + length (encodeLength (length (staticAccountKeys msg)))
     + 32 * length (staticAccountKeys msg)
     + 32
     + length (encodeLength (length (compiledInstructions msg)))
     + length (flat_map serializeInstruction (compiledInstructions msg))
     + length (encodeLength (length (addressTableLookups msg)))
     + length (flat_map serializeAddressTableLookup (addressTableLookups msg)))%nat.
Proof.
  unfold MessageV0_bytes. cbn [length app].
  rewrite !length_app, length_toBuffer.
  rewrite (length_flat_map_const toBuffer 32)
    by (apply Forall_forall; intros; apply length_toBuffer).
  lia.
Qed.


Section V0Size.
Variable env : Env.
#[local] Abbreviation pk := (wallet_publicKey env).
#[local] Abbreviation sys := SystemProgram.programId.

Lemma compileToV0Message_transfers (rs : list N) (blockhash : N)
    (lookupTable : AddressLookupTableAccount) :
  rs <> [] ->
  NoDup (sys :: pk :: rs) ->
  (length rs <= 254)%nat ->
  (length (state_addresses lookupTable) <= 256)%nat ->
  Forall (fun r => r ∈ state_addresses lookupTable) rs ->
  exists indexes cis,
    compileToV0Message {| payerKey := pk; msg_recentBlockhash := blockhash;
                          instructions := map (transferTo env) rs |}
                       [lookupTable]
    = Ok {| header := {| numRequiredSignatures := 1;
                         numReadonlySignedAccounts := 0;
                         numReadonlyUnsignedAccounts := 1 |};
            staticAccountKeys := [pk; sys];
            v0_recentBlockhash := blockhash;
            compiledInstructions := cis;
            addressTableLookups :=
              [{| accountKey := key lookupTable; writableIndexes := indexes;
                  readonlyIndexes := [] |}] |}
    /\ length indexes = length rs
    /\ Forall2 (fun i r => state_addresses lookupTable !! i = Some r) indexes rs
    /\ Forall2 (fun ci r =>
                  exists p a b,
                    ci = {| programIdIndex := p; accountKeyIndexes := [a; b];
                            ci_data := Transfer (4 * LAMPORTS_PER_SOL) |}
                    /\ ([pk; sys] ++ rs) !! p = Some sys
                    /\ ([pk; sys] ++ rs) !! a = Some pk
                    /\ ([pk; sys] ++ rs) !! b = Some r)
               cis rs.
Proof.
  intros Hne Hnd Hmax Hlen Hall.
  destruct (extractTableLookup_transfers env lookupTable rs Hne Hlen Hall)
    as (indexes & Hextract & Hilen & Hlook).
  destruct (compileInstructions_map_transfers env ([pk; sys] ++ rs) rs)
    as (cis & Hcis & Hshape).
  { set_solver. } { set_solver. }
  { apply Forall_forall. intros r Hr. set_solver. }
  exists indexes, cis. split; [|auto].
  unfold compileToV0Message.
  cbn [instructions payerKey msg_recentBlockhash].
  rewrite CompiledKeys_compile_transfers by assumption.
  cbn [extractTableLookups]. rewrite Hextract.
  cbn [mbind Outcome_mbind Outcome_bind].
  rewrite getMessageComponents_transfers.
  cbn [mbind Outcome_mbind Outcome_bind].
  unfold compileInstructions, sdk_assert. rewrite !app_nil_r.
  destruct (Nat.leb_spec (length ([pk; sys] ++ rs)) 256) as [_|Hbig];
    [|cbn in Hbig; lia].
  cbn [mbind Outcome_mbind Outcome_bind]. rewrite Hcis. reflexivity.
Qed.

Lemma length_serializeInstruction_transfer (p a b : nat) :
  length (serializeInstruction
            {| programIdIndex := p; accountKeyIndexes := [a; b];
               ci_data := Transfer (4 * LAMPORTS_PER_SOL) |}) = 17%nat.
Proof. vm_compute. reflexivity. Qed.

End V0Size.

(** C5.  Fifty transfers from the wallet to fifty distinct recipients (none
    of them the wallet or the system program).  In a legacy transaction
    they take 2616 bytes on the wire, more than the 1232 of a packet, and
    serializing it throws "Transaction too large".  Compiled against one
    lookup table holding the system program, the wallet and the fifty
    recipients, they give a signed version-0 transaction of 1102 bytes,
    strictly less than the ceiling. *)
Theorem fifty_transfers_need_the_table (env : Env) (recipients : list PublicKey)
    (blockhash : Blockhash) (lastValidBlockHeight : N) (lut : PublicKey) :
  length recipients = 50%nat ->
  NoDup (SystemProgram.programId :: wallet_publicKey env :: recipients) ->
  let instructions := transferInstructions env recipients in
  let lookupTable :=
    {| key := lut;
       state_addresses :=
         [SystemProgram.programId; wallet_publicKey env] ++ recipients |} in
  legacyWireLength (wallet_publicKey env) instructions = 2616%nat
  /\ PACKET_DATA_SIZE < 2616
  /\ Transaction_serialize_length
       (legacyTransaction env blockhash lastValidBlockHeight instructions)
     = Throw (SdkError "Transaction too large")
  /\ exists v0Transaction bytes,
       compileComposite env instructions [lookupTable] (wallet_publicKey env)
                        blockhash
       = Ok (v0Transaction, bytes)
       /\ length bytes = 1102%nat
       /\ Z.of_nat (length bytes) < PACKET_DATA_SIZE.
Proof.
  intros Hlen Hnd instructions lookupTable. subst instructions.
  rewrite transferInstructions_map by exact Hlen.
  pose proof (legacyWireLength_transfers env recipients Hlen Hnd) as Hlegacy.
  split; [exact Hlegacy|]. split; [reflexivity|]. split.
  { unfold Transaction_serialize_length.
    assert (Htx : forall ixs tx,
               feePayer (fold_left add ixs tx) = feePayer tx
               /\ recentBlockhash (fold_left add ixs tx) = recentBlockhash tx
               /\ tx_instructions (fold_left add ixs tx) = tx_instructions tx ++ ixs).
    { induction ixs as [|ix ixs IH]; intros tx; cbn [fold_left].
      - by rewrite app_nil_r.
      - destruct (IH (add tx ix)) as (-> & -> & ->). cbn. by rewrite <- app_assoc. }
    unfold legacyTransaction.
    destruct (Htx (map (transferTo env) recipients)
                  (Transaction_new (wallet_publicKey env) blockhash lastValidBlockHeight))
      as (-> & -> & ->).
    cbn [Transaction_new feePayer recentBlockhash tx_instructions app].
    rewrite Hlegacy. reflexivity. }
  destruct (compileToV0Message_transfers env recipients blockhash lookupTable)
    as (indexes & cis & Hcompile & Hilen & _ & Hshape).
  { intros ->. discriminate. } { exact Hnd. } { lia. }
  { subst lookupTable. cbn. lia. }
  { subst lookupTable. cbn [state_addresses]. apply Forall_forall. intros r Hr.
    set_solver. }
  set (msg := {| header := _ |}) in Hcompile.
  assert (Hmsg : length (MessageV0_bytes msg) = 1037%nat).
  { rewrite length_MessageV0_bytes. subst msg.
    cbn [staticAccountKeys compiledInstructions addressTableLookups length].
    rewrite (length_flat_map_const serializeInstruction 17).
    2:{ apply Forall_forall. intros ci Hci.
        apply list_elem_of_lookup in Hci as (i & Hi).
        destruct (Forall2_lookup_l _ _ _ _ _ Hshape Hi) as (r & _ & p & a & b & -> & _).
        apply length_serializeInstruction_transfer. }
    rewrite (Forall2_length _ _ _ Hshape), Hlen.
    cbn [flat_map]. rewrite app_nil_r. unfold serializeAddressTableLookup.
    cbn [accountKey writableIndexes readonlyIndexes].
    rewrite !length_app, length_toBuffer, !length_map, Hilen, Hlen.
    vm_compute. reflexivity. }
  unfold compileComposite. rewrite Hcompile.
  cbn [mbind Outcome_mbind Outcome_bind].
  unfold VersionedTransaction_sign, VersionedTransaction_serialize,
    VersionedTransaction_new, MessageV0_serialize, sdk_assert.
  cbn [message signatures]. rewrite Hmsg.
  change (Z.of_nat 1037 <=? PACKET_DATA_SIZE) with true.
  cbn [mbind Outcome_mbind Outcome_bind].
  subst msg. cbn [header numRequiredSignatures staticAccountKeys take JS.findIndex].
  rewrite N.eqb_refl. cbn [mbind Outcome_mbind Outcome_bind message signatures].
  rewrite Hmsg. change (Z.of_nat 1037 <=? PACKET_DATA_SIZE) with true.
  cbn [mbind Outcome_mbind Outcome_bind replicate].
  set (bytes := encodeLength _ ++ _).
  assert (Hbytes : length bytes = 1102%nat).
  { subst bytes. cbn [insert list_insert flat_map].
    rewrite !length_app, length_be_bytes, Hmsg. reflexivity. }
  rewrite Hbytes. change (1102 <=? 2048)%nat with true.
  cbn [mbind Outcome_mbind Outcome_bind].
  eexists _, bytes. split; [reflexivity|]. split; [exact Hbytes|].
  rewrite Hbytes. reflexivity.
Qed.

(** ** What the ledger reads back from a compiled message *)

Lemma Outcome_bind_Ok {A B : Type} (o : Outcome A) (f : A -> Outcome B) (b : B) :
  o ≫= f = Ok b -> exists a, o = Ok a /\ f a = Ok b.
Proof. destruct o as [a| |]; cbn; [eauto|discriminate..]. Qed.

(** The positions that leave the map point, in the table, at the keys
    drained. *)
Lemma drain_lookup (entries : list N) (keyMetaFilter : CompiledKeyMeta -> bool)
    (m : KeyMetaMap) :
  forall indexes drained rest,
    drainKeysFoundInLookupTable entries keyMetaFilter m = Ok (indexes, drained, rest) ->
    mapM (fun i => entries !! i) indexes = Some drained.
Proof.
  induction m as [|[address meta] m IH]; intros indexes drained rest.
  - cbn. intros [= <- <- <-]. reflexivity.
  - cbn [drainKeysFoundInLookupTable].
    destruct (if keyMetaFilter meta then JS.findIndex entries address else None)
      as [i|] eqn:Hfound.
    + intros H. apply Outcome_bind_Ok in H as ([] & _ & H).
      apply Outcome_bind_Ok in H as ([[ixs ds] rs] & Hrec & H).
      injection H as <- <- <-.
      destruct (keyMetaFilter meta); [|discriminate].
      apply findIndex_lookup in Hfound. cbn. rewrite Hfound. cbn.
      rewrite (IH _ _ _ Hrec). reflexivity.
    + intros H. apply Outcome_bind_Ok in H as ([[ixs ds] rs] & Hrec & H).
      injection H as <- <- <-. by apply (IH _ _ _ Hrec).
Qed.

Lemma mapM_app_Some {A B : Type} (f : A -> option B) (l1 l2 : list A) k1 k2 :
  mapM f l1 = Some k1 -> mapM f l2 = Some k2 -> mapM f (l1 ++ l2) = Some (k1 ++ k2).
Proof.
  rewrite !mapM_Some. apply Forall2_app.
Qed.

Lemma extract_load (s : Ledger.State) (lookupTables : list AddressLookupTableAccount) :
  tablesAgree s lookupTables ->
  forall m lookups writable readonly m',
    extractTableLookups lookupTables m = Ok (lookups, (writable, readonly), m') ->
    Ledger.loadAddresses s lookups = Some (writable, readonly).
Proof.
  induction 1 as [|t ts (T & HT & Haddr) _ IH]; intros m lookups writable readonly m'.
  - cbn. intros [= <- <- <- <-]. reflexivity.
  - cbn [extractTableLookups]. intros H.
    apply Outcome_bind_Ok in H as ([extractResult m1] & Hex & H).
    apply Outcome_bind_Ok in H as ([[lookups' [ws rs]] m2] & Hrec & H).
    specialize (IH _ _ _ _ _ Hrec).
    unfold extractTableLookup in Hex.
    apply Outcome_bind_Ok in Hex as ([[wi wk] ma] & Hw & Hex).
    apply Outcome_bind_Ok in Hex as ([[ri rk] mb] & Hr & Hex).
    apply drain_lookup in Hw. apply drain_lookup in Hr.
    destruct wi as [|i wi]; [destruct ri as [|j ri]|].
    + injection Hex as <- <-. injection H as <- <- <- <-. exact IH.
    + injection Hex as <- <-. injection H as <- <- <- <-.
      cbn [Ledger.loadAddresses accountKey writableIndexes readonlyIndexes].
      rewrite HT. cbn [mbind option_bind]. rewrite Haddr, Hw, Hr. cbn [mbind option_bind].
      rewrite IH. reflexivity.
    + injection Hex as <- <-. injection H as <- <- <- <-.
      cbn [Ledger.loadAddresses accountKey writableIndexes readonlyIndexes].
      rewrite HT. cbn [mbind option_bind]. rewrite Haddr, Hw, Hr. cbn [mbind option_bind].
      rewrite IH. reflexivity.
Qed.

Lemma map_pubkey_imap (f : nat -> N -> AccountMeta) (l : list N) :
  (forall i k, pubkey (f i k) = k) -> map pubkey (imap f l) = l.
Proof.
  revert f. induction l as [|k l IH]; intros f Hf; cbn; [reflexivity|].
  rewrite Hf, IH; [reflexivity|]. intros i k'. apply Hf.
Qed.

Lemma v0Accounts_pubkeys (msg : MessageV0) (loaded : list N * list N) :
  map pubkey (Ledger.v0Accounts msg loaded)
  = staticAccountKeys msg ++ fst loaded ++ snd loaded.
Proof.
  unfold Ledger.v0Accounts. rewrite !map_app, !map_map. cbn.
  rewrite !map_id. f_equal. by apply map_pubkey_imap.
Qed.

Lemma lookup_pubkey (accounts : list AccountMeta) (i : nat) (k : N) :
  map pubkey accounts !! i = Some k ->
  exists meta, accounts !! i = Some meta /\ pubkey meta = k.
Proof.
  rewrite list_lookup_fmap. destruct (accounts !! i) as [meta|]; cbn; [|discriminate].
  intros [= <-]. by exists meta.
Qed.

Lemma findKeyIndexes_resolve (accounts : list AccountMeta)
    (metas : list AccountMeta) :
  forall idxs,
    findKeyIndexes (map pubkey accounts) metas = Ok idxs ->
    exists ks, mapM (fun i => accounts !! i) idxs = Some ks
               /\ map pubkey ks = map pubkey metas.
Proof.
  induction metas as [|meta metas IH]; intros idxs.
  - cbn. intros [= <-]. by exists [].
  - cbn [findKeyIndexes]. intros H.
    apply Outcome_bind_Ok in H as (i & Hi & H).
    apply Outcome_bind_Ok in H as (is' & His & H). injection H as <-.
    destruct (IH _ His) as (ks & Hks & Hpk).
    apply findKeyIndex_lookup, lookup_pubkey in Hi as (m & Hm & Hmk).
    exists (m :: ks). cbn. rewrite Hm. cbn. rewrite Hks. cbn.
    split; [reflexivity|]. by rewrite Hmk, Hpk.
Qed.

Lemma v0Instruction_Some (accounts : list AccountMeta) p idxs d m ks :
  accounts !! p = Some m ->
  mapM (fun i => accounts !! i) idxs = Some ks ->
  Ledger.v0Instruction accounts
    {| programIdIndex := p; accountKeyIndexes := idxs; ci_data := d |}
  = Some {| keys := ks; programId := pubkey m; data := d |}.
Proof.
  intros Hm Hks. unfold Ledger.v0Instruction.
  cbn [programIdIndex accountKeyIndexes ci_data].
  rewrite Hm. cbn [mbind option_bind]. rewrite Hks. reflexivity.
Qed.

Lemma compileInstructions_resolve (accounts : list AccountMeta)
    (ixs : list TransactionInstruction) :
  forall cis,
    compileInstructions_map (map pubkey accounts) ixs = Ok cis ->
    exists ixs', mapM (Ledger.v0Instruction accounts) cis = Some ixs'
                 /\ Forall2 sameInstruction ixs' ixs.
Proof.
  induction ixs as [|ix ixs IH]; intros cis.
  - cbn. intros [= <-]. exists []. split; [reflexivity|constructor].
  - cbn [compileInstructions_map]. intros H.
    apply Outcome_bind_Ok in H as (p & Hp & H).
    apply Outcome_bind_Ok in H as (idxs & Hidxs & H).
    apply Outcome_bind_Ok in H as (cis' & Hcis & H). injection H as <-.
    destruct (IH _ Hcis) as (ixs' & Hixs' & Hsame).
    apply findKeyIndex_lookup, lookup_pubkey in Hp as (m & Hm & Hmk).
    destruct (findKeyIndexes_resolve _ _ _ Hidxs) as (ks & Hks & Hpk).
    eexists (_ :: ixs'). split.
    + cbn [mapM]. rewrite (v0Instruction_Some _ _ _ _ _ _ Hm Hks).
      cbn [mbind option_bind]. rewrite Hixs'. reflexivity.
    + constructor; [|exact Hsame]. by repeat split.
Qed.

(** A message compiled against tables that the ledger holds resolves, on the
    ledger, to the instructions it was compiled from. *)
Lemma compile_resolve (s : Ledger.State) (message : TransactionMessage)
    (lookupTables : list AddressLookupTableAccount) (msg : MessageV0)
    (ixs' : list TransactionInstruction) :
  tablesAgree s lookupTables ->
  compileToV0Message message lookupTables = Ok msg ->
  Ledger.v0Resolve s msg = Some ixs' ->
  Forall2 sameInstruction ixs' (instructions message).
Proof.
  intros Hagree Hcompile Hresolve. unfold compileToV0Message in Hcompile.
  apply Outcome_bind_Ok in Hcompile as ([[lookups [writable readonly]] m'] & Hex & H).
  apply Outcome_bind_Ok in H as ([h static] & Hcomp & H).
  apply Outcome_bind_Ok in H as (cis & Hcis & H). injection H as <-.
  unfold Ledger.v0Resolve in Hresolve.
  cbn [addressTableLookups compiledInstructions] in Hresolve.
  rewrite (extract_load s lookupTables Hagree _ _ _ _ _ Hex) in Hresolve.
  cbn [mbind option_bind] in Hresolve.
  unfold compileInstructions in Hcis.
  apply Outcome_bind_Ok in Hcis as ([] & _ & Hcis).
  set (msg := {| header := h |}) in *.
  assert (Hkeys : static ++ writable ++ readonly
                  = map pubkey (Ledger.v0Accounts msg (writable, readonly))).
  { by rewrite v0Accounts_pubkeys. }
  rewrite Hkeys in Hcis.
  destruct (compileInstructions_resolve _ _ _ Hcis) as (ixs'' & Hres & Hsame).
  rewrite Hres in Hresolve. by injection Hresolve as <-.
Qed.

(** ** What the transfers do to the balances *)

Lemma balance_set_balance (s : Ledger.State) (k x : N) (v : N) :
  Ledger.balance (Ledger.set_balance k v s) x
  = if decide (x = k) then v else Ledger.balance s x.
Proof.
  unfold Ledger.balance, Ledger.set_balance. cbn.
  destruct (decide (x = k)) as [->|Hne].
  - by rewrite lookup_insert_eq.
  - by rewrite lookup_insert_ne.
Qed.

Lemma transfer_effect f (ix' : TransactionInstruction) (s s' : Ledger.State)
    (payer r : N) (amount : Z) :
  sameInstruction ix' (SystemProgram.transfer payer r amount) ->
  Ledger.processInstruction f ix' s = Some s' ->
  r <> payer ->
  Ledger.balance s' r = (Ledger.balance s r + Z.to_N amount)%N
  /\ (forall x, x <> payer -> (Ledger.balance s x <= Ledger.balance s' x)%N)
  /\ Ledger.tables s' = Ledger.tables s.
Proof.
  intros (Hprog & Hdata & Hkeys) Hrun Hne.
  unfold Ledger.processInstruction in Hrun. rewrite Hprog, Hdata in Hrun.
  cbn [SystemProgram.transfer programId data keys map pubkey] in *.
  change (N.eqb SystemProgram.programId SystemProgram.programId) with true in Hrun.
  cbn iota in Hrun.
  destruct (keys ix') as [|from [|to [|? ?]]]; try discriminate.
  cbn in Hkeys. injection Hkeys as Hfrom Hto.
  destruct (_ && _) in Hrun; [|discriminate].
  cbn [mbind option_bind] in Hrun.
  unfold Ledger.debit in Hrun.
  destruct (N.leb_spec (Z.to_N amount) (Ledger.balance s (pubkey from)));
    [|discriminate].
  cbn [mbind option_bind] in Hrun. unfold Ledger.credit in Hrun.
  destruct (_ <? _)%N in Hrun; [|discriminate].
  injection Hrun as <-. rewrite Hfrom, Hto in *.
  split; [|split].
  - rewrite !balance_set_balance. rewrite decide_True by done.
    rewrite decide_False by done. reflexivity.
  - intros x Hx. rewrite !balance_set_balance.
    destruct (decide (x = r)) as [->|Hxr].
    + rewrite decide_False by done. lia.
    + rewrite decide_False by done. lia.
  - reflexivity.
Qed.

Lemma transfers_effect f (payer : N) (amount : Z) (rs : list N) :
  payer ∉ rs ->
  forall ixs' s s',
    Forall2 sameInstruction ixs'
            (map (fun r => SystemProgram.transfer payer r amount) rs) ->
    Ledger.processInstructions f ixs' s = Some s' ->
    (forall x, x <> payer -> (Ledger.balance s x <= Ledger.balance s' x)%N)
    /\ (forall r, r ∈ rs -> (Z.to_N amount <= Ledger.balance s' r)%N)
    /\ Ledger.tables s' = Ledger.tables s.
Proof.
  induction rs as [|r rs IH]; intros Hpayer ixs' s s' Hsame Hrun.
  - apply Forall2_nil_inv_r in Hsame as ->. injection Hrun as <-.
    split; [intros; lia|]. split; [|reflexivity]. intros r Hr. by apply elem_of_nil in Hr.
  - apply not_elem_of_cons in Hpayer as [Hne Hpayer].
    cbn [map] in Hsame. apply Forall2_cons_inv_r in Hsame as (ix' & ixs'' & Hix & Hsame & ->).
    cbn [Ledger.processInstructions] in Hrun.
    destruct (Ledger.processInstruction f ix' s) as [s1|] eqn:Hstep; [|discriminate].
    cbn [mbind option_bind] in Hrun.
    destruct (transfer_effect f ix' s s1 payer r amount Hix Hstep) as (Hr & Hmono & Htab);
      [congruence|].
    destruct (IH Hpayer _ _ _ Hsame Hrun) as (Hmono' & Hrs & Htab').
    split; [|split].
    + intros x Hx. specialize (Hmono x Hx). specialize (Hmono' x Hx). lia.
    + intros x Hx. apply elem_of_cons in Hx as [->|Hx]; [|by apply Hrs].
      specialize (Hmono' r ltac:(congruence)). lia.
    + congruence.
Qed.

(** ** A program logic for the script *)

Lemma triple_bind {A B : Type} (P : World -> Prop) (m : M A)
    (Q : A -> World -> Prop) (f : A -> M B) (R : B -> World -> Prop) :
  triple P m Q -> (forall a, triple (Q a) (f a) R) -> triple P (m ≫= f) R.
Proof.
  intros Hm Hf w HP. rewrite bind_run. specialize (Hm w HP).
  destruct (m w) as [[a|e|] w1]; [|exact Hm|exact I].
  apply (Hf a w1 Hm).
Qed.

Lemma triple_weaken {A : Type} (P P' : World -> Prop) (m : M A)
    (Q Q' : A -> World -> Prop) :
  triple P' m Q' -> (forall w, P w -> P' w) -> (forall a w, Q' a w -> Q a w) ->
  triple P m Q.
Proof.
  intros Hm HP HQ w Hw. specialize (Hm w (HP w Hw)).
  destruct (m w) as [[a|e|] w1]; auto.
Qed.

Lemma triple_ret {A : Type} (P : World -> Prop) (a : A) (Q : A -> World -> Prop) :
  (forall w, P w -> Q a w) -> triple P (mret a) Q.
Proof. intros H w Hw. cbn. auto. Qed.

Ltac run_monad :=
  cbv beta iota zeta delta
    [mbind M_mbind mret M_mret next_request next_keypair lift emit refused
     apply_to_ledger get_world set_ledger throw out_of_fuel console_log
     advance_clock option_bind sdk_assert assert];
  cbn [ledger requests keypairs clock trace console].

Section Triples.
Variable env : Env.

Lemma triple_confirmTransaction (P : World -> Prop) sig :
  stable P -> triple P (confirmTransaction env sig) (fun _ => P).
Proof.
  intros HP w Hw. unfold confirmTransaction. run_monad.
  destruct (fault env (requests w)); [discriminate|]. by apply (HP w).
Qed.

Lemma triple_getLatestBlockhash (P : World -> Prop) :
  stable P -> triple P (getLatestBlockhash env) (fun _ => P).
Proof.
  intros HP w Hw. unfold getLatestBlockhash. run_monad.
  destruct (fault env (requests w)); [discriminate|]. by apply (HP w).
Qed.

Lemma triple_console_log (P : World -> Prop) line :
  stable P -> triple P (console_log line) (fun _ => P).
Proof. intros HP w Hw. unfold console_log. by apply (HP w). Qed.

Lemma triple_requestAirdrop (k : nat) to amount :
  triple (fun w => keypairs w = k) (requestAirdrop env to amount)
         (fun _ w => keypairs w = k).
Proof.
  intros w Hw. unfold requestAirdrop. run_monad.
  destruct (fault env (requests w)); [discriminate|].
  cbn [ledger]. destruct (Ledger.credit _ _ _); [exact Hw|discriminate].
Qed.

Lemma generateRecipients_run (n : nat) :
  forall acc w,
    generateRecipients env n acc w
    = (Ok (acc ++ map (Keypair_generate env) (seq (keypairs w) n)),
       {| ledger := ledger w; requests := requests w;
          keypairs := (keypairs w + n)%nat; clock := clock w; trace := trace w;
          console := console w |}).
Proof.
  induction n as [|n IH]; intros acc w.
  - cbn. rewrite app_nil_r, Nat.add_0_r. by destruct w.
  - cbn [generateRecipients]. unfold generate. run_monad.
    rewrite IH. cbn [ledger requests keypairs clock trace console seq map].
    rewrite <- app_assoc. cbn [app]. rewrite Nat.add_succ_r. reflexivity.
Qed.

End Triples.

(** ** The script from end to end *)

Section MainTriples.
Variable env : Env.
#[local] Abbreviation pk := (wallet_publicKey env).

Lemma triple_sendAndConfirm tx :
  triple (fun _ => True) (sendAndConfirm env tx) (fun _ _ => True).
Proof.
  intros w _. unfold sendAndConfirm. run_monad.
  destruct (forallb _ _); [|discriminate].
  destruct (Transaction_serialize_length _) as [len|e|] eqn:Hlen; [| |exact I].
  2:{ unfold Transaction_serialize_length in Hlen.
      cbn in Hlen. destruct (_ <=? _) in Hlen; [discriminate|].
      by injection Hlen as <-. }
  destruct (fault env (requests w)); [discriminate|].
  cbn [ledger]. destruct (Ledger.processInstructions _ _ _); [exact I|discriminate].
Qed.

Lemma triple_createTable :
  triple (fun _ => True) (createTable env) (fun _ _ => True).
Proof.
  unfold createTable. eapply triple_bind with (Q := fun _ _ => True).
  - intros w _. unfold getSlot. run_monad.
    destruct (fault env (requests w)); [discriminate|exact I].
  - intros slot. destruct (AddressLookupTableProgram.createLookupTable _ _ _ _) as [create lut].
    eapply triple_bind; [apply triple_sendAndConfirm|].
    intros ?. by apply triple_ret.
Qed.

Lemma SubmissionFailure_not_assertion n tx' e pending :
  SubmissionFailure env n tx' e pending -> e <> AssertionError.
Proof. intros []; discriminate. Qed.

Lemma triple_extendTable lut lookupAccounts b :
  triple (fun _ => True) (extendTable env lut lookupAccounts b) (fun _ _ => True).
Proof.
  intros w _. unfold extendTable.
  destruct (extendLoop env _ lut lookupAccounts b 0 w) as [[[]|e|] w'] eqn:Hrun;
    [exact I| |exact I].
  destruct (extendLoop_errors env lut lookupAccounts b (S (length lookupAccounts)) 0 w e)
    as (n & tx' & pending & Hf).
  { by rewrite Hrun. }
  by eapply SubmissionFailure_not_assertion.
Qed.

Lemma triple_awaitActivation lut delay :
  triple (fun _ => True) (awaitActivation env lut delay)
         (fun lookupTable w => tablesAgree (ledger w) [lookupTable]).
Proof.
  intros w _. rewrite awaitActivation_run. cbv zeta.
  destruct (fault env (requests w)); [discriminate|].
  destruct (Ledger.tables (ledger w) !! lut) as [t|] eqn:Ht; [|discriminate].
  cbn [ledger]. repeat constructor. exists t. by split.
Qed.

Lemma Outcome_error_not_assertion_sdk_assert cond msg e :
  sdk_assert cond msg = Throw e -> e <> AssertionError.
Proof. unfold sdk_assert. destruct cond; [discriminate|]. by intros [= <-]. Qed.


End MainTriples.

(** ** The SDK only throws errors of its own *)

Lemma sdk_only_Ok {A : Type} (a : A) : sdk_only (Ok a).
Proof. intros e [=]. Qed.

Lemma sdk_only_Throw {A : Type} msg : sdk_only (@Throw A (SdkError msg)).
Proof. intros e [= <-]. by eexists. Qed.

Lemma sdk_only_bind {A B : Type} (o : Outcome A) (f : A -> Outcome B) :
  sdk_only o -> (forall a, sdk_only (f a)) -> sdk_only (o ≫= f).
Proof.
  intros Ho Hf e. destruct o as [a|e'|]; cbn.
  - apply Hf.
  - intros [= <-]. by apply Ho.
  - discriminate.
Qed.

Lemma sdk_only_assert cond msg : sdk_only (sdk_assert cond msg).
Proof. unfold sdk_assert. destruct cond; [apply sdk_only_Ok|apply sdk_only_Throw]. Qed.

Create HintDb sdk.
#[local] Hint Resolve sdk_only_Ok sdk_only_Throw sdk_only_assert : sdk.

Ltac sdk_step :=
  repeat first
    [ solve [auto with sdk]
    | apply sdk_only_bind; [|intros]
    | match goal with
      | |- sdk_only (match ?x with _ => _ end) => destruct x
      | |- sdk_only (let '(_, _) := ?x in _) => destruct x
      end
    | assumption ].

Lemma sdk_only_drain entries f m :
  sdk_only (drainKeysFoundInLookupTable entries f m).
Proof.
  induction m as [|[a meta] m IH]; cbn [drainKeysFoundInLookupTable]; sdk_step.
Qed.

Lemma sdk_only_extractTableLookup t m : sdk_only (extractTableLookup t m).
Proof.
  unfold extractTableLookup.
  apply sdk_only_bind; [apply sdk_only_drain|]. intros [[? ?] ?].
  apply sdk_only_bind; [apply sdk_only_drain|]. intros [[? ?] ?]. sdk_step.
Qed.

Lemma sdk_only_extractTableLookups ts : forall m, sdk_only (extractTableLookups ts m).
Proof.
  induction ts as [|t ts IH]; intros m; cbn [extractTableLookups]; [sdk_step|].
  apply sdk_only_bind; [apply sdk_only_extractTableLookup|]. intros [? ?].
  apply sdk_only_bind; [apply IH|]. intros [[? [? ?]] ?]. sdk_step.
Qed.

Lemma sdk_only_getMessageComponents payer m : sdk_only (getMessageComponents payer m).
Proof. unfold getMessageComponents. sdk_step. Qed.

Lemma sdk_only_findKeyIndex ks k : sdk_only (findKeyIndex ks k).
Proof. unfold findKeyIndex. sdk_step. Qed.

Lemma sdk_only_findKeyIndexes ks metas : sdk_only (findKeyIndexes ks metas).
Proof.
  induction metas as [|m metas IH]; cbn [findKeyIndexes]; [sdk_step|].
  apply sdk_only_bind; [apply sdk_only_findKeyIndex|]. intros i.
  apply sdk_only_bind; [apply IH|]. intros. sdk_step.
Qed.

Lemma sdk_only_compileInstructions ks ixs : sdk_only (compileInstructions ks ixs).
Proof.
  unfold compileInstructions. apply sdk_only_bind; [apply sdk_only_assert|]. intros _.
  induction ixs as [|ix ixs IH]; cbn [compileInstructions_map]; [sdk_step|].
  apply sdk_only_bind; [apply sdk_only_findKeyIndex|]. intros p.
  apply sdk_only_bind; [apply sdk_only_findKeyIndexes|]. intros idxs.
  apply sdk_only_bind; [apply IH|]. intros. sdk_step.
Qed.

Lemma sdk_only_compileToV0Message message ts : sdk_only (compileToV0Message message ts).
Proof.
  unfold compileToV0Message.
  apply sdk_only_bind; [apply sdk_only_extractTableLookups|]. intros [[? [? ?]] ?].
  apply sdk_only_bind; [apply sdk_only_getMessageComponents|]. intros [? ?].
  apply sdk_only_bind; [apply sdk_only_compileInstructions|]. intros. sdk_step.
Qed.

Lemma sdk_only_MessageV0_serialize msg : sdk_only (MessageV0_serialize msg).
Proof. unfold MessageV0_serialize. sdk_step. Qed.

Lemma sdk_only_sign f signer tx : sdk_only (VersionedTransaction_sign f signer tx).
Proof.
  unfold VersionedTransaction_sign.
  apply sdk_only_bind; [apply sdk_only_MessageV0_serialize|]. intros. sdk_step.
Qed.

Lemma sdk_only_serialize tx : sdk_only (VersionedTransaction_serialize tx).
Proof.
  unfold VersionedTransaction_serialize.
  apply sdk_only_bind; [apply sdk_only_MessageV0_serialize|]. intros. sdk_step.
Qed.

Lemma sdk_only_compileComposite env ixs ts payer bh :
  sdk_only (compileComposite env ixs ts payer bh).
Proof.
  unfold compileComposite.
  apply sdk_only_bind; [apply sdk_only_compileToV0Message|]. intros.
  apply sdk_only_bind; [apply sdk_only_sign|]. intros.
  apply sdk_only_bind; [apply sdk_only_serialize|]. intros. sdk_step.
Qed.

Lemma sdk_only_not_assertion {A : Type} (o : Outcome A) e :
  sdk_only o -> o = Throw e -> e <> AssertionError.
Proof. intros Ho He. destruct (Ho e He) as [msg ->]. discriminate. Qed.

Lemma sign_message f signer tx tx' :
  VersionedTransaction_sign f signer tx = Ok tx' -> message tx' = message tx.
Proof.
  unfold VersionedTransaction_sign. intros H.
  apply Outcome_bind_Ok in H as (bytes & _ & H).
  destruct (JS.findIndex _ _); [|discriminate]. by injection H as <-.
Qed.

Lemma compileComposite_message env ixs ts payer bh v0 bytes :
  compileComposite env ixs ts payer bh = Ok (v0, bytes) ->
  compileToV0Message {| payerKey := payer; msg_recentBlockhash := bh;
                        instructions := ixs |} ts
  = Ok (message v0).
Proof.
  unfold compileComposite. intros H.
  apply Outcome_bind_Ok in H as (compiled & Hc & H).
  apply Outcome_bind_Ok in H as (signed & Hs & H).
  apply Outcome_bind_Ok in H as (bytes' & _ & H). injection H as <- <-.
  apply sign_message in Hs. rewrite Hs, Hc. reflexivity.
Qed.


Section MainTheorem.
Variable env : Env.
#[local] Abbreviation pk := (wallet_publicKey env).

Lemma triple_compileStep (ixs : list TransactionInstruction)
    (lookupTable : AddressLookupTableAccount) (P : World -> Prop) :
  stable P ->
  triple P (compileStep env ixs lookupTable)
         (fun v0 w =>
            P w /\ exists bh,
              compileToV0Message {| payerKey := pk; msg_recentBlockhash := bh;
                                    instructions := ixs |} [lookupTable]
              = Ok (message v0)).
Proof.
  intros HP w Hw. unfold compileStep, getLatestBlockhash. run_monad.
  destruct (fault env (requests w)); [discriminate|].
  destruct (latestBlockhash env (requests w)) as [bh height].
  destruct (compileComposite env ixs [lookupTable] pk bh) as [[v0 bytes]|e|] eqn:Hc;
    [| |exact I].
  - cbn [ledger requests keypairs clock trace console].
    split; [by apply (HP w)|]. exists bh. by eapply compileComposite_message.
  - eapply sdk_only_not_assertion; [apply sdk_only_compileComposite|exact Hc].
Qed.

Lemma triple_sendTransaction (v0 : VersionedTransaction) (rs : list N)
    (lookupTable : AddressLookupTableAccount) :
  pk ∉ rs ->
  triple (fun w =>
            tablesAgree (ledger w) [lookupTable]
            /\ exists bh,
                 compileToV0Message
                   {| payerKey := pk; msg_recentBlockhash := bh;
                      instructions := map (transferTo env) rs |} [lookupTable]
                 = Ok (message v0))
         (sendTransaction env v0)
         (fun _ w => forall r, r ∈ rs ->
                       4 * LAMPORTS_PER_SOL <= Z.of_N (Ledger.balance (ledger w) r)).
Proof.
  intros Hpk w (Hagree & bh & Hcompile). unfold sendTransaction. run_monad.
  destruct (VersionedTransaction_serialize v0) as [wire|e|] eqn:Hwire; [| |exact I].
  2:{ eapply sdk_only_not_assertion; [apply sdk_only_serialize|exact Hwire]. }
  cbn [ledger requests keypairs clock trace console].
  destruct (fault env (requests w)); [discriminate|].
  destruct (Z.of_nat (length wire) <=? PACKET_DATA_SIZE); [|discriminate].
  destruct (validSignatures env v0); [|discriminate].
  cbn [ledger requests keypairs clock trace console].
  destruct (Ledger.v0Resolve (ledger w) (message v0)) as [ixs'|] eqn:Hres;
    [|discriminate].
  destruct (Ledger.processInstructions _ ixs' (ledger w)) as [s'|] eqn:Hrun;
    [|discriminate].
  cbn [ledger]. intros r Hr.
  pose proof (compile_resolve _ _ _ _ _ Hagree Hcompile Hres) as Hsame.
  cbn [instructions] in Hsame.
  destruct (transfers_effect _ pk (4 * LAMPORTS_PER_SOL) rs Hpk _ _ _ Hsame Hrun)
    as (_ & Hbal & _).
  specialize (Hbal r Hr). change (Z.to_N (4 * LAMPORTS_PER_SOL)) with 4000000000%N in Hbal.
  change (4 * LAMPORTS_PER_SOL) with 4000000000. lia.
Qed.

Lemma triple_checkBalances (rs : list N) (P : World -> Prop) :
  stable P ->
  (forall w, P w -> forall r, r ∈ rs ->
     4 * LAMPORTS_PER_SOL <= Z.of_N (Ledger.balance (ledger w) r)) ->
  forall i, triple P (checkBalances env i rs) (fun _ => P).
Proof.
  intros HP. induction rs as [|r rs IH]; intros Hbal i.
  - by apply triple_ret.
  - cbn [checkBalances]. intros w Hw. unfold getBalance. run_monad.
    destruct (fault env (requests w)); [discriminate|].
    cbn [ledger].
    destruct (Z.leb_spec (4 * LAMPORTS_PER_SOL) (Z.of_N (Ledger.balance (ledger w) r)))
      as [_|Hlt].
    2:{ specialize (Hbal w Hw r ltac:(left)). lia. }
    apply IH.
    + intros w' Hw' r' Hr'. apply Hbal; [done|by right].
    + by apply (HP w).
Qed.


Lemma triple_pure_pre {A : Type} (phi : Prop) (m : M A) (Q : A -> World -> Prop) :
  (phi -> triple (fun _ => True) m Q) -> triple (fun _ => phi) m Q.
Proof. intros H w Hphi. by apply H. Qed.

Lemma stable_ledger (P : Ledger.State -> Prop) : stable (fun w => P (ledger w)).
Proof. intros w w' Hl _. by rewrite Hl. Qed.

Lemma stable_keypairs (k : nat) : stable (fun w => keypairs w = k).
Proof. intros w w' _ Hk. by rewrite Hk. Qed.

(** From any world, the script ends with every recipient holding at least
    4 SOL, or throws an error that is not the failure of an assertion. *)
Lemma triple_main (w0 : World) :
  let recipients := map (Keypair_generate env) (seq (keypairs w0) 50) in
  pk ∉ recipients ->
  triple (fun w => w = w0) (main env)
         (fun _ w => forall r, r ∈ recipients ->
                       4 * LAMPORTS_PER_SOL <= Z.of_N (Ledger.balance (ledger w) r)).
Proof.
  intros recipients Hpk. unfold main.
  eapply triple_bind.
  { eapply triple_weaken; [apply (triple_requestAirdrop env (keypairs w0))| |].
    - by intros w ->.
    - intros a w H. exact H. }
  intros sig. eapply triple_bind.
  { apply triple_confirmTransaction, stable_keypairs. }
  intros ?. eapply triple_bind with (Q := fun rs _ => rs = recipients).
  { intros w Hw. rewrite generateRecipients_run. by rewrite Hw. }
  intros rs. apply triple_pure_pre. intros ->.
  eapply triple_bind.
  { apply (triple_getLatestBlockhash env (fun _ => True)). by intros ? ?. }
  intros blockInfo. cbv zeta. eapply triple_bind; [apply triple_createTable|].
  intros lut. eapply triple_bind; [apply triple_extendTable|].
  intros ?. eapply triple_bind; [apply triple_awaitActivation|].
  intros lookupTable. eapply triple_bind.
  { apply triple_compileStep. apply (stable_ledger (fun s => tablesAgree s [lookupTable])). }
  intros v0. eapply triple_bind.
  { rewrite transferInstructions_map
      by (subst recipients; by rewrite length_map, length_seq).
    apply (triple_sendTransaction v0 recipients lookupTable Hpk). }
  intros sig'.
  set (P := fun w : World => forall r, r ∈ recipients ->
                4 * LAMPORTS_PER_SOL <= Z.of_N (Ledger.balance (ledger w) r)).
  assert (HP : stable P).
  { apply (stable_ledger (fun s => forall r, r ∈ recipients ->
                4 * LAMPORTS_PER_SOL <= Z.of_N (Ledger.balance s r))). }
  eapply triple_bind; [apply (triple_confirmTransaction env P), HP|].
  intros ?. eapply triple_bind; [apply (triple_console_log P), HP|].
  intros ?. apply triple_checkBalances; [exact HP|]. intros w Hw. exact Hw.
Qed.

End MainTheorem.

(** C9.  Provided none of the fifty key pairs drawn is the wallet's own,
    instruction [i] of the script sends exactly 4 SOL from the wallet to
    recipient [i]; in no run does the script end on a failed assertion; and
    when the run succeeds (so that the versioned transaction was sent and its
    confirmation awaited), every one of the fifty recipients holds at least
    4 * LAMPORTS_PER_SOL at the end. *)
Theorem recipients_hold_four_sol (env : Env) (w : World) :
  let recipients := map (Keypair_generate env) (seq (keypairs w) 50) in
  wallet_publicKey env ∉ recipients ->
  (forall i r, recipients !! i = Some r ->
     transferInstructions env recipients !! i
     = Some (SystemProgram.transfer (wallet_publicKey env) r
                                    (4 * LAMPORTS_PER_SOL)))
  /\ fst (main env w) <> Throw AssertionError
  /\ (fst (main env w) = Ok tt ->
      forall r, r ∈ recipients ->
        4 * LAMPORTS_PER_SOL
        <= Z.of_N (Ledger.balance (ledger (snd (main env w))) r)).
Proof.
  intros recipients Hpk. split; [|].
  - intros i r Hr. rewrite transferInstructions_map
      by (subst recipients; by rewrite length_map, length_seq).
    rewrite list_lookup_fmap, Hr. reflexivity.
  - pose proof (triple_main env w Hpk w eq_refl) as H.
    destruct (main env w) as [[[]|e|] w']; cbn [fst snd].
    + split; [discriminate|]. intros _. exact H.
    + split; [congruence|discriminate].
    + split; discriminate.
Qed.

(** ** The trace of the script, the amounts, and determinism *)

Lemma appends_bind {A B : Type} (m : M A) (f : A -> M B) :
  appends m -> (forall a, appends (f a)) -> appends (m ≫= f).
Proof.
  intros Hm Hf w. rewrite bind_run. destruct (Hm w) as [d1 H1].
  destruct (m w) as [[a|e|] w1]; cbn [snd] in *; [|eauto..].
  destruct (Hf a w1) as [d2 H2]. exists (d1 ++ d2). by rewrite H2, H1, app_assoc.
Qed.

Lemma appends_same {A : Type} (m : M A) :
  (forall w, trace (snd (m w)) = trace w) -> appends m.
Proof. intros H w. exists []. by rewrite H, app_nil_r. Qed.

Lemma appends_ret {A : Type} (a : A) : appends (mret a).
Proof. by apply appends_same. Qed.

Lemma appends_throw {A : Type} e : appends (@throw A e).
Proof. by apply appends_same. Qed.

Lemma appends_lift {A : Type} (o : Outcome A) : appends (lift o).
Proof. by apply appends_same. Qed.

Lemma appends_emit ev : appends (emit ev).
Proof. intros w. by exists [ev]. Qed.

Lemma appends_console_log line : appends (console_log line).
Proof. by apply appends_same. Qed.

Lemma appends_next_request : appends next_request.
Proof. by apply appends_same. Qed.

Lemma appends_get_world : appends get_world.
Proof. by apply appends_same. Qed.

Lemma appends_set_ledger s : appends (set_ledger s).
Proof. by apply appends_same. Qed.

Lemma appends_refused env n : appends (refused env n).
Proof. unfold refused. destruct (fault env n); [apply appends_throw|apply appends_ret]. Qed.

Lemma appends_assert cond : appends (assert cond).
Proof. unfold assert. destruct cond; [apply appends_ret|apply appends_throw]. Qed.

Create HintDb appends.
#[local] Hint Resolve appends_ret appends_throw appends_lift appends_emit
  appends_console_log appends_next_request appends_get_world appends_set_ledger
  appends_refused appends_assert : appends.

Ltac appends_step :=
  repeat first
    [ solve [auto with appends]
    | apply appends_bind; [|intros]
    | match goal with
      | |- appends (match ?x with _ => _ end) => destruct x
      | |- appends (if ?x then _ else _) => destruct x
      end ].

Section Appends.
Variable env : Env.

Lemma appends_apply_to_ledger ixs : appends (apply_to_ledger env ixs).
Proof. unfold apply_to_ledger. appends_step. Qed.

Lemma appends_confirmTransaction sig : appends (confirmTransaction env sig).
Proof. unfold confirmTransaction. appends_step. Qed.

Lemma appends_getLatestBlockhash : appends (getLatestBlockhash env).
Proof. unfold getLatestBlockhash. appends_step. Qed.

Lemma appends_getSlot : appends (getSlot env).
Proof. unfold getSlot. appends_step. Qed.

Lemma appends_getBalance a : appends (getBalance env a).
Proof. unfold getBalance. appends_step. Qed.

Lemma appends_sendAndConfirm tx : appends (sendAndConfirm env tx).
Proof.
  unfold sendAndConfirm. pose proof appends_apply_to_ledger. appends_step.
Qed.

Lemma appends_sendTransaction tx : appends (sendTransaction env tx).
Proof.
  unfold sendTransaction. pose proof appends_apply_to_ledger. appends_step.
Qed.

Lemma appends_generateRecipients n acc : appends (generateRecipients env n acc).
Proof. apply appends_same. intros w. by rewrite generateRecipients_run. Qed.

Lemma appends_createTable : appends (createTable env).
Proof.
  unfold createTable. pose proof appends_getSlot. pose proof appends_sendAndConfirm.
  apply appends_bind; [auto|]. intros slot.
  destruct (AddressLookupTableProgram.createLookupTable _ _ _ _). appends_step.
Qed.

Lemma appends_extendTable lut accounts b : appends (extendTable env lut accounts b).
Proof.
  intros w.
  destruct (extendLoop_sequential env lut accounts b (S (length accounts)) 0 w)
    as (delta & m & H & _).
  eauto.
Qed.

Lemma appends_awaitActivation lut delay : appends (awaitActivation env lut delay).
Proof.
  intros w. rewrite awaitActivation_run. cbv zeta.
  destruct (fault env (requests w)); [|destruct (Ledger.tables _ !! lut)]; cbn; eauto.
Qed.

Lemma appends_compileStep ixs t : appends (compileStep env ixs t).
Proof.
  unfold compileStep. pose proof appends_getLatestBlockhash.
  apply appends_bind; [auto|]. intros [bh h].
  apply appends_bind; [auto with appends|]. intros [v0 bytes]. appends_step.
Qed.

Lemma appends_checkBalances rs : forall i, appends (checkBalances env i rs).
Proof.
  induction rs as [|r rs IH]; intros i; cbn [checkBalances]; [appends_step|].
  pose proof appends_getBalance. appends_step.
Qed.

Lemma requestAirdrop_trace to amount w :
  trace (snd (requestAirdrop env to amount w))
  = trace w ++ [Submitted (Airdrop to amount)].
Proof.
  unfold requestAirdrop. run_monad.
  destruct (fault env (requests w)); [reflexivity|].
  cbn [ledger]. destruct (Ledger.credit _ _ _); reflexivity.
Qed.

(** The first thing the script puts on the trace is its request for an
    airdrop of [airdropAmount] to the wallet. *)
Lemma main_trace w :
  exists rest,
    trace (snd (main env w))
    = trace w ++ Submitted (Airdrop (wallet_publicKey env) airdropAmount) :: rest.
Proof.
  unfold main. rewrite bind_run.
  pose proof (requestAirdrop_trace (wallet_publicKey env) airdropAmount w) as H1.
  destruct (requestAirdrop env _ _ w) as [[sig|e|] w1]; cbn [snd] in *;
    [|exists []; exact H1..].
  assert (Hk : forall (k : M unit), appends k ->
             exists rest,
               trace (snd (k w1))
               = trace w
                 ++ Submitted (Airdrop (wallet_publicKey env) airdropAmount)
                 :: rest).
  { intros k Hk. destruct (Hk w1) as [d Hd]. exists d.
    by rewrite Hd, H1, <- app_assoc. }
  apply Hk.
  pose proof appends_confirmTransaction. pose proof appends_generateRecipients.
  pose proof appends_getLatestBlockhash. pose proof appends_createTable.
  pose proof appends_extendTable. pose proof appends_awaitActivation.
  pose proof appends_compileStep. pose proof appends_sendTransaction.
  pose proof appends_checkBalances.
  appends_step.
Qed.

End Appends.

(** C10.  The airdrop that the script requests, the first thing it does,
    is of exactly 300 * LAMPORTS_PER_SOL; the script builds fifty transfer
    instructions of 4 * LAMPORTS_PER_SOL each, whatever the recipients, which
    move 50 * 4 * LAMPORTS_PER_SOL = 200 SOL in total, strictly less than the
    amount of the airdrop.  Both amounts are integers that a JavaScript
    number holds exactly. *)
Theorem airdrop_covers_transfers (env : Env) (recipients : list PublicKey)
    (w : World) :
  airdropAmount = 300 * LAMPORTS_PER_SOL
  /\ (exists rest,
        trace (snd (main env w))
        = trace w
          ++ Submitted (Airdrop (wallet_publicKey env) (300 * LAMPORTS_PER_SOL))
          :: rest)
  /\ length (transferInstructions env recipients) = 50%nat
  /\ Forall (fun ix => lamportsMoved ix = 4 * LAMPORTS_PER_SOL)
            (transferInstructions env recipients)
  /\ totalLamportsMoved (transferInstructions env recipients)
     = 50 * (4 * LAMPORTS_PER_SOL)
  /\ 50 * (4 * LAMPORTS_PER_SOL) = 200 * LAMPORTS_PER_SOL
  /\ totalLamportsMoved (transferInstructions env recipients) < airdropAmount
  /\ JS.safe_integer airdropAmount
  /\ JS.safe_integer (totalLamportsMoved (transferInstructions env recipients)).
Proof.
  rewrite totalLamportsMoved_transfers.
  split; [reflexivity|]. split; [apply main_trace|].
  split; [by rewrite transferInstructions_seq, length_map, length_seq|].
  split.
  { rewrite transferInstructions_seq. apply Forall_forall. intros ix Hix.
    apply list_elem_of_In, in_map_iff in Hix as (i & <- & _). reflexivity. }
  repeat split; unfold airdropAmount, LAMPORTS_PER_SOL, JS.MAX_SAFE_INTEGER; lia.
Qed.

Lemma sign_ext (f g : list Byte.byte -> N) signer tx :
  (forall bytes, f bytes = g bytes) ->
  VersionedTransaction_sign f signer tx = VersionedTransaction_sign g signer tx.
Proof.
  intros Hfg. unfold VersionedTransaction_sign.
  destruct (MessageV0_serialize (message tx)) as [bytes| |]; cbn; [|reflexivity..].
  destruct (JS.findIndex _ _); [|reflexivity]. by rewrite Hfg.
Qed.

Lemma compileStep_run (env : Env) ixs t w :
  compileStep env ixs t w
  = let w1 := {| ledger := ledger w; requests := S (requests w);
                 keypairs := keypairs w; clock := clock w; trace := trace w;
                 console := console w |} in
    match fault env (requests w) with
    | Some msg => (Throw (RpcError msg), w1)
    | None =>
        match compileComposite env ixs [t] (wallet_publicKey env)
                (fst (latestBlockhash env (requests w))) with
        | Ok (v0, bytes) =>
            (Ok v0,
             {| ledger := ledger w; requests := S (requests w);
                keypairs := keypairs w; clock := clock w; trace := trace w;
                console := console w ++ [LogV0Size (length bytes)] |})
        | Throw e => (Throw e, w1)
        | OutOfFuel => (OutOfFuel, w1)
        end
    end.
Proof.
  unfold compileStep, getLatestBlockhash. run_monad.
  destruct (fault env (requests w)); [reflexivity|].
  destruct (latestBlockhash env (requests w)) as [bh h]. cbn [fst].
  destruct (compileComposite env ixs [t] (wallet_publicKey env) bh) as [[v0 bytes]|e|];
    reflexivity.
Qed.


(** C5 on the local network. *)
Lemma fifty_transfers_need_the_table_witness :
  length localnet_recipients = 50%nat
  /\ NoDup (SystemProgram.programId :: wallet_publicKey localnet :: localnet_recipients)
  /\ Transaction_serialize_length
       (legacyTransaction localnet 500%N 77%N
          (transferInstructions localnet localnet_recipients))
     = Throw (SdkError "Transaction too large")
  /\ exists v0Transaction bytes,
       compileComposite localnet (transferInstructions localnet localnet_recipients)
         [{| key := 900%N;
             state_addresses :=
               [SystemProgram.programId; wallet_publicKey localnet]
                 ++ localnet_recipients |}]
         (wallet_publicKey localnet) 500%N
       = Ok (v0Transaction, bytes)
       /\ length bytes = 1102%nat.
Proof.
  assert (Hnd : NoDup (SystemProgram.programId :: wallet_publicKey localnet
                         :: localnet_recipients)).
  { refine (bool_decide_unpack _ _). vm_compute. reflexivity. }
  split; [reflexivity|]. split; [exact Hnd|].
  destruct (fifty_transfers_need_the_table localnet localnet_recipients 500%N 77%N 900%N)
    as (_ & _ & Hlegacy & v0 & bytes & Hc & Hlen & _); [reflexivity|exact Hnd|].
  split; [exact Hlegacy|]. exists v0, bytes. auto.
Defined.


(** C9 on the local network, from the empty ledger. *)
Lemma recipients_hold_four_sol_witness :
  (wallet_publicKey localnet
     ∉ map (Keypair_generate localnet) (seq (keypairs genesis) 50))
  /\ fst (main localnet genesis) = Ok tt
  /\ forall r, r ∈ map (Keypair_generate localnet) (seq (keypairs genesis) 50) ->
       4 * LAMPORTS_PER_SOL
       <= Z.of_N (Ledger.balance (ledger (snd (main localnet genesis))) r).
Proof.
  assert (Hpk : wallet_publicKey localnet
                  ∉ map (Keypair_generate localnet) (seq (keypairs genesis) 50)).
  { refine (bool_decide_unpack _ _). vm_compute. reflexivity. }
  assert (Hok : fst (main localnet genesis) = Ok tt) by (vm_compute; reflexivity).
  split; [exact Hpk|]. split; [exact Hok|].
  destruct (recipients_hold_four_sol localnet genesis Hpk) as (_ & _ & H).
  exact (H Hok).
Defined.

(* ===================================================================== *)
(** * Part III: the script beyond the specification *)
(* ===================================================================== *)

(** What follows is read off run.ts itself: what each step does when the
    network answers and when it refuses, and what the whole script does and
    never does.  The assumptions are those of Part I: nobody but the script
    touches the wallet and the table, an accepted transaction is applied at
    once, and the SDK encodes as modelled. *)

Ltac world := cbn [sent ledger requests keypairs clock trace console].

Ltac elem_solve := cbn; rewrite ?elem_of_cons, ?elem_of_nil; tauto.

(** ** The size of the table transactions *)

Lemma length_encodeLength_small (n : nat) :
  (n < 128)%nat -> length (encodeLength n) = 1%nat.
Proof.
  intros Hn. unfold encodeLength. cbn [encodeLength_loop].
  rewrite N.shiftr_div_pow2. rewrite N.div_small by (change (2 ^ 7)%N with 128%N; lia).
  reflexivity.
Qed.

Lemma length_encodeLength_pos (n : nat) : (1 <= length (encodeLength n))%nat.
Proof.
  unfold encodeLength. cbn [encodeLength_loop].
  destruct (N.eqb _ 0); cbn [length]; lia.
Qed.

Lemma length_encodeLength_medium (n : nat) :
  Z.of_nat n < 16384 -> (length (encodeLength n) <= 2)%nat.
Proof.
  intros Hn. unfold encodeLength. cbn [encodeLength_loop].
  destruct (N.eqb (N.shiftr (N.of_nat n) 7) 0); [cbn; lia|].
  rewrite N.shiftr_shiftr. rewrite N.shiftr_div_pow2.
  rewrite N.div_small by (change (2 ^ (7 + 7))%N with 16384%N; lia).
  cbn. lia.
Qed.

Lemma length_remove_dups_le (l k : list N) :
  (forall x, x ∈ l -> x ∈ k) -> (length (remove_dups l) <= length k)%nat.
Proof.
  intros H. apply submseteq_length, NoDup_submseteq; [apply NoDup_remove_dups|].
  intros x Hx. apply H. by apply elem_of_remove_dups.
Qed.

Lemma length_encodeData_extend (c : list N) :
  length (encodeData (ExtendLookupTable c)) = (12 + 32 * length c)%nat.
Proof.
  cbn [encodeData]. rewrite !length_app, !length_le_bytes.
  rewrite (length_flat_map_const toBuffer 32).
  - lia.
  - apply Forall_forall. intros k _. apply length_toBuffer.
Qed.

Section TableTransactions.
Variable env : Env.
#[local] Abbreviation pk := (wallet_publicKey env).
#[local] Abbreviation sys := SystemProgram.programId.
#[local] Abbreviation alt := AddressLookupTableProgram.programId.

Lemma length_signerKeys_one (payer : N) (ixs : list TransactionInstruction) :
  forallb (N.eqb payer) (legacySignerKeys payer ixs) = true ->
  length (legacySignerKeys payer ixs) = 1%nat.
Proof.
  intros H. rewrite forallb_forall in H. unfold legacySignerKeys in *.
  apply (length_remove_dups_same _ [payer]); [apply NoDup_singleton|].
  intros x. rewrite list_elem_of_singleton. split.
  - intros Hx. symmetry. apply N.eqb_eq, H, list_elem_of_In.
    by apply elem_of_remove_dups.
  - intros ->. left.
Qed.

Lemma extend_signerKeys lut (c : list N) :
  length (legacySignerKeys pk [AddressLookupTableProgram.extendLookupTable pk pk lut c])
  = 1%nat.
Proof. apply length_signerKeys_one, (extend_signers env lut c). Qed.

(** The wire length of an extension, whatever the keys: at most 250 bytes
    and 32 per address. *)
Lemma extend_wire_length_le lut (c : list N) :
  (length c <= 30)%nat ->
  (legacyWireLength pk [AddressLookupTableProgram.extendLookupTable pk pk lut c]
   <= 250 + 32 * length c)%nat.
Proof.
  intros Hc. unfold legacyWireLength, legacyMessageLength.
  rewrite extend_signerKeys.
  pose proof (length_remove_dups_le
                (pk :: flat_map (fun ix => map pubkey (keys ix))
                         [AddressLookupTableProgram.extendLookupTable pk pk lut c]
                    ++ map programId
                         [AddressLookupTableProgram.extendLookupTable pk pk lut c])
                [lut; pk; sys; alt]) as Hkeys.
  fold (legacyAccountKeys pk
          [AddressLookupTableProgram.extendLookupTable pk pk lut c]) in Hkeys.
  specialize (Hkeys ltac:(intros x; cbn; rewrite ?elem_of_cons, ?elem_of_nil; tauto)). cbn [length] in Hkeys.
  rewrite (length_encodeLength_small (length (legacyAccountKeys _ _))) by lia.
  cbn [map length]. unfold list_sum, legacyInstructionLength. cbn [fold_right].
  cbn [AddressLookupTableProgram.extendLookupTable keys data length].
  rewrite length_encodeData_extend.
  pose proof (length_encodeLength_medium (12 + 32 * length c) ltac:(lia)).
  rewrite !length_encodeLength_small by lia.
  unfold SIGNATURE_LENGTH_IN_BYTES, PUBLIC_KEY_LENGTH. lia.
Qed.

(** With four distinct keys (the table, the wallet, the system program and
    the table program) nothing is shared, and the length is at least 249
    bytes and 32 per address. *)
Lemma extend_wire_length_ge lut (c : list N) :
  NoDup [lut; pk; sys; alt] ->
  (249 + 32 * length c
   <= legacyWireLength pk [AddressLookupTableProgram.extendLookupTable pk pk lut c])%nat.
Proof.
  intros Hnd. unfold legacyWireLength, legacyMessageLength.
  rewrite extend_signerKeys.
  assert (Hkeys : length (legacyAccountKeys pk
            [AddressLookupTableProgram.extendLookupTable pk pk lut c]) = 4%nat).
  { apply (length_remove_dups_same _ [lut; pk; sys; alt] Hnd).
    intros x. cbn. rewrite ?elem_of_cons, ?elem_of_nil. tauto. }
  rewrite Hkeys.
  cbn [map length]. unfold list_sum, legacyInstructionLength. cbn [fold_right].
  cbn [AddressLookupTableProgram.extendLookupTable keys data length].
  rewrite length_encodeData_extend.
  pose proof (length_encodeLength_pos (12 + 32 * length c)).
  rewrite !length_encodeLength_small by lia.
  unfold SIGNATURE_LENGTH_IN_BYTES, PUBLIC_KEY_LENGTH. lia.
Qed.

End TableTransactions.

(** ** The transaction that creates the table *)

Section CreateFacts.
Variable env : Env.
#[local] Abbreviation pk := (wallet_publicKey env).
#[local] Abbreviation sys := SystemProgram.programId.
#[local] Abbreviation alt := AddressLookupTableProgram.programId.
#[local] Abbreviation createInstruction slot :=
  (fst (AddressLookupTableProgram.createLookupTable
          (findProgramAddressSync env) pk pk slot)).
#[local] Abbreviation tableAddress slot := (fst (findProgramAddressSync env pk slot)).

Lemma createLookupTable_address slot :
  snd (AddressLookupTableProgram.createLookupTable
         (findProgramAddressSync env) pk pk slot) = tableAddress slot.
Proof.
  unfold AddressLookupTableProgram.createLookupTable.
  by destruct (findProgramAddressSync env pk slot).
Qed.

Lemma create_signers slot :
  forallb (N.eqb pk) (legacySignerKeys pk [createInstruction slot]) = true.
Proof.
  unfold AddressLookupTableProgram.createLookupTable.
  destruct (findProgramAddressSync env pk slot) as [lut bump].
  apply forallb_remove_dups. cbn. repeat constructor.
Qed.

Lemma create_process slot (s : Ledger.State) :
  Ledger.processInstructions (findProgramAddressSync env)
    (Ledger.legacyResolve pk [createInstruction slot]) s
  = Some (match Ledger.tables s !! tableAddress slot with
          | Some _ => s
          | None => Ledger.set_table (tableAddress slot)
                      {| Ledger.authority := pk; Ledger.addresses := [] |} s
          end).
Proof.
  unfold AddressLookupTableProgram.createLookupTable.
  destruct (findProgramAddressSync env pk slot) as [lut bump] eqn:Hf.
  cbn [fst Ledger.legacyResolve map Ledger.processInstructions keys programId data
       pubkey].
  unfold Ledger.processInstruction.
  cbn [programId data keys pubkey isSigner isWritable].
  change (N.eqb alt sys) with false. rewrite N.eqb_refl. cbn iota.
  rewrite Hf.
  unfold Ledger.legacyWritable, Ledger.legacySigner.
  cbn [existsb keys pubkey isSigner isWritable].
  rewrite !N.eqb_refl. cbn [orb andb].
  rewrite ?orb_true_r. cbn [orb andb].
  by destruct (Ledger.tables s !! lut).
Qed.

Lemma create_wire_length slot :
  Z.of_nat (legacyWireLength pk [createInstruction slot]) <= PACKET_DATA_SIZE.
Proof.
  unfold AddressLookupTableProgram.createLookupTable.
  destruct (findProgramAddressSync env pk slot) as [lut bump].
  cbn [fst]. set (ix := Build_TransactionInstruction _ _ _).
  unfold legacyWireLength, legacyMessageLength.
  assert (Hs : length (legacySignerKeys pk [ix]) = 1%nat).
  { apply length_signerKeys_one. unfold ix.
    apply forallb_remove_dups. cbn. repeat constructor. }
  assert (Hk : (length (legacyAccountKeys pk [ix]) <= 4)%nat).
  { apply (length_remove_dups_le _ [lut; pk; sys; alt]). intros x. unfold ix.
    elem_solve. }
  rewrite Hs. rewrite (length_encodeLength_small (length (legacyAccountKeys _ _))) by lia.
  cbn [map length]. unfold list_sum, legacyInstructionLength. cbn [fold_right].
  subst ix. cbn [keys data length encodeData].
  rewrite !length_app, !length_le_bytes.
  rewrite !length_encodeLength_small by lia.
  unfold SIGNATURE_LENGTH_IN_BYTES, PUBLIC_KEY_LENGTH, PACKET_DATA_SIZE. lia.
Qed.

(** What [createTable] does, request by request. *)
Lemma createTable_run (w : World) :
  createTable env w =
    let w1 := {| ledger := ledger w; requests := S (requests w);
                 keypairs := keypairs w; clock := clock w; trace := trace w;
                 console := console w |} in
    let slot := finalizedSlot env (requests w) in
    let lut := tableAddress slot in
    let tx' := prepared env (S (requests w))
                 (add Transaction_empty (createInstruction slot)) in
    match fault env (requests w) with
    | Some msg => (Throw (RpcError msg), w1)
    | None =>
        match fault env (S (requests w)) with
        | Some msg =>
            (Throw (RpcError msg), sent w1 (ledger w) [Submitted (Legacy tx')])
        | None =>
            (Ok lut,
             sent w1
               (match Ledger.tables (ledger w) !! lut with
                | Some _ => ledger w
                | None => Ledger.set_table lut
                            {| Ledger.authority := pk; Ledger.addresses := [] |}
                            (ledger w)
                end)
               [Submitted (Legacy tx'); Confirmed (Legacy tx')])
        end
    end.
Proof.
  unfold createTable, getSlot. rewrite !bind_run.
  cbv beta iota zeta delta [next_request]. rewrite bind_run.
  unfold refused. destruct (fault env (requests w)) as [msg|]; [reflexivity|].
  cbv beta iota zeta delta [mret M_mret].
  pose proof (createLookupTable_address (finalizedSlot env (requests w))) as Haddr.
  destruct (AddressLookupTableProgram.createLookupTable _ _ _ _) as [create lut] eqn:Hc.
  cbn [fst snd] in Haddr. subst lut.
  assert (Hcreate : create = createInstruction (finalizedSlot env (requests w)))
    by (by rewrite Hc).
  rewrite bind_run, sendAndConfirm_run.
  2:{ cbn [add Transaction_empty feePayer tx_instructions default app].
      rewrite Hcreate. apply create_signers. }
  cbv zeta. rewrite prepared_serialize_length.
  cbn [add Transaction_empty feePayer tx_instructions default app requests ledger].
  rewrite Hcreate.
  destruct (Z.leb_spec (Z.of_nat (legacyWireLength pk
              [createInstruction (finalizedSlot env (requests w))])) PACKET_DATA_SIZE)
    as [_|Hbig]; [|pose proof (create_wire_length (finalizedSlot env (requests w))); lia].
  destruct (fault env (S (requests w))) as [msg|]; [reflexivity|].
  rewrite create_process. reflexivity.
Qed.

End CreateFacts.

(** ** The exact effect of the transfers *)

Lemma transfer_exact f (ix' : TransactionInstruction) (s s' : Ledger.State)
    (payer r : N) (amount : Z) :
  sameInstruction ix' (SystemProgram.transfer payer r amount) ->
  Ledger.processInstruction f ix' s = Some s' ->
  r <> payer ->
  Ledger.balance s' r = (Ledger.balance s r + Z.to_N amount)%N
  /\ Ledger.balance s' payer = (Ledger.balance s payer - Z.to_N amount)%N
  /\ (Z.to_N amount <= Ledger.balance s payer)%N
  /\ (forall x, x <> payer -> x <> r -> Ledger.balance s' x = Ledger.balance s x)
  /\ Ledger.tables s' = Ledger.tables s.
Proof.
  intros (Hprog & Hdata & Hkeys) Hrun Hne.
  unfold Ledger.processInstruction in Hrun. rewrite Hprog, Hdata in Hrun.
  cbn [SystemProgram.transfer programId data keys map pubkey] in *.
  change (N.eqb SystemProgram.programId SystemProgram.programId) with true in Hrun.
  cbn iota in Hrun.
  destruct (keys ix') as [|from [|to [|? ?]]]; try discriminate.
  cbn in Hkeys. injection Hkeys as Hfrom Hto.
  destruct (_ && _) in Hrun; [|discriminate].
  cbn [mbind option_bind] in Hrun.
  unfold Ledger.debit in Hrun.
  destruct (N.leb_spec (Z.to_N amount) (Ledger.balance s (pubkey from)));
    [|discriminate].
  cbn [mbind option_bind] in Hrun. unfold Ledger.credit in Hrun.
  destruct (_ <? _)%N in Hrun; [|discriminate].
  injection Hrun as <-. rewrite Hfrom, Hto in *.
  repeat split.
  - rewrite !balance_set_balance. rewrite decide_True by done.
    by rewrite decide_False by done.
  - rewrite !balance_set_balance. rewrite decide_False by done.
    by rewrite decide_True by done.
  - done.
  - intros x Hx Hxr. rewrite !balance_set_balance.
    by rewrite !decide_False by done.
Qed.

Lemma transfers_exact f (payer : N) (amount : Z) (rs : list N) :
  payer ∉ rs -> NoDup rs ->
  forall ixs' s s',
    Forall2 sameInstruction ixs'
            (map (fun r => SystemProgram.transfer payer r amount) rs) ->
    Ledger.processInstructions f ixs' s = Some s' ->
    (forall r, r ∈ rs -> Ledger.balance s' r = (Ledger.balance s r + Z.to_N amount)%N)
    /\ (Ledger.balance s' payer
        = Ledger.balance s payer - N.of_nat (length rs) * Z.to_N amount)%N
    /\ (N.of_nat (length rs) * Z.to_N amount <= Ledger.balance s payer)%N
    /\ (forall x, x <> payer -> x ∉ rs -> Ledger.balance s' x = Ledger.balance s x)
    /\ Ledger.tables s' = Ledger.tables s.
Proof.
  induction rs as [|r rs IH]; intros Hpayer Hnd ixs' s s' Hsame Hrun.
  - apply Forall2_nil_inv_r in Hsame as ->. injection Hrun as <-.
    repeat split; [|cbn; lia|cbn; lia]. intros r Hr. by apply elem_of_nil in Hr.
  - apply not_elem_of_cons in Hpayer as [Hne Hpayer].
    apply NoDup_cons in Hnd as [Hr Hnd].
    cbn [map] in Hsame. apply Forall2_cons_inv_r in Hsame as (ix' & ixs'' & Hix & Hsame & ->).
    cbn [Ledger.processInstructions] in Hrun.
    destruct (Ledger.processInstruction f ix' s) as [s1|] eqn:Hstep; [|discriminate].
    cbn [mbind option_bind] in Hrun.
    destruct (transfer_exact f ix' s s1 payer r amount Hix Hstep)
      as (Hr1 & Hp1 & Hle1 & Hoth1 & Htab1); [congruence|].
    destruct (IH Hpayer Hnd _ _ _ Hsame Hrun) as (Hrs & Hp & Hle & Hoth & Htab).
    split; [|split; [|split; [|split]]].
    + intros x Hx. apply elem_of_cons in Hx as [->|Hx].
      * rewrite (Hoth r) by congruence. exact Hr1.
      * rewrite (Hrs x Hx). rewrite (Hoth1 x); [done| |]; intros ->; contradiction.
    + rewrite Hp, Hp1. cbn [length]. lia.
    + rewrite Hp1 in Hle. cbn [length]. lia.
    + intros x Hx Hxr. apply not_elem_of_cons in Hxr as [Hxr Hxrs].
      rewrite (Hoth x Hx Hxrs). by apply Hoth1.
    + congruence.
Qed.

(** The transfers go through when the payer holds their total and no
    recipient overflows. *)
Lemma transfers_ok f (payer : N) (amount : Z) (rs : list N) :
  0 <= amount < 2 ^ 64 ->
  payer ∉ rs -> NoDup rs ->
  forall s,
    (N.of_nat (length rs) * Z.to_N amount <= Ledger.balance s payer)%N ->
    (forall r, r ∈ rs -> (Ledger.balance s r + Z.to_N amount < 2 ^ 64)%N) ->
    is_Some (Ledger.processInstructions f
               (map (fun r => SystemProgram.transfer payer r amount) rs) s).
Proof.
  intros Hamount. induction rs as [|r rs IH]; intros Hpayer Hnd s Hbal Hroom.
  - by eexists.
  - apply not_elem_of_cons in Hpayer as [Hne Hpayer].
    apply NoDup_cons in Hnd as [Hr Hnd].
    cbn [map Ledger.processInstructions].
    assert (Hstep : is_Some (Ledger.processInstruction f
                               (SystemProgram.transfer payer r amount) s)).
    { unfold Ledger.processInstruction.
      cbn [SystemProgram.transfer programId data keys pubkey isSigner isWritable].
      change (N.eqb SystemProgram.programId SystemProgram.programId) with true.
      cbn iota. cbn [andb].
      destruct (Z.leb_spec 0 amount); [|lia].
      destruct (Z.ltb_spec amount (2 ^ 64)); [|lia]. cbn [andb].
      unfold Ledger.debit.
      destruct (N.leb_spec (Z.to_N amount) (Ledger.balance s payer));
        [|cbn [length] in Hbal; lia].
      cbn [mbind option_bind]. unfold Ledger.credit.
      rewrite balance_set_balance, decide_False by congruence.
      specialize (Hroom r ltac:(left)).
      destruct (N.ltb_spec (Ledger.balance s r + Z.to_N amount) (2 ^ 64)); [|lia].
      by eexists. }
    destruct Hstep as [s1 Hstep]. rewrite Hstep. cbn [mbind option_bind].
    destruct (transfer_exact f _ s s1 payer r amount ltac:(by repeat split) Hstep)
      as (Hr1 & Hp1 & Hle1 & Hoth1 & Htab1); [congruence|].
    apply IH; [done|done| |].
    + rewrite Hp1. cbn [length] in Hbal. lia.
    + intros x Hx. rewrite Hoth1; [apply Hroom; by right| |]; intros ->; contradiction.
Qed.

(** ** The versioned transaction of the fifty transfers *)

Section V0Transfers.
Variable env : Env.
#[local] Abbreviation pk := (wallet_publicKey env).
#[local] Abbreviation sys := SystemProgram.programId.

(** The message of the transfers to [rs], compiled against a table at
    address [lut]: the wallet and the system program stay in the message, the
    recipients are loaded from the table at [indexes]. *)
#[local] Abbreviation transfersMessage lut blockhash indexes cis :=
  {| header := {| numRequiredSignatures := 1; numReadonlySignedAccounts := 0;
                  numReadonlyUnsignedAccounts := 1 |};
     staticAccountKeys := [pk; sys];
     v0_recentBlockhash := blockhash;
     compiledInstructions := cis;
     addressTableLookups :=
       [{| accountKey := lut; writableIndexes := indexes; readonlyIndexes := [] |}] |}.

#[local] Abbreviation transferShape accountKeys :=
  (fun (ci : MessageCompiledInstruction) (r : N) =>
     exists p a b,
       ci = {| programIdIndex := p; accountKeyIndexes := [a; b];
               ci_data := Transfer (4 * LAMPORTS_PER_SOL) |}
       /\ accountKeys !! p = Some sys
       /\ accountKeys !! a = Some pk
       /\ accountKeys !! b = Some r).

Lemma length_transfersMessage lut blockhash indexes cis (rs : list N) :
  length rs = 50%nat -> length indexes = length rs ->
  Forall2 (transferShape ([pk; sys] ++ rs)) cis rs ->
  length (MessageV0_bytes (transfersMessage lut blockhash indexes cis)) = 1037%nat.
Proof.
  intros Hlen Hilen Hshape. rewrite length_MessageV0_bytes.
  cbn [staticAccountKeys compiledInstructions addressTableLookups length].
  rewrite (length_flat_map_const serializeInstruction 17).
  2:{ apply Forall_forall. intros ci Hci.
      apply list_elem_of_lookup in Hci as (i & Hi).
      destruct (Forall2_lookup_l _ _ _ _ _ Hshape Hi) as (r & _ & p & a & b & -> & _).
      apply length_serializeInstruction_transfer. }
  rewrite (Forall2_length _ _ _ Hshape), Hlen.
  cbn [flat_map]. rewrite app_nil_r. unfold serializeAddressTableLookup.
  cbn [accountKey writableIndexes readonlyIndexes].
  rewrite !length_app, length_toBuffer, !length_map, Hilen, Hlen.
  vm_compute. reflexivity.
Qed.

(** Lines 128-135 on the fifty transfers: the signed transaction and its
    1102 bytes. *)
Lemma compileComposite_transfers (rs : list N) (blockhash : N)
    (lookupTable : AddressLookupTableAccount) :
  length rs = 50%nat ->
  NoDup (sys :: pk :: rs) ->
  (length (state_addresses lookupTable) <= 256)%nat ->
  Forall (fun r => r ∈ state_addresses lookupTable) rs ->
  exists indexes cis bytes,
    compileComposite env (map (transferTo env) rs) [lookupTable] pk blockhash
    = Ok ({| signatures :=
               [ed25519_sign env pk
                  (MessageV0_bytes
                     (transfersMessage (key lookupTable) blockhash indexes cis))];
             message := transfersMessage (key lookupTable) blockhash indexes cis |},
          bytes)
    /\ length bytes = 1102%nat
    /\ Forall2 (fun i r => state_addresses lookupTable !! i = Some r) indexes rs
    /\ Forall2 (transferShape ([pk; sys] ++ rs)) cis rs.
Proof.
  intros Hlen Hnd Htable Hall.
  destruct (compileToV0Message_transfers env rs blockhash lookupTable)
    as (indexes & cis & Hcompile & Hilen & Hidx & Hshape); [|done|lia|done|done|].
  { intros ->. discriminate. }
  pose proof (length_transfersMessage (key lookupTable) blockhash indexes cis rs
                Hlen Hilen Hshape) as Hmsg.
  unfold compileComposite. rewrite Hcompile.
  cbn [mbind Outcome_mbind Outcome_bind].
  unfold VersionedTransaction_sign, VersionedTransaction_serialize,
    VersionedTransaction_new, MessageV0_serialize, sdk_assert.
  cbn [message signatures]. rewrite Hmsg.
  change (Z.of_nat 1037 <=? PACKET_DATA_SIZE) with true.
  cbn [mbind Outcome_mbind Outcome_bind].
  cbn [header numRequiredSignatures staticAccountKeys take JS.findIndex].
  rewrite N.eqb_refl. cbn [mbind Outcome_mbind Outcome_bind message signatures].
  rewrite Hmsg. change (Z.of_nat 1037 <=? PACKET_DATA_SIZE) with true.
  cbn [mbind Outcome_mbind Outcome_bind replicate insert list_insert].
  set (bytes := encodeLength _ ++ _).
  assert (Hbytes : length bytes = 1102%nat).
  { subst bytes. cbn [flat_map].
    rewrite !length_app, length_be_bytes, Hmsg. reflexivity. }
  rewrite Hbytes. change (1102 <=? 2048)%nat with true.
  cbn [mbind Outcome_mbind Outcome_bind].
  exists indexes, cis, bytes. auto.
Qed.

(** What the ledger reads back from that message: the transfers, with the
    privileges the script gave them. *)
Lemma v0Resolve_transfers (s : Ledger.State) (T : Ledger.LookupTable)
    lut blockhash indexes cis (rs : list N) :
  NoDup (sys :: pk :: rs) ->
  Ledger.tables s !! lut = Some T ->
  Forall2 (fun i r => Ledger.addresses T !! i = Some r) indexes rs ->
  Forall2 (transferShape ([pk; sys] ++ rs)) cis rs ->
  Ledger.v0Resolve s (transfersMessage lut blockhash indexes cis)
  = Some (map (transferTo env) rs).
Proof.
  intros Hnd HT Hidx Hshape. unfold Ledger.v0Resolve.
  cbn [addressTableLookups Ledger.loadAddresses accountKey writableIndexes
       readonlyIndexes compiledInstructions].
  rewrite HT. cbn [mbind option_bind].
  apply mapM_Some in Hidx. rewrite Hidx. cbn [mbind option_bind mapM mret option_ret].
  rewrite !app_nil_r.
  unfold Ledger.v0Accounts.
  cbn [staticAccountKeys header imap Ledger.staticMeta numRequiredSignatures
       numReadonlySignedAccounts numReadonlyUnsignedAccounts length fst snd map
       Nat.ltb Nat.leb Nat.sub app].
  rewrite app_nil_r.
  set (accounts := _ :: _ :: map _ rs).
  assert (Hkeys : NoDup ([pk; sys] ++ rs)).
  { apply NoDup_cons in Hnd as [Hs Hnd]. apply NoDup_cons in Hnd as [Hp Hnd].
    cbn [app]. apply NoDup_cons. split.
    - rewrite elem_of_cons. intros [Heq|Hin]; [|done]. apply Hs. rewrite <- Heq. left.
    - apply NoDup_cons. split; [|done]. intros Hin. apply Hs. by right. }
  assert (Hgen : forall cis' rs',
             Forall (fun r => r ∈ rs) rs' ->
             Forall2 (transferShape ([pk; sys] ++ rs)) cis' rs' ->
             mapM (Ledger.v0Instruction accounts) cis'
             = Some (map (transferTo env) rs')).
  { intros cis' rs' Hin Hsh. induction Hsh as [|ci r cis' rs' Hci Hsh IH]; [done|].
    apply Forall_cons in Hin as [Hr Hin].
    destruct Hci as (p & a & b & -> & Hp & Ha & Hb).
    assert (p = 1%nat) as -> by (by eapply NoDup_lookup; [exact Hkeys|exact Hp|]).
    assert (a = 0%nat) as -> by (by eapply NoDup_lookup; [exact Hkeys|exact Ha|]).
    assert (Hb' : accounts !! b
                  = Some {| pubkey := r; isSigner := false; isWritable := true |}).
    { destruct b as [|[|i]].
      - cbn in Hb. injection Hb as <-.
        apply NoDup_cons in Hnd as [_ Hnd]. apply NoDup_cons in Hnd as [Hp' _].
        contradiction.
      - cbn in Hb. injection Hb as <-.
        apply NoDup_cons in Hnd as [Hs' _]. exfalso. apply Hs'. by right.
      - change (rs !! i = Some r) in Hb.
        assert (Hi : map (fun k => {| pubkey := k; isSigner := false;
                                      isWritable := true |}) rs !! i
                     = Some {| pubkey := r; isSigner := false; isWritable := true |})
          by (by rewrite list_lookup_fmap, Hb).
        exact Hi. }
    cbn [mapM map].
    rewrite (v0Instruction_Some accounts 1 [0%nat; b] (Transfer (4 * LAMPORTS_PER_SOL))
               {| pubkey := sys; isSigner := false; isWritable := false |}
               [{| pubkey := pk; isSigner := true; isWritable := true |};
                {| pubkey := r; isSigner := false; isWritable := true |}]).
    2:{ reflexivity. }
    2:{ cbn [mapM]. rewrite Hb'. reflexivity. }
    cbn [mbind option_bind]. rewrite (IH Hin). reflexivity. }
  apply Hgen; [|exact Hshape]. by apply Forall_forall.
Qed.

End V0Transfers.

(** ** The requests of the provider, step by step *)

Section ProviderRuns.
Variable env : Env.
#[local] Abbreviation pk := (wallet_publicKey env).

Lemma requestAirdrop_run to amount (w : World) :
  requestAirdrop env to amount w =
    match fault env (requests w) with
    | Some msg =>
        (Throw (RpcError msg), sent w (ledger w) [Submitted (Airdrop to amount)])
    | None =>
        match Ledger.credit to (Z.to_N amount) (ledger w) with
        | Some s' => (Ok (Airdrop to amount), sent w s' [Submitted (Airdrop to amount)])
        | None => (Throw (RpcError "airdrop request failed"),
                   sent w (ledger w) [Submitted (Airdrop to amount)])
        end
    end.
Proof.
  unfold requestAirdrop. run_monad.
  destruct (fault env (requests w)); [reflexivity|].
  cbn [ledger]. by destruct (Ledger.credit _ _ _).
Qed.

Lemma confirmTransaction_run sig (w : World) :
  confirmTransaction env sig w =
    match fault env (requests w) with
    | Some msg => (Throw (RpcError msg), sent w (ledger w) [])
    | None => (Ok tt, sent w (ledger w) [Confirmed sig])
    end.
Proof.
  unfold confirmTransaction, sent. run_monad. rewrite app_nil_r.
  by destruct (fault env (requests w)).
Qed.

Lemma getLatestBlockhash_run (w : World) :
  getLatestBlockhash env w =
    match fault env (requests w) with
    | Some msg => (Throw (RpcError msg), sent w (ledger w) [])
    | None => (Ok (latestBlockhash env (requests w)), sent w (ledger w) [])
    end.
Proof.
  unfold getLatestBlockhash, sent. run_monad. rewrite app_nil_r.
  by destruct (fault env (requests w)).
Qed.

Lemma sendTransaction_run (tx : VersionedTransaction) (w : World) :
  sendTransaction env tx w =
    match VersionedTransaction_serialize tx with
    | Ok wireTransaction =>
        let w1 := sent w (ledger w) [Submitted (Versioned tx)] in
        match fault env (requests w) with
        | Some msg => (Throw (RpcError msg), w1)
        | None =>
            if Z.of_nat (length wireTransaction) <=? PACKET_DATA_SIZE then
              if validSignatures env tx then
                match Ledger.v0Resolve (ledger w) (message tx)
                      ≫= fun ixs => Ledger.processInstructions
                                       (findProgramAddressSync env) ixs (ledger w) with
                | Some s' => (Ok (Versioned tx), sent w s' [Submitted (Versioned tx)])
                | None => (Throw (RpcError "Transaction simulation failed"), w1)
                end
              else (Throw (RpcError "Transaction signature verification failure"), w1)
            else (Throw (RpcError "transaction too large"), w1)
        end
    | Throw e => (Throw e, w)
    | OutOfFuel => (OutOfFuel, w)
    end.
Proof.
  unfold sendTransaction. run_monad.
  destruct (VersionedTransaction_serialize tx) as [wire|e|]; [|reflexivity..].
  cbn [ledger requests keypairs clock trace console].
  destruct (fault env (requests w)); [reflexivity|].
  destruct (Z.of_nat (length wire) <=? PACKET_DATA_SIZE); [|reflexivity].
  destruct (validSignatures env tx); [|reflexivity].
  cbn [ledger requests keypairs clock trace console].
  destruct (Ledger.v0Resolve (ledger w) (message tx)) as [ixs|]; [|reflexivity].
  cbn [mbind option_bind].
  by destruct (Ledger.processInstructions _ ixs (ledger w)).
Qed.

(** The loop of lines 144-150 on a network that answers every request: it
    stops at the first recipient that holds less than 4 SOL, after logging
    its balance. *)
Lemma checkBalances_run (recipients : list PublicKey) :
  forall i w,
    (forall j, (j < length recipients)%nat -> fault env (requests w + j) = None) ->
    checkBalances env i recipients w =
      match list_find (fun r => (Ledger.balance (ledger w) r < 4000000000)%N)
                      recipients with
      | Some (k, _) => (Throw AssertionError, balancesChecked w i recipients (S k))
      | None => (Ok tt, balancesChecked w i recipients (length recipients))
      end.
Proof.
  induction recipients as [|r rs IH]; intros i w Hf.
  - cbn. unfold balancesChecked. cbn. rewrite app_nil_r, Nat.add_0_r. by destruct w.
  - cbn [checkBalances]. unfold getBalance. run_monad.
    pose proof (Hf 0%nat ltac:(cbn; lia)) as H0. rewrite Nat.add_0_r in H0.
    rewrite H0. cbn [ledger].
    cbn [list_find]. unfold decide_rel.
    destruct (decide (Ledger.balance (ledger w) r < 4000000000)%N) as [Hpoor|Hrich].
    + destruct (Z.leb_spec (4 * LAMPORTS_PER_SOL) (Z.of_N (Ledger.balance (ledger w) r)))
        as [Hle|_].
      { unfold LAMPORTS_PER_SOL in Hle. lia. }
      unfold balancesChecked. cbn [take imap]. rewrite Nat.add_0_r, Nat.add_1_r.
      reflexivity.
    + destruct (Z.leb_spec (4 * LAMPORTS_PER_SOL) (Z.of_N (Ledger.balance (ledger w) r)))
        as [_|Hlt].
      2:{ unfold LAMPORTS_PER_SOL in Hlt. lia. }
      rewrite IH.
      2:{ intros j Hj. cbn [requests].
          replace (S (requests w) + j)%nat with (requests w + S j)%nat by lia.
          apply Hf. cbn. lia. }
      cbn [ledger]. unfold balancesChecked.
      destruct (list_find _ rs) as [[k x]|]; cbn [fmap option_fmap option_map prod_map fst snd];
        cbn [ledger requests keypairs clock trace console take imap length];
        rewrite <- app_assoc; cbn [app]; rewrite Nat.add_0_r.
      * f_equal. f_equal; [lia|]. f_equal. f_equal. apply imap_ext.
        intros j x' _. cbn. f_equal. lia.
      * f_equal. f_equal; [lia|]. f_equal. f_equal. apply imap_ext.
        intros j x' _. cbn. f_equal. lia.
Qed.

(** ** The extension on a network that refuses nothing *)

Lemma submitAll_extend_ok lut (cs : list (list N)) :
  forall w t,
    Ledger.tables (ledger w) !! lut = Some t ->
    Ledger.authority t = pk ->
    Forall (fun c => (1 <= length c <= 30)%nat) cs ->
    (length (Ledger.addresses t) + length (concat cs)
     <= Ledger.LOOKUP_TABLE_MAX_ADDRESSES)%nat ->
    (forall j, (j < length cs)%nat -> fault env (requests w + j) = None) ->
    fst (submitAll env (map (extendTransaction env lut) cs) w) = Ok tt.
Proof.
  induction cs as [|c cs IH]; intros w t Ht Hauth Hcs Hroom Hf; [reflexivity|].
  apply Forall_cons in Hcs as [Hc Hcs].
  cbn [map submitAll]. rewrite bind_run, sendAndConfirm_run by apply extend_signers.
  cbv zeta. rewrite prepared_serialize_length.
  change (default pk (feePayer (extendTransaction env lut c))) with pk.
  change (tx_instructions (extendTransaction env lut c))
    with [AddressLookupTableProgram.extendLookupTable pk pk lut c].
  pose proof (extend_wire_length_le env lut c ltac:(lia)) as Hsize.
  destruct (Z.leb_spec (Z.of_nat (legacyWireLength pk
              [AddressLookupTableProgram.extendLookupTable pk pk lut c]))
              PACKET_DATA_SIZE) as [_|Hbig];
    [|unfold PACKET_DATA_SIZE in Hbig; lia].
  pose proof (Hf 0%nat ltac:(cbn; lia)) as H0. rewrite Nat.add_0_r in H0. rewrite H0.
  pose proof (extend_process env lut c (ledger w)) as Hp.
  change (default pk (feePayer (extendTransaction env lut c))) with pk in Hp.
  change (tx_instructions (extendTransaction env lut c))
    with [AddressLookupTableProgram.extendLookupTable pk pk lut c] in Hp.
  rewrite Hp, Ht, Hauth, N.eqb_refl. clear Hp.
  cbn [concat] in Hroom. rewrite length_app in Hroom.
  destruct (Nat.eqb_spec (length c) 0) as [Hz|_]; [lia|].
  destruct (Nat.leb_spec (length (Ledger.addresses t) + length c)
                         Ledger.LOOKUP_TABLE_MAX_ADDRESSES) as [_|Hover]; [|lia].
  cbn [andb negb].
  apply (IH _ (extended c t)).
  - cbn [sent ledger Ledger.set_table Ledger.tables]. apply lookup_insert_eq.
  - exact Hauth.
  - exact Hcs.
  - cbn [extended Ledger.addresses]. rewrite length_app. lia.
  - intros j Hj. cbn [sent requests].
    replace (S (requests w) + j)%nat with (requests w + S j)%nat by lia.
    apply Hf. cbn. lia.
Qed.

End ProviderRuns.

Lemma alter_lookup_insert {A : Type} (f : A -> A) (m : gmap N A) (i : N) (x : A) :
  m !! i = Some x -> alter f i m = <[i := f x]> m.
Proof.
  intros H. rewrite <- (insert_id m i x H) at 1. apply alter_insert_eq.
Qed.

Lemma length_chunks_le {A : Type} (chunks : list (list A)) :
  Forall (fun c => (1 <= length c)%nat) chunks ->
  (length chunks <= length (concat chunks))%nat.
Proof.
  induction 1 as [|c cs Hc _ IH]; cbn [concat length]; [lia|].
  rewrite length_app. lia.
Qed.

Section ExtendOk.
Variable env : Env.
#[local] Abbreviation pk := (wallet_publicKey env).

(** The loop of lines 99-109 when nothing is refused: every chunk goes
    through and the table ends with the addresses appended. *)
Lemma extendTable_ok lut (lookupAccounts : list N) (b : Z) (w : World)
    (t : Ledger.LookupTable) :
  1 <= b <= 30 ->
  Ledger.tables (ledger w) !! lut = Some t ->
  Ledger.authority t = pk ->
  (length (Ledger.addresses t) + length lookupAccounts
   <= Ledger.LOOKUP_TABLE_MAX_ADDRESSES)%nat ->
  (forall j, (j < length lookupAccounts)%nat -> fault env (requests w + j) = None) ->
  exists chunks w',
    planBatches lookupAccounts b = Some chunks
    /\ extendTable env lut lookupAccounts b w = (Ok tt, w')
    /\ Ledger.tables (ledger w')
       = <[lut := extended lookupAccounts t]> (Ledger.tables (ledger w))
    /\ Ledger.lamports (ledger w') = Ledger.lamports (ledger w)
    /\ requests w' = (requests w + length chunks)%nat
    /\ keypairs w' = keypairs w /\ clock w' = clock w /\ console w' = console w
    /\ trace w'
       = trace w
         ++ confirmedPairs
              (preparedFrom env (requests w) (map (extendTransaction env lut) chunks)).
Proof.
  intros Hb Ht Hauth Hroom Hf.
  destruct (batchLoop_from (S (length lookupAccounts)) lookupAccounts b 0)
    as (chunks & Hplan & Hconcat & Hsizes & _); [lia|lia|lia|].
  change (drop (Z.to_nat 0) lookupAccounts) with lookupAccounts in Hconcat.
  assert (Hlen : (length chunks <= length lookupAccounts)%nat).
  { rewrite <- Hconcat. apply length_chunks_le.
    eapply Forall_impl; [exact Hsizes|]. cbn. intros c Hc. lia. }
  exists chunks.
  destruct (extendTable env lut lookupAccounts b w) as [r w'] eqn:Hrun.
  exists w'. split; [exact Hplan|].
  unfold extendTable in Hrun.
  rewrite (extendLoop_submitAll env lut lookupAccounts b _ 0 chunks w Hplan) in Hrun.
  pose proof (submitAll_extend_ok env lut chunks w t Ht Hauth) as Hok.
  rewrite Hrun in Hok. cbn [fst] in Hok.
  assert (r = Ok tt) as ->.
  { apply Hok.
    - eapply Forall_impl; [exact Hsizes|]. cbn. intros c Hc. lia.
    - by rewrite Hconcat.
    - intros j Hj. apply Hf. lia. }
  destruct (submitAll_extend env lut chunks w (Ok tt) w' Hrun)
    as (k & pending & Htrace & Htab & Hlam & Hkp & Hclk & Hcon & Hcase).
  destruct Hcase as [(_ & -> & -> & Hreq)|(e & c & Habs & _)]; [|discriminate].
  rewrite firstn_all in Htab. rewrite Hconcat in Htab.
  rewrite take_ge in Htrace.
  2:{ unfold preparedFrom. by rewrite length_imap, length_map. }
  rewrite app_nil_r in Htrace.
  rewrite (alter_lookup_insert _ _ _ _ Ht) in Htab.
  auto 10.
Qed.

End ExtendOk.

(** ** A program logic with a postcondition for failures *)

Lemma hoare_bind {A B : Type} (P : World -> Prop) (m : M A)
    (Q : A -> World -> Prop) (f : A -> M B) (R : B -> World -> Prop)
    (E : option Error -> World -> Prop) :
  hoare P m Q E -> (forall a, hoare (Q a) (f a) R E) -> hoare P (m ≫= f) R E.
Proof.
  intros Hm Hf w HP. rewrite bind_run. specialize (Hm w HP).
  destruct (m w) as [[a|e|] w1]; [|exact Hm..].
  apply (Hf a w1 Hm).
Qed.

Lemma hoare_weaken {A : Type} (P P' : World -> Prop) (m : M A)
    (Q Q' : A -> World -> Prop) (E E' : option Error -> World -> Prop) :
  hoare P' m Q' E' ->
  (forall w, P w -> P' w) -> (forall a w, Q' a w -> Q a w) ->
  (forall o w, E' o w -> E o w) ->
  hoare P m Q E.
Proof.
  intros Hm HP HQ HE w Hw. specialize (Hm w (HP w Hw)).
  destruct (m w) as [[a|e|] w1]; auto.
Qed.

Lemma hoare_ret {A : Type} (P : World -> Prop) (a : A) (Q : A -> World -> Prop)
    (E : option Error -> World -> Prop) :
  (forall w, P w -> Q a w) -> hoare P (mret a) Q E.
Proof. intros H w Hw. cbn. auto. Qed.

Lemma hoare_pure {A : Type} (phi : Prop) (P : World -> Prop) (m : M A)
    (Q : A -> World -> Prop) (E : option Error -> World -> Prop) :
  (phi -> hoare P m Q E) -> hoare (fun w => phi /\ P w) m Q E.
Proof. intros H w [Hphi Hw]. by apply H. Qed.

Lemma refusal_rpc msg : refusal (Some (RpcError msg)).
Proof. by exists msg. Qed.

Section ExtendRpc.
Variable env : Env.
#[local] Abbreviation pk := (wallet_publicKey env).

(** With chunks of at most 30 addresses, the only errors of the loop are
    refusals of the network, and the table it leaves holds at most 256
    addresses. *)
Lemma submitAll_extend_refusal lut (cs : list (list N)) :
  Forall (fun c => (length c <= 30)%nat) cs ->
  forall w r w',
    submitAll env (map (extendTransaction env lut) cs) w = (r, w') ->
    (r = Ok tt
     /\ (cs <> [] ->
         exists t', Ledger.tables (ledger w') !! lut = Some t'
                    /\ (length (Ledger.addresses t')
                        <= Ledger.LOOKUP_TABLE_MAX_ADDRESSES)%nat))
    \/ (exists msg, r = Throw (RpcError msg)).
Proof.
  induction cs as [|c cs IH]; intros Hcs w r w' Hrun.
  - injection Hrun as <- <-. left. by split.
  - apply Forall_cons in Hcs as [Hc Hcs].
    cbn [map submitAll] in Hrun.
    rewrite bind_run, sendAndConfirm_run in Hrun by apply extend_signers.
    cbv zeta in Hrun. rewrite prepared_serialize_length in Hrun.
    pose proof (extend_process env lut c (ledger w)) as Hp.
    change (default pk (feePayer (extendTransaction env lut c))) with pk in *.
    change (tx_instructions (extendTransaction env lut c))
      with [AddressLookupTableProgram.extendLookupTable pk pk lut c] in *.
    pose proof (extend_wire_length_le env lut c Hc) as Hsize.
    destruct (Z.leb_spec (Z.of_nat (legacyWireLength pk
                [AddressLookupTableProgram.extendLookupTable pk pk lut c]))
                PACKET_DATA_SIZE) as [_|Hbig];
      [|unfold PACKET_DATA_SIZE in Hbig; lia].
    destruct (fault env (requests w)) as [msg|].
    { injection Hrun as <- _. right. by exists msg. }
    rewrite Hp in Hrun. clear Hp.
    destruct (Ledger.tables (ledger w) !! lut) as [t|] eqn:Ht.
    2:{ injection Hrun as <- _. right. by eexists. }
    destruct (N.eqb (Ledger.authority t) pk && negb (length c =? 0)%nat) eqn:Hcond;
      cbn [andb] in Hrun.
    2:{ injection Hrun as <- _. right. by eexists. }
    destruct (Nat.leb_spec (length (Ledger.addresses t) + length c)
                           Ledger.LOOKUP_TABLE_MAX_ADDRESSES) as [Hfits|_].
    2:{ injection Hrun as <- _. right. by eexists. }
    destruct (IH Hcs _ _ _ Hrun) as [[-> Htab]|Hfail]; [|by right].
    left. split; [done|]. intros _.
    destruct cs as [|c' cs'].
    + injection Hrun as <-. world.
      exists (extended c t). split.
      * cbn [Ledger.set_table Ledger.tables]. apply lookup_insert_eq.
      * cbn [extended Ledger.addresses]. by rewrite length_app.
    + by apply Htab.
Qed.

End ExtendRpc.

(** ** Reading a compiled message back *)

Lemma compileComposite_serialize env ixs ts payer bh v0 bytes :
  compileComposite env ixs ts payer bh = Ok (v0, bytes) ->
  VersionedTransaction_serialize v0 = Ok bytes.
Proof.
  unfold compileComposite. intros H.
  apply Outcome_bind_Ok in H as (msg & _ & H).
  apply Outcome_bind_Ok in H as (tx & _ & H).
  apply Outcome_bind_Ok in H as (bytes' & Hser & H).
  by injection H as -> ->.
Qed.

(** A message compiled against tables that the ledger holds always
    resolves. *)
Lemma compile_resolves (s : Ledger.State) (message : TransactionMessage)
    (lookupTables : list AddressLookupTableAccount) (msg : MessageV0) :
  tablesAgree s lookupTables ->
  compileToV0Message message lookupTables = Ok msg ->
  exists ixs', Ledger.v0Resolve s msg = Some ixs'
               /\ Forall2 sameInstruction ixs' (instructions message).
Proof.
  intros Hagree Hcompile. unfold compileToV0Message in Hcompile.
  apply Outcome_bind_Ok in Hcompile as ([[lookups [writable readonly]] m'] & Hex & H).
  apply Outcome_bind_Ok in H as ([h static] & Hcomp & H).
  apply Outcome_bind_Ok in H as (cis & Hcis & H). injection H as <-.
  unfold Ledger.v0Resolve.
  cbn [addressTableLookups compiledInstructions].
  rewrite (extract_load s lookupTables Hagree _ _ _ _ _ Hex).
  cbn [mbind option_bind].
  unfold compileInstructions in Hcis.
  apply Outcome_bind_Ok in Hcis as ([] & _ & Hcis).
  set (msg := {| header := h |}) in *.
  assert (Hkeys : static ++ writable ++ readonly
                  = map pubkey (Ledger.v0Accounts msg (writable, readonly))).
  { by rewrite v0Accounts_pubkeys. }
  rewrite Hkeys in Hcis.
  exact (compileInstructions_resolve _ _ _ Hcis).
Qed.

(** ** A run in which nothing is refused *)

Section Success.
Variable env : Env.

#[local] Abbreviation pk := (wallet_publicKey env).
End Success.


(** ** Every run, on fresh keys *)

Lemma checkBalances_rich (env : Env) (rs : list N) :
  forall i w,
    (forall r, r ∈ rs -> (4000000000 <= Ledger.balance (ledger w) r)%N) ->
    ledger (snd (checkBalances env i rs w)) = ledger w
    /\ (fst (checkBalances env i rs w) = Ok tt
        \/ exists msg, fst (checkBalances env i rs w) = Throw (RpcError msg)).
Proof.
  induction rs as [|r rs IH]; intros i w Hrich.
  - cbn. auto.
  - cbn [checkBalances]. unfold getBalance. run_monad.
    destruct (fault env (requests w)) as [msg|]; [cbn; eauto|].
    cbn [ledger].
    destruct (Z.leb_spec (4 * LAMPORTS_PER_SOL) (Z.of_N (Ledger.balance (ledger w) r)))
      as [_|Hlt].
    2:{ specialize (Hrich r ltac:(left)). unfold LAMPORTS_PER_SOL in Hlt. lia. }
    match goal with |- context [checkBalances env ?j rs ?w1] =>
      destruct (IH j w1) as [Hl Hr] end.
    { world. intros r' Hr'. apply Hrich. by right. }
    rewrite Hl. world. auto.
Qed.

Section Outcomes.
Variable env : Env.
Variable w0 : World.
#[local] Abbreviation pk := (wallet_publicKey env).
#[local] Abbreviation sys := SystemProgram.programId.
#[local] Abbreviation recipients :=
  (map (Keypair_generate env) (seq (keypairs w0) 50)).
#[local] Abbreviation untouched :=
  (fun w : World => othersUntouched pk (ledger w0) (ledger w)).
#[local] Abbreviation paid :=
  (fun w : World => recipientsPaid pk recipients 4000000000 (ledger w0) (ledger w)).
#[local] Abbreviation stopped :=
  (fun (o : option Error) (w : World) => refusal o /\ (untouched w \/ paid w)).

Hypothesis Hnd : NoDup (sys :: pk :: recipients).

Lemma recipients_length : length recipients = 50%nat.
Proof. by rewrite length_map, length_seq. Qed.

Lemma main_outcomes :
  hoare (fun w => w = w0) (main env) (fun _ w => paid w) stopped.
Proof.
  pose proof Hnd as Hnd0.
  apply NoDup_cons in Hnd0 as [Hsys Hnd0]. apply NoDup_cons in Hnd0 as [Hpk Hnd'].
  unfold main.
  (* the airdrop *)
  eapply hoare_bind with (Q := fun _ w => untouched w /\ keypairs w = keypairs w0).
  { intros w ->. rewrite requestAirdrop_run.
    destruct (fault env (requests w0)) as [msg|]; world.
    { split; [apply refusal_rpc|left; by intros x Hx]. }
    unfold Ledger.credit. destruct (_ <? _)%N; world.
    - split; [|done]. intros x Hx. by rewrite balance_set_balance, decide_False.
    - split; [apply refusal_rpc|left; by intros x Hx]. }
  intros sig. eapply hoare_bind with (Q := fun _ w => untouched w /\ keypairs w = keypairs w0).
  { intros w [Hu Hk]. rewrite confirmTransaction_run.
    destruct (fault env (requests w)) as [msg|]; world; [|done].
    split; [apply refusal_rpc|by left]. }
  intros _. eapply hoare_bind with (Q := fun rs w => rs = recipients /\ untouched w).
  { intros w [Hu Hk]. rewrite generateRecipients_run. world. by rewrite Hk. }
  intros rs. apply hoare_pure. intros ->. cbv zeta.
  eapply hoare_bind with (Q := fun _ w => untouched w).
  { intros w Hu. rewrite getLatestBlockhash_run.
    destruct (fault env (requests w)) as [msg|]; world; [|done].
    split; [apply refusal_rpc|by left]. }
  intros blockInfo.
  (* the table *)
  eapply hoare_bind
    with (Q := fun lut w => untouched w /\ is_Some (Ledger.tables (ledger w) !! lut)).
  { intros w Hu. rewrite createTable_run. cbv zeta.
    destruct (fault env (requests w)) as [msg|]; world.
    { split; [apply refusal_rpc|by left]. }
    destruct (fault env (S (requests w))) as [msg|]; world.
    { split; [apply refusal_rpc|by left]. }
    destruct (Ledger.tables (ledger w) !! _) as [t|] eqn:Ht.
    - split; [done|]. by rewrite Ht.
    - split; [exact Hu|]. cbn [Ledger.set_table Ledger.tables].
      rewrite lookup_insert_eq. by eexists. }
  intros lut.
  remember ([sys; pk] ++ recipients) as lookupAccounts eqn:HLA.
  eapply hoare_bind
    with (Q := fun _ w =>
                 untouched w
                 /\ exists t, Ledger.tables (ledger w) !! lut = Some t
                              /\ (length (Ledger.addresses t) <= 256)%nat
                              /\ Forall (fun r => r ∈ Ledger.addresses t) recipients).
  { intros w [Hu [t Ht]].
    destruct (batchLoop_from (S (length lookupAccounts)) lookupAccounts batch 0)
      as (chunks & Hplan & Hconcat & Hsizes & _); [unfold batch; lia|lia|lia|].
    change (drop (Z.to_nat 0) lookupAccounts) with lookupAccounts in Hconcat.
    unfold extendTable.
    rewrite (extendLoop_submitAll env lut lookupAccounts batch _ 0 chunks w Hplan).
    destruct (submitAll env (map (extendTransaction env lut) chunks) w) as [r w'] eqn:Hrun.
    destruct (submitAll_extend env lut chunks w r w' Hrun)
      as (k & pending & _ & Htab & Hlam & _ & _ & _ & Hcase).
    assert (Hu' : untouched w').
    { intros x Hx. unfold Ledger.balance. rewrite Hlam. by apply Hu. }
    assert (Hsmall : Forall (fun c : list N => (length c <= 30)%nat) chunks).
    { eapply Forall_impl; [exact Hsizes|]. intros c Hc. cbv beta in Hc.
      unfold batch in Hc. lia. }
    destruct (submitAll_extend_refusal env lut chunks Hsmall w r w' Hrun)
      as [[-> Hlen]|[msg ->]].
    2:{ split; [apply refusal_rpc|by left]. }
    split; [exact Hu'|].
    destruct Hlen as (t' & Ht' & Hlen'); [intros ->; subst lookupAccounts; discriminate|].
    exists t'. split; [exact Ht'|]. split; [exact Hlen'|].
    destruct Hcase as [(_ & -> & _)|(e & c & Habs & _)]; [|discriminate].
    rewrite firstn_all, Hconcat in Htab.
    rewrite Htab, lookup_alter_eq, Ht in Ht'. injection Ht' as <-.
    apply Forall_forall. intros r Hr. cbn [extended Ledger.addresses].
    apply elem_of_app. right. subst lookupAccounts. by do 2 right. }
  intros _.
  (* the fetch *)
  eapply hoare_bind
    with (Q := fun lookupTable w =>
                 untouched w
                 /\ exists t, Ledger.tables (ledger w) !! key lookupTable = Some t
                              /\ Ledger.addresses t = state_addresses lookupTable
                              /\ (length (Ledger.addresses t) <= 256)%nat
                              /\ Forall (fun r => r ∈ Ledger.addresses t) recipients).
  { intros w (Hu & t & Ht & Hlen & Hin). rewrite awaitActivation_run. cbv zeta.
    destruct (fault env (requests w)) as [msg|]; world.
    { split; [apply refusal_rpc|by left]. }
    rewrite Ht. world. split; [exact Hu|]. exists t. by cbn. }
  intros lookupTable.
  (* the versioned transaction *)
  eapply hoare_bind
    with (Q := fun v0 w =>
                 untouched w
                 /\ exists t indexes cis bytes blockhash,
                      Ledger.tables (ledger w) !! key lookupTable = Some t
                      /\ VersionedTransaction_serialize v0 = Ok bytes
                      /\ length bytes = 1102%nat
                      /\ validSignatures env v0 = true
                      /\ Ledger.v0Resolve (ledger w) (message v0)
                         = Some (map (transferTo env) recipients)).
  { intros w (Hu & t & Ht & Haddr & Hlen & Hin). rewrite compileStep_run. cbv zeta.
    destruct (fault env (requests w)) as [msg|]; world.
    { split; [apply refusal_rpc|by left]. }
    rewrite transferInstructions_map by apply recipients_length.
    destruct (compileComposite_transfers env recipients
                (fst (latestBlockhash env (requests w))) lookupTable)
      as (indexes & cis & bytes & Hcompile & Hbytes & Hidx & Hshape);
      [apply recipients_length|exact Hnd|by rewrite <- Haddr|by rewrite <- Haddr|].
    rewrite Hcompile. world. split; [exact Hu|].
    exists t, indexes, cis, bytes, (fst (latestBlockhash env (requests w))).
    split; [exact Ht|]. split.
    { exact (compileComposite_serialize _ _ _ _ _ _ _ Hcompile). }
    split; [exact Hbytes|]. split.
    { unfold validSignatures. apply bool_decide_eq_true_2. reflexivity. }
    apply (v0Resolve_transfers env (ledger w) t); [exact Hnd|exact Ht| |exact Hshape].
    by rewrite Haddr. }
  intros v0.
  eapply hoare_bind with (Q := fun _ w => paid w).
  { intros w (Hu & t & indexes & cis & bytes & blockhash & Ht & Hwire & Hbytes & Hsig & Hres).
    rewrite sendTransaction_run, Hwire. cbv zeta.
    destruct (fault env (requests w)) as [msg|]; world.
    { split; [apply refusal_rpc|by left]. }
    rewrite Hbytes. change (Z.of_nat 1102 <=? PACKET_DATA_SIZE) with true. cbv iota.
    rewrite Hsig, Hres. cbn [mbind option_bind].
    destruct (Ledger.processInstructions _ _ (ledger w)) as [s'|] eqn:Hrun; world.
    2:{ split; [apply refusal_rpc|by left]. }
    destruct (transfers_exact (findProgramAddressSync env) pk (4 * LAMPORTS_PER_SOL)
                recipients Hpk Hnd' (map (transferTo env) recipients) (ledger w) s')
      as (Hrs & _ & _ & Hoth & _); [|exact Hrun|].
    { apply Forall_Forall2_diag, Forall_forall. intros ix _. by repeat split. }
    change (Z.to_N (4 * LAMPORTS_PER_SOL)) with 4000000000%N in Hrs.
    split.
    - intros r Hr. rewrite (Hrs r Hr), Hu; [done|]. intros ->. contradiction.
    - intros x Hx Hxr. rewrite (Hoth x Hx Hxr). by apply Hu. }
  intros sig'.
  eapply hoare_bind with (Q := fun _ w => paid w).
  { intros w Hp. rewrite confirmTransaction_run.
    destruct (fault env (requests w)) as [msg|]; world; [|done].
    split; [apply refusal_rpc|by right]. }
  intros _. eapply hoare_bind with (Q := fun _ w => paid w).
  { intros w Hp. exact Hp. }
  intros _ w Hp.
  destruct (checkBalances_rich env recipients 0 w) as [Hl Hr].
  { intros r Hr. destruct Hp as [Hp _]. rewrite (Hp r Hr). lia. }
  destruct (checkBalances env 0 recipients w) as [[[]|e|] w'];
    cbn [fst snd] in Hl, Hr; rewrite Hl.
  - exact Hp.
  - destruct Hr as [?|[msg [= ->]]]; [discriminate|].
    split; [apply refusal_rpc|by right].
  - destruct Hr as [?|[msg ?]]; discriminate.
Qed.

End Outcomes.







(** ** Every run, whatever the keys *)

Lemma confirmedPairs_prefix (txs : list Transaction) :
  forall k pending rest,
    (pending = []
     \/ exists tx, txs !! k = Some tx /\ pending = [Submitted (Legacy tx)]) ->
    confirmedPairs (take k txs) ++ pending `prefix_of` confirmedPairs txs ++ rest.
Proof.
  induction txs as [|tx txs IH]; intros k pending rest Hp.
  - rewrite take_nil. destruct Hp as [->|(tx & Hk & _)]; [|by destruct k].
    apply prefix_nil.
  - destruct k as [|k].
    + cbn [take confirmedPairs flat_map app].
      destruct Hp as [->|(tx' & [= <-] & ->)]; [apply prefix_nil|].
      apply prefix_cons, prefix_nil.
    + cbn [take confirmedPairs flat_map app]. do 2 apply prefix_cons.
      apply (IH k pending rest). destruct Hp as [->|(tx' & Hk & ->)]; eauto.
Qed.

Lemma checkBalances_frame (env : Env) (rs : list N) :
  forall i w,
    let r := fst (checkBalances env i rs w) in
    let w' := snd (checkBalances env i rs w) in
    ledger w' = ledger w /\ trace w' = trace w /\ keypairs w' = keypairs w
    /\ clock w' = clock w
    /\ (requests w' <= requests w + length rs)%nat
    /\ (r = Ok tt -> requests w' = (requests w + length rs)%nat)
    /\ (r = Ok tt \/ r = Throw AssertionError \/ exists msg, r = Throw (RpcError msg)).
Proof.
  induction rs as [|x rs IH]; intros i w.
  - cbn. repeat split; try lia. auto.
  - cbn [checkBalances]. unfold getBalance. run_monad.
    destruct (fault env (requests w)) as [msg|].
    { cbn. repeat split; try lia; [discriminate|eauto]. }
    cbn [ledger].
    destruct (4 * LAMPORTS_PER_SOL <=? _).
    2:{ cbn. repeat split; try lia; [discriminate|eauto]. }
    match goal with |- context [checkBalances env ?j rs ?w1] =>
      specialize (IH j w1); destruct (checkBalances env j rs w1) as [r w'] end.
    cbn [fst snd ledger requests keypairs clock trace console length] in *.
    destruct IH as (-> & -> & -> & -> & Hle & Heq & Hr).
    repeat split; [lia| |exact Hr]. intros H. rewrite (Heq H). lia.
Qed.

Section Shape.
Variable env : Env.
Variable w0 : World.
#[local] Abbreviation pk := (wallet_publicKey env).
#[local] Abbreviation sys := SystemProgram.programId.
#[local] Abbreviation recipients :=
  (map (Keypair_generate env) (seq (keypairs w0) 50)).
#[local] Abbreviation lookupAccounts := ([sys; pk] ++ recipients).
#[local] Abbreviation slot := (finalizedSlot env (S (S (S (requests w0))))).
#[local] Abbreviation lut := (fst (findProgramAddressSync env pk slot)).
#[local] Abbreviation createTx :=
  (add Transaction_empty
     (fst (AddressLookupTableProgram.createLookupTable
             (findProgramAddressSync env) pk pk slot))).
#[local] Abbreviation chunks :=
  [take 15 lookupAccounts; take 15 (drop 15 lookupAccounts);
   take 15 (drop 30 lookupAccounts); drop 45 lookupAccounts].
#[local] Abbreviation airdrop := (Airdrop pk airdropAmount).
#[local] Abbreviation createEvents :=
  (confirmedPairs [prepared env (S (S (S (S (requests w0))))) createTx]).
#[local] Abbreviation extendEvents :=
  (confirmedPairs
     (preparedFrom env (S (S (S (S (S (requests w0))))))
        (map (extendTransaction env lut) chunks))).

#[local] Abbreviation fetched time :=
  ([Submitted airdrop; Confirmed airdrop] ++ createEvents ++ extendEvents
     ++ [Fetched lut time]).

Lemma scriptTrace_eq time v0 :
  scriptTrace env w0 time v0
  = [Submitted airdrop; Confirmed airdrop] ++ createEvents ++ extendEvents
    ++ [Fetched lut time; Submitted (Versioned v0); Confirmed (Versioned v0)].
Proof.
  unfold scriptTrace.
  replace (requests w0 + 3)%nat with (S (S (S (requests w0)))) by lia.
  replace (requests w0 + 4)%nat with (S (S (S (S (requests w0))))) by lia.
  pose proof (createLookupTable_address env slot) as Haddr.
  destruct (AddressLookupTableProgram.createLookupTable _ _ _ _) as [create lut'].
  cbn [fst snd] in *. subst lut'.
  rewrite planBatches_52 by (cbn [length app]; by rewrite length_map, length_seq).
  cbn [default]. rewrite preparedFrom_cons.
  unfold confirmedPairs. cbn [flat_map app]. reflexivity.
Qed.

#[local] Abbreviation stopped :=
  (fun (o : option Error) (w : World) =>
     (forall msg, o <> Some (ScriptError msg))
     /\ (requests w <= requests w0 + 63)%nat
     /\ exists time v0 delta,
          trace w = trace w0 ++ delta
          /\ delta `prefix_of` scriptTrace env w0 time v0).

Lemma stopped_intro (o : option Error) (w : World) (delta : list Event) :
  (forall msg, o <> Some (ScriptError msg)) ->
  (requests w <= requests w0 + 63)%nat ->
  trace w = trace w0 ++ delta ->
  (forall time v0,
     delta `prefix_of` [Submitted airdrop; Confirmed airdrop] ++ createEvents
                       ++ extendEvents
                       ++ [Fetched lut time; Submitted (Versioned v0);
                           Confirmed (Versioned v0)]) ->
  stopped o w.
Proof.
  intros Ho Hr Ht Hp. split; [exact Ho|]. split; [exact Hr|].
  exists 0, (VersionedTransaction_new
               {| header := {| numRequiredSignatures := 0;
                               numReadonlySignedAccounts := 0;
                               numReadonlyUnsignedAccounts := 0 |};
                  staticAccountKeys := []; v0_recentBlockhash := 0%N;
                  compiledInstructions := []; addressTableLookups := [] |}), delta.
  split; [exact Ht|]. rewrite scriptTrace_eq. apply Hp.
Qed.

Lemma not_script (e : Error) :
  (forall msg, e <> ScriptError msg) -> forall msg, Some e <> Some (ScriptError msg).
Proof. intros He msg [= ->]. by apply (He msg). Qed.

Lemma main_shape :
  hoare (fun w => w = w0) (main env)
        (fun _ w =>
           requests w = (requests w0 + 63)%nat
           /\ exists time v0, trace w = trace w0 ++ scriptTrace env w0 time v0)
        stopped.
Proof.
  unfold main.
  (* the airdrop *)
  eapply hoare_bind
    with (Q := fun sig w =>
                 sig = airdrop /\ requests w = S (requests w0)
                 /\ keypairs w = keypairs w0
                 /\ trace w = trace w0 ++ [Submitted airdrop]).
  { intros w ->. rewrite requestAirdrop_run.
    assert (Hstop : forall e, (forall msg, e <> ScriptError msg) ->
              stopped (Some e) (sent w0 (ledger w0) [Submitted airdrop])).
    { intros e He.
      apply (stopped_intro _ _ [Submitted airdrop]); world;
        [by apply not_script|lia|done|].
      intros. apply prefix_cons, prefix_nil. }
    destruct (fault env (requests w0)) as [msg|]; [by apply Hstop|].
    destruct (Ledger.credit _ _ _); [by world|by apply Hstop]. }
  intros sig. apply hoare_pure. intros ->.
  eapply hoare_bind
    with (Q := fun _ w =>
                 requests w = S (S (requests w0)) /\ keypairs w = keypairs w0
                 /\ trace w = trace w0 ++ [Submitted airdrop; Confirmed airdrop]).
  { intros w (Hr & Hk & Ht). rewrite confirmTransaction_run.
    destruct (fault env (requests w)) as [msg|].
    - apply (stopped_intro _ _ [Submitted airdrop]); world;
        [congruence|lia|by rewrite Ht, app_nil_r|].
      intros. apply prefix_cons, prefix_nil.
    - world. rewrite Hr, Ht, <- app_assoc. done. }
  intros _.
  eapply hoare_bind
    with (Q := fun rs w =>
                 rs = recipients
                 /\ requests w = S (S (requests w0))
                 /\ trace w = trace w0 ++ [Submitted airdrop; Confirmed airdrop]).
  { intros w (Hr & Hk & Ht). rewrite generateRecipients_run. world. by rewrite Hk. }
  intros rs. apply hoare_pure. intros ->. cbv zeta.
  eapply hoare_bind
    with (Q := fun _ w =>
                 requests w = S (S (S (requests w0)))
                 /\ trace w = trace w0 ++ [Submitted airdrop; Confirmed airdrop]).
  { intros w (Hr & Ht). rewrite getLatestBlockhash_run.
    destruct (fault env (requests w)) as [msg|].
    - apply (stopped_intro _ _ [Submitted airdrop; Confirmed airdrop]); world;
        [congruence|lia|by rewrite Ht, app_nil_r|].
      intros. do 2 apply prefix_cons. apply prefix_nil.
    - world. by rewrite Hr, Ht, app_nil_r. }
  intros blockInfo.
  (* the table *)
  eapply hoare_bind
    with (Q := fun lut' w =>
                 lut' = lut
                 /\ requests w = S (S (S (S (S (requests w0)))))
                 /\ is_Some (Ledger.tables (ledger w) !! lut)
                 /\ trace w = trace w0 ++ [Submitted airdrop; Confirmed airdrop]
                                       ++ createEvents).
  { intros w (Hr & Ht). rewrite createTable_run. cbv zeta. rewrite Hr.
    destruct (fault env (S (S (S (requests w0))))) as [msg|].
    { apply (stopped_intro _ _ [Submitted airdrop; Confirmed airdrop]); world;
        [congruence|lia|by rewrite Ht|].
      intros. do 2 apply prefix_cons. apply prefix_nil. }
    destruct (fault env (S (S (S (S (requests w0)))))) as [msg|].
    { eapply stopped_intro; world; [congruence|lia|by rewrite Ht, <- app_assoc|].
      intros. cbn [app confirmedPairs flat_map]. do 3 apply prefix_cons.
      apply prefix_nil. }
    world. split; [done|]. split; [done|]. split.
    - destruct (Ledger.tables (ledger w) !! lut) as [t|] eqn:Hl; [by rewrite Hl|].
      cbn [Ledger.set_table Ledger.tables]. rewrite lookup_insert_eq. by eexists.
    - by rewrite Ht, <- app_assoc. }
  intros lut'. apply hoare_pure. intros ->.
  eapply hoare_bind
    with (Q := fun _ w =>
                 requests w = S (S (S (S (S (S (S (S (S (requests w0)))))))))
                 /\ is_Some (Ledger.tables (ledger w) !! lut)
                 /\ trace w = trace w0 ++ [Submitted airdrop; Confirmed airdrop]
                                       ++ createEvents ++ extendEvents).
  { intros w (Hr & [t Htab] & Ht).
    pose proof (planBatches_52 lookupAccounts
                  ltac:(cbn [length app]; by rewrite length_map, length_seq)) as Hplan.
    unfold extendTable.
    rewrite (extendLoop_submitAll env lut lookupAccounts batch _ 0 chunks w Hplan).
    destruct (submitAll env (map (extendTransaction env lut) chunks) w) as [r w'] eqn:Hrun.
    destruct (submitAll_extend env lut chunks w r w' Hrun)
      as (k & pending & Htr & Htab' & _ & _ & _ & _ & Hcase).
    rewrite Hr in Htr, Hcase.
    destruct Hcase as [(-> & -> & -> & Hreq)|(e & c & -> & Hk & Hreq & Hfail)].
    - split; [rewrite Hreq; cbn [length]; lia|]. split.
      + rewrite Htab', lookup_alter_eq, Htab. by eexists.
      + rewrite Htr, Ht, app_nil_r, firstn_all2, <- !app_assoc; [done|].
        unfold preparedFrom. by rewrite length_imap, length_map.
    - eapply stopped_intro.
      + intros msg [= ->]. inversion Hfail.
      + rewrite Hreq. apply lookup_lt_Some in Hk. cbn [length] in Hk. lia.
      + rewrite Htr, Ht, <- !app_assoc. reflexivity.
      + intros. cbn [app]. do 2 apply prefix_cons.
        cbn [confirmedPairs flat_map app]. do 2 apply prefix_cons.
        apply confirmedPairs_prefix.
        destruct (SubmissionFailure_pending env _ _ _ _ Hfail) as [-> | ->]; [by left|].
        right. eexists. split; [|reflexivity].
        unfold preparedFrom. cbn [app] in Hk.
        rewrite list_lookup_imap, list_lookup_fmap, Hk.
        reflexivity. }
  intros _.
  (* the fetch *)
  eapply hoare_bind
    with (Q := fun _ w =>
                 requests w = S (S (S (S (S (S (S (S (S (S (requests w0))))))))))
                 /\ exists time,
                      trace w = trace w0 ++ [Submitted airdrop; Confirmed airdrop]
                                         ++ createEvents ++ extendEvents
                                         ++ [Fetched lut time]).
  { intros w (Hr & [t Htab] & Ht). rewrite awaitActivation_run. cbv zeta.
    destruct (fault env (requests w)) as [msg|].
    - split; [congruence|]. split; [world; lia|]. world.
      eexists _, (VersionedTransaction_new
               {| header := {| numRequiredSignatures := 0;
                               numReadonlySignedAccounts := 0;
                               numReadonlyUnsignedAccounts := 0 |};
                  staticAccountKeys := []; v0_recentBlockhash := 0%N;
                  compiledInstructions := []; addressTableLookups := [] |}), _.
      split; [by rewrite Ht, <- !app_assoc|].
      rewrite scriptTrace_eq. do 3 apply prefix_app. apply prefix_cons, prefix_nil.
    - rewrite Htab. world. split; [by rewrite Hr|]. eexists.
      by rewrite Ht, <- !app_assoc. }
  intros lookupTable.
  assert (Hprefix : forall time v0 (tail : list Event),
             tail `prefix_of` [Submitted (Versioned v0); Confirmed (Versioned v0)] ->
             ([Submitted airdrop; Confirmed airdrop] ++ createEvents ++ extendEvents
                ++ [Fetched lut time]) ++ tail
             `prefix_of` scriptTrace env w0 time v0).
  { intros time v0 tail Htail. rewrite scriptTrace_eq, <- !app_assoc.
    do 3 apply prefix_app. cbn [app]. by apply prefix_cons. }
  eapply hoare_bind
    with (Q := fun _ w =>
                 requests w = S (S (S (S (S (S (S (S (S (S (S (requests w0)))))))))))
                 /\ exists time,
                      trace w = trace w0 ++ [Submitted airdrop; Confirmed airdrop]
                                         ++ createEvents ++ extendEvents
                                         ++ [Fetched lut time]).
  { intros w (Hr & time & Ht). rewrite compileStep_run. cbv zeta.
    assert (Hstop : forall o w',
               (forall msg, o <> Some (ScriptError msg)) ->
               requests w' = S (requests w) -> trace w' = trace w ->
               stopped o w').
    { intros o w' Ho Hr' Ht'. split; [exact Ho|]. split; [lia|].
      eexists time, (VersionedTransaction_new
               {| header := {| numRequiredSignatures := 0;
                               numReadonlySignedAccounts := 0;
                               numReadonlyUnsignedAccounts := 0 |};
                  staticAccountKeys := []; v0_recentBlockhash := 0%N;
                  compiledInstructions := []; addressTableLookups := [] |}), _.
      split; [by rewrite Ht', Ht|].
      rewrite <- (app_nil_r (_ ++ _ ++ _ ++ _)). apply Hprefix, prefix_nil. }
    destruct (fault env (requests w)) as [msg|]; [by apply Hstop|].
    destruct (compileComposite _ _ _ _ _) as [[v0 bytes]|e|] eqn:Hc.
    - world. split; [by rewrite Hr|]. by exists time.
    - apply Hstop; [|done..]. intros msg [= ->].
      destruct (sdk_only_compileComposite _ _ _ _ _ _ Hc) as [? [=]].
    - by apply Hstop. }
  intros v0.
  eapply hoare_bind
    with (Q := fun sig w =>
                 sig = Versioned v0
                 /\ requests w
                    = S (S (S (S (S (S (S (S (S (S (S (S (requests w0))))))))))))
                 /\ exists time,
                      trace w = trace w0 ++ ([Submitted airdrop; Confirmed airdrop]
                                         ++ createEvents ++ extendEvents
                                         ++ [Fetched lut time])
                                         ++ [Submitted (Versioned v0)]).
  { intros w (Hr & time & Ht). rewrite sendTransaction_run.
    assert (Hstop : forall e, (forall msg, e <> ScriptError msg) ->
               stopped (Some e) (sent w (ledger w) [Submitted (Versioned v0)])).
    { intros e He. split; [by apply not_script|]. split; [world; lia|].
      exists time, v0, (fetched time ++ [Submitted (Versioned v0)]).
      split; [world; by rewrite Ht, <- (app_assoc (trace w0))|].
      apply Hprefix. apply prefix_cons, prefix_nil. }
    destruct (VersionedTransaction_serialize v0) as [wire|e|] eqn:Hwire.
    - cbv zeta.
      destruct (fault env (requests w)) as [msg|]; [by apply Hstop|].
      destruct (_ <=? _); [|by apply Hstop].
      destruct (validSignatures env v0); [|by apply Hstop].
      destruct (_ ≫= _); [|by apply Hstop].
      world. split; [done|]. split; [by rewrite Hr|]. exists time.
      by rewrite Ht, <- (app_assoc (trace w0)).
    - split.
      { intros msg [= ->]. destruct (sdk_only_serialize _ _ Hwire) as [? [=]]. }
      split; [lia|]. eexists time, v0, _. split; [exact Ht|].
      rewrite <- (app_nil_r (_ ++ _ ++ _ ++ _)). apply Hprefix, prefix_nil.
    - split; [done|]. split; [lia|]. eexists time, v0, _. split; [exact Ht|].
      rewrite <- (app_nil_r (_ ++ _ ++ _ ++ _)). apply Hprefix, prefix_nil. }
  intros sig. apply hoare_pure. intros ->.
  eapply hoare_bind
    with (Q := fun _ w =>
                 requests w
                 = S (S (S (S (S (S (S (S (S (S (S (S (S (requests w0)))))))))))))
                 /\ exists time, trace w = trace w0 ++ scriptTrace env w0 time v0).
  { intros w (Hr & time & Ht). rewrite confirmTransaction_run.
    destruct (fault env (requests w)) as [msg|].
    - split; [congruence|]. split; [world; lia|]. world. eexists time, v0, _.
      split; [by rewrite Ht, app_nil_r|]. apply Hprefix. apply prefix_cons, prefix_nil.
    - world. split; [by rewrite Hr|]. exists time. rewrite Ht, scriptTrace_eq.
      by rewrite <- !app_assoc. }
  intros _.
  eapply hoare_bind
    with (Q := fun _ w =>
                 requests w
                 = S (S (S (S (S (S (S (S (S (S (S (S (S (requests w0)))))))))))))
                 /\ exists time, trace w = trace w0 ++ scriptTrace env w0 time v0).
  { intros w H. exact H. }
  intros _ w (Hr & time & Ht).
  pose proof (checkBalances_frame env recipients 0 w) as Hframe. cbv zeta in Hframe.
  destruct (checkBalances env 0 recipients w) as [r w'].
  cbn [fst snd] in Hframe.
  destruct Hframe as (_ & Htr & _ & _ & Hle & Heq & Hcase).
  rewrite length_map, length_seq in Hle, Heq.
  assert (Hstop : forall e, r = Throw e -> (forall msg, e <> ScriptError msg) ->
             stopped (Some e) w').
  { intros e _ He. split; [by apply not_script|]. split; [clear - Hle Hr; lia|]. eexists time, v0, _.
    split; [by rewrite Htr, Ht|]. exists []. by rewrite app_nil_r. }
  destruct r as [[]|e|].
  - split; [rewrite Heq by done; lia|]. exists time, v0. rewrite Htr. exact Ht.
  - apply Hstop; [done|]. destruct Hcase as [|[[= ->]|[msg [= ->]]]]; done.
  - destruct Hcase as [|[|[msg ?]]]; discriminate.
Qed.

End Shape.

(** X4.  The check of lines 122-125 never fires: in no run, whatever the
    keys and whatever the network refuses, does the script throw "Lookup
    table is uninitialized" (nor any error of its own).  When the fetch is
    reached, the table was created and extended by confirmed transactions,
    so the fetch finds it: "should be impossible since we created it above",
    as the comment in run.ts says. *)
Theorem table_is_never_uninitialized (env : Env) (w : World) (msg : string) :
  fst (main env w) <> Throw (ScriptError msg).
Proof.
  pose proof (main_shape env w w eq_refl) as H.
  destruct (main env w) as [[[]|e|] w']; cbn [fst]; [discriminate| |discriminate].
  destruct H as (H & _). intros [= ->]. by apply (H msg).
Qed.

(** X4 on the local network refusing the fetch of the table. *)
Lemma table_is_never_uninitialized_witness :
  fst (main (localnet_refusing (refuse_request 9 "Too many requests")) genesis)
  <> Throw (ScriptError "Lookup table is uninitialized").
Proof. apply table_is_never_uninitialized. Defined.

(** X5.  The order of the exchanges with the network.  In every run the
    events the script adds to the trace are a prefix of [scriptTrace]: the
    airdrop submitted and confirmed, the creation of the table submitted
    and confirmed, the four extensions each submitted and confirmed in
    order, the fetch of the table, the versioned transaction submitted and
    confirmed.  Nothing else is ever sent, nothing is sent twice or out of
    order, and a run that returns normally has added the whole sequence. *)
Theorem main_trace_shape (env : Env) (w : World) :
  exists time v0 delta,
    trace (snd (main env w)) = trace w ++ delta
    /\ delta `prefix_of` scriptTrace env w time v0
    /\ (fst (main env w) = Ok tt -> delta = scriptTrace env w time v0).
Proof.
  pose proof (main_shape env w w eq_refl) as H.
  destruct (main env w) as [[[]|e|] w']; cbn [fst snd].
  - destruct H as (_ & time & v0 & H). exists time, v0, (scriptTrace env w time v0).
    split; [exact H|]. split; [|done]. exists []. by rewrite app_nil_r.
  - destruct H as (_ & _ & time & v0 & delta & H1 & H2). exists time, v0, delta.
    split; [exact H1|]. split; [exact H2|discriminate].
  - destruct H as (_ & _ & time & v0 & delta & H1 & H2). exists time, v0, delta.
    split; [exact H1|]. split; [exact H2|discriminate].
Qed.

(** X5 on the local network. *)
Lemma main_trace_shape_witness :
  fst (main localnet genesis) = Ok tt
  /\ exists time v0,
       trace (snd (main localnet genesis)) = scriptTrace localnet genesis time v0.
Proof.
  assert (Hok : fst (main localnet genesis) = Ok tt) by (vm_compute; reflexivity).
  split; [exact Hok|].
  destruct (main_trace_shape localnet genesis) as (time & v0 & delta & Htr & _ & Hfull).
  exists time, v0. rewrite Htr, (Hfull Hok). reflexivity.
Defined.

(** X6.  The script awaits at most 63 calls to the provider and its
    connection (a [sendAndConfirm] counted as one), and exactly 63 when it
    returns normally: 2 for the airdrop, 2 blockhashes, the slot, the
    creation, 4 extensions, the fetch, 2 for the versioned transaction and
    50 balances. *)
Theorem main_request_budget (env : Env) (w : World) :
  (requests (snd (main env w)) <= requests w + 63)%nat
  /\ (fst (main env w) = Ok tt ->
      requests (snd (main env w)) = (requests w + 63)%nat).
Proof.
  pose proof (main_shape env w w eq_refl) as H.
  destruct (main env w) as [[[]|e|] w']; cbn [fst snd].
  - destruct H as (H & _). split; [lia|done].
  - destruct H as (_ & H & _). split; [exact H|discriminate].
  - destruct H as (_ & H & _). split; [exact H|discriminate].
Qed.

(** X6 on the local network. *)
Lemma main_request_budget_witness :
  fst (main localnet genesis) = Ok tt
  /\ requests (snd (main localnet genesis)) = 63%nat.
Proof.
  assert (Hok : fst (main localnet genesis) = Ok tt) by (vm_compute; reflexivity).
  split; [exact Hok|].
  exact (proj2 (main_request_budget localnet genesis) Hok).
Defined.

Lemma legacy_of_scriptTrace (env : Env) (w : World) time v0 (tx : Transaction) :
  Submitted (Legacy tx) ∈ scriptTrace env w time v0 -> tableTransaction tx.
Proof.
  rewrite scriptTrace_eq. rewrite !elem_of_app.
  intros [H|[H|[H|H]]].
  - apply elem_of_cons in H as [[=]|H]. apply elem_of_cons in H as [[=]|H].
    by apply elem_of_nil in H.
  - cbn [confirmedPairs flat_map app] in H.
    apply elem_of_cons in H as [[= ->]|H].
    2:{ apply elem_of_cons in H as [[=]|H]. by apply elem_of_nil in H. }
    unfold AddressLookupTableProgram.createLookupTable.
    destruct (findProgramAddressSync env _ _). by eexists.
  - unfold confirmedPairs in H. apply list_elem_of_In, in_flat_map in H as (tx' & Htx' & H).
    apply list_elem_of_In in Htx', H.
    apply elem_of_cons in H as [[= ->]|H].
    2:{ apply elem_of_cons in H as [[=]|H]. by apply elem_of_nil in H. }
    unfold preparedFrom in Htx'. apply list_elem_of_lookup in Htx' as (j & Hj).
    rewrite list_lookup_imap in Hj.
    destruct (_ !! j) as [tx''|] eqn:Hl; [|discriminate]. injection Hj as <-.
    rewrite list_lookup_fmap in Hl.
    destruct (_ !! j) as [c|]; [|discriminate]. injection Hl as <-.
    by eexists.
  - apply elem_of_cons in H as [[=]|H]. apply elem_of_cons in H as [[=]|H].
    apply elem_of_cons in H as [[=]|H]. by apply elem_of_nil in H.
Qed.

(** X7.  The legacy transaction of lines 59-68 is built and never sent:
    every legacy transaction the script submits, in any run, is a
    transaction of one instruction for the lookup-table program (the
    creation or an extension), and none carries the transfers. *)
Theorem legacy_transaction_never_sent (env : Env) (w : World) (tx : Transaction) :
  Submitted (Legacy tx) ∈ drop (length (trace w)) (trace (snd (main env w))) ->
  tableTransaction tx
  /\ tx_instructions tx
     <> transferInstructions env (map (Keypair_generate env) (seq (keypairs w) 50)).
Proof.
  intros Hin.
  pose proof (main_shape env w w eq_refl) as H.
  assert (Hdelta : exists time v0 delta,
             trace (snd (main env w)) = trace w ++ delta
             /\ delta `prefix_of` scriptTrace env w time v0).
  { destruct (main env w) as [[[]|e|] w']; cbn [snd].
    - destruct H as (_ & time & v0 & H). exists time, v0, (scriptTrace env w time v0).
      split; [exact H|]. exists []. by rewrite app_nil_r.
    - by destruct H as (_ & _ & H).
    - by destruct H as (_ & _ & H). }
  destruct Hdelta as (time & v0 & delta & Htr & [rest Hrest]).
  rewrite Htr, drop_app_length in Hin.
  assert (Htable : tableTransaction tx).
  { apply (legacy_of_scriptTrace env w time v0). rewrite Hrest.
    apply elem_of_app. by left. }
  split; [exact Htable|].
  destruct Htable as (ix & Hix & _). rewrite Hix, transferInstructions_seq.
  discriminate.
Qed.

(** X7 on the local network: the creation of the table. *)
Lemma legacy_transaction_never_sent_witness :
  let tx := prepared localnet 4
              (add Transaction_empty
                 (fst (AddressLookupTableProgram.createLookupTable
                         (findProgramAddressSync localnet) 7%N 7%N 42%N))) in
  Submitted (Legacy tx)
    ∈ drop (length (trace genesis)) (trace (snd (main localnet genesis)))
  /\ tableTransaction tx.
Proof.
  intros tx.
  assert (Hin : Submitted (Legacy tx)
                  ∈ drop (length (trace genesis)) (trace (snd (main localnet genesis)))).
  { apply (list_elem_of_lookup_2 _ 2). vm_compute. reflexivity. }
  split; [exact Hin|].
  apply (legacy_transaction_never_sent localnet genesis tx Hin).
Defined.

(** ** The steps on their own *)









(** X13.  Lines 128-135 for any instructions, tables, payer and blockhash:
    when [compileComposite] returns, the bytes are the serialized
    transaction, its message fits in a packet, and a ledger that holds the
    tables as the compiler saw them reads the message back as the
    instructions it was compiled from: as many, in the same order, each with
    the same program, the same data and the same accounts. *)
Theorem compiled_transaction_reads_back (env : Env)
    (instructions : list TransactionInstruction)
    (lookupTables : list AddressLookupTableAccount) (payer : PublicKey)
    (blockhash : Blockhash) (v0 : VersionedTransaction) (bytes : list Byte.byte)
    (s : Ledger.State) :
  compileComposite env instructions lookupTables payer blockhash = Ok (v0, bytes) ->
  tablesAgree s lookupTables ->
  VersionedTransaction_serialize v0 = Ok bytes
  /\ Z.of_nat (length (MessageV0_bytes (message v0))) <= PACKET_DATA_SIZE
  /\ exists ixs',
       Ledger.v0Resolve s (message v0) = Some ixs'
       /\ Forall2 sameInstruction ixs' instructions.
Proof.
  intros Hc Hagree.
  pose proof (compileComposite_serialize _ _ _ _ _ _ _ Hc) as Hser.
  split; [exact Hser|]. split.
  - unfold VersionedTransaction_serialize in Hser.
    apply Outcome_bind_Ok in Hser as (m & Hm & _).
    unfold MessageV0_serialize, sdk_assert in Hm.
    destruct (Z.leb_spec (Z.of_nat (length (MessageV0_bytes (message v0))))
                         PACKET_DATA_SIZE); [done|discriminate].
  - apply (compile_resolves s {| payerKey := payer; msg_recentBlockhash := blockhash;
                                 instructions := instructions |} lookupTables);
      [exact Hagree|].
    by eapply compileComposite_message.
Qed.

(** X13 on the fifty transfers of the local network. *)
Lemma compiled_transaction_reads_back_witness :
  let s := {| Ledger.lamports := ∅;
              Ledger.tables := {[ 900%N := {| Ledger.authority := 7%N;
                                             Ledger.addresses := localnet_lookupAccounts |} ]} |} in
  let lookupTable := {| key := 900%N; state_addresses := localnet_lookupAccounts |} in
  tablesAgree s [lookupTable]
  /\ exists v0 bytes ixs',
       compileComposite localnet (map (transferTo localnet) localnet_recipients)
                        [lookupTable] 7%N 500%N = Ok (v0, bytes)
       /\ Ledger.v0Resolve s (message v0) = Some ixs'
       /\ Forall2 sameInstruction ixs' (map (transferTo localnet) localnet_recipients).
Proof.
  intros s lookupTable.
  assert (Hagree : tablesAgree s [lookupTable]).
  { repeat constructor. eexists. split; [apply lookup_singleton_eq|reflexivity]. }
  split; [exact Hagree|].
  destruct (compileComposite_transfers localnet localnet_recipients 500%N lookupTable)
    as (indexes & cis & bytes & Hc & _); [reflexivity| |vm_compute; lia| |].
  { refine (bool_decide_unpack _ _). vm_compute. reflexivity. }
  { refine (bool_decide_unpack _ _). vm_compute. reflexivity. }
  destruct (compiled_transaction_reads_back _ _ _ _ _ _ _ s Hc Hagree)
    as (_ & _ & ixs' & Hres & Hsame).
  eauto 10.
Defined.

(** ** Running the extension again *)

Section ExtendAgain.
Variable env : Env.

(** The table after the loop, by its outcome: the whole list appended when
    it returns, the first [k] chunks when it throws at chunk [k]. *)
Lemma extendTable_tables lut (lookupAccounts : list N) (b : Z) (w : World) :
  1 <= b ->
  let r := fst (extendTable env lut lookupAccounts b w) in
  let w' := snd (extendTable env lut lookupAccounts b w) in
  (r = Ok tt ->
   Ledger.tables (ledger w')
   = alter (extended lookupAccounts) lut (Ledger.tables (ledger w)))
  /\ (forall e, r = Throw e ->
        exists k : nat,
          (k * Z.to_nat b < length lookupAccounts)%nat
          /\ Ledger.tables (ledger w')
             = alter (extended (take (k * Z.to_nat b) lookupAccounts)) lut
                     (Ledger.tables (ledger w))).
Proof.
  intros Hb r w'. subst r w'.
  destruct (batchLoop_from (S (length lookupAccounts)) lookupAccounts b 0)
    as (chunks & Hplan & Hconcat & Hsizes & _); [lia|lia|lia|].
  change (drop (Z.to_nat 0) lookupAccounts) with lookupAccounts in Hconcat.
  pose proof (fun k => batchLoop_take _ lookupAccounts b Hb 0 chunks k
                         ltac:(lia) Hplan) as Htake.
  change (drop (Z.to_nat 0) lookupAccounts) with lookupAccounts in Htake.
  unfold extendTable.
  rewrite (extendLoop_submitAll env lut lookupAccounts b _ 0 chunks w Hplan).
  destruct (submitAll env (map (extendTransaction env lut) chunks) w) as [r w'] eqn:Hrun.
  cbn [fst snd].
  destruct (submitAll_extend env lut chunks w r w' Hrun)
    as (k & pending & _ & Htab & _ & _ & _ & _ & Hcase).
  split.
  - intros ->. destruct Hcase as [(_ & -> & _)|(e & c & [=] & _)].
    by rewrite firstn_all, Hconcat in Htab.
  - intros e ->. destruct Hcase as [([=] & _)|(e' & c & _ & Hk & _)].
    exists k. rewrite Htake in Htab. split; [|exact Htab].
    pose proof (Htake (S k)) as Hnext.
    rewrite (take_S_r _ _ _ Hk), concat_app, Htake in Hnext.
    cbn [concat] in Hnext. rewrite app_nil_r in Hnext.
    apply (f_equal length) in Hnext. rewrite length_app, !length_take in Hnext.
    rewrite Forall_forall in Hsizes.
    pose proof (Hsizes c ltac:(by eapply list_elem_of_lookup_2)) as Hc.
    cbn [Nat.mul] in Hnext. lia.
Qed.

End ExtendAgain.



(** X15.  The loop does not look at what the table holds: run twice on the
    same list, it appends the list twice, so every address is in the table
    two times; the second run can only go through when the table has room
    for both copies. *)
Theorem extendTable_does_not_deduplicate (env : Env) (lut : PublicKey)
    (lookupAccounts : list PublicKey) (b : Z) (w w2 : World)
    (t : Ledger.LookupTable) :
  1 <= b ->
  Ledger.tables (ledger w) !! lut = Some t ->
  fst (extendTable env lut lookupAccounts b w) = Ok tt ->
  ledger w2 = ledger (snd (extendTable env lut lookupAccounts b w)) ->
  fst (extendTable env lut lookupAccounts b w2) = Ok tt ->
  Ledger.tables (ledger (snd (extendTable env lut lookupAccounts b w2))) !! lut
  = Some (extended (lookupAccounts ++ lookupAccounts) t)
  /\ (lookupAccounts <> [] ->
      (length (Ledger.addresses t) + 2 * length lookupAccounts
       <= Ledger.LOOKUP_TABLE_MAX_ADDRESSES)%nat).
Proof.
  intros Hb Ht Hok1 Hw2 Hok2.
  destruct (extendTable_tables env lut lookupAccounts b w Hb) as [Hret1 _].
  destruct (extendTable_tables env lut lookupAccounts b w2 Hb) as [Hret2 _].
  assert (Htab : Ledger.tables (ledger (snd (extendTable env lut lookupAccounts b w2)))
                 !! lut = Some (extended (lookupAccounts ++ lookupAccounts) t)).
  { rewrite (Hret2 Hok2), lookup_alter_eq, Hw2, (Hret1 Hok1), lookup_alter_eq, Ht.
    cbn [fmap option_fmap option_map]. by rewrite extended_app. }
  split; [exact Htab|]. intros Hne.
  destruct (batchLoop_from (S (length lookupAccounts)) lookupAccounts b 0)
    as (chunks & Hplan & Hconcat & Hsizes & _); [lia|lia|lia|].
  change (drop (Z.to_nat 0) lookupAccounts) with lookupAccounts in Hconcat.
  unfold extendTable in Hok2, Htab.
  rewrite (extendLoop_submitAll env lut lookupAccounts b _ 0 chunks w2 Hplan) in Hok2, Htab.
  destruct (submitAll env (map (extendTransaction env lut) chunks) w2) as [r w3] eqn:Hrun.
  cbn [fst snd] in Hok2, Htab. subst r.
  assert (Hlast : forall cs w r w' t0,
             submitAll env (map (extendTransaction env lut) cs) w = (r, w') ->
             r = Ok tt -> cs <> [] ->
             Ledger.tables (ledger w') !! lut = Some t0 ->
             (length (Ledger.addresses t0) <= Ledger.LOOKUP_TABLE_MAX_ADDRESSES)%nat).
  { clear. induction cs as [|c cs IH]; intros w r w' t0 Hrun -> Hne Ht0; [done|].
    cbn [map submitAll] in Hrun. rewrite bind_run in Hrun.
    destruct (sendAndConfirm env (extendTransaction env lut c) w) as [r1 w1] eqn:Hstep.
    pose proof Hstep as Hstep'.
    rewrite sendAndConfirm_run in Hstep' by apply extend_signers.
    destruct (sendAndConfirm_extend env lut c w r1 w1 Hstep)
      as [(t1 & -> & Ht1 & _ & _ & ->)|(e & pending & -> & _)]; [|discriminate].
    destruct cs as [|c' cs'].
    - cbn in Hrun. injection Hrun as <-.
      cbn [sent ledger Ledger.set_table Ledger.tables] in Ht0.
      rewrite lookup_insert_eq in Ht0. injection Ht0 as <-.
      cbv zeta in Hstep'. rewrite prepared_serialize_length in Hstep'.
      destruct (_ <=? _) in Hstep'; [|discriminate].
      destruct (fault env (requests w)) in Hstep'; [discriminate|].
      rewrite extend_process, Ht1 in Hstep'.
      destruct (N.eqb (Ledger.authority t1) (wallet_publicKey env)
                && negb (length c =? 0)%nat) in Hstep'; cbn [andb] in Hstep';
        [|discriminate].
      destruct (Nat.leb_spec (length (Ledger.addresses t1) + length c)
                             Ledger.LOOKUP_TABLE_MAX_ADDRESSES) as [Hfit|_];
        [|discriminate].
      cbn [extended Ledger.addresses]. by rewrite length_app.
    - by apply (IH _ _ _ _ Hrun). }
  assert (Hcs : chunks <> []) by (intros ->; by rewrite <- Hconcat in Hne).
  pose proof (Hlast chunks w2 (Ok tt) w3 _ Hrun eq_refl Hcs Htab) as Hlen.
  cbn [extended Ledger.addresses] in Hlen. rewrite !length_app in Hlen. lia.
Qed.

(** X15 on the local network: 104 addresses after two runs. *)
Lemma extendTable_does_not_deduplicate_witness :
  let t := {| Ledger.authority := 7%N; Ledger.addresses := [] |} in
  let w1 := snd (extendTable localnet 900%N localnet_lookupAccounts batch table_created) in
  1 <= batch
  /\ fst (extendTable localnet 900%N localnet_lookupAccounts batch table_created) = Ok tt
  /\ fst (extendTable localnet 900%N localnet_lookupAccounts batch w1) = Ok tt
  /\ Ledger.tables
       (ledger (snd (extendTable localnet 900%N localnet_lookupAccounts batch w1)))
     !! 900%N
     = Some (extended (localnet_lookupAccounts ++ localnet_lookupAccounts) t).
Proof.
  intros t w1.
  assert (Hok1 : fst (extendTable localnet 900%N localnet_lookupAccounts batch
                        table_created) = Ok tt) by (vm_compute; reflexivity).
  assert (Hok2 : fst (extendTable localnet 900%N localnet_lookupAccounts batch w1)
                 = Ok tt) by (vm_compute; reflexivity).
  split; [unfold batch; lia|]. split; [exact Hok1|]. split; [exact Hok2|].
  apply (extendTable_does_not_deduplicate localnet 900%N localnet_lookupAccounts batch
           table_created w1 t); [unfold batch; lia| |exact Hok1|reflexivity|exact Hok2].
  vm_compute. reflexivity.
Defined.

(** X16.  Lines 128-139: the size that the script prints is the size of
    what it sends.  When [compileStep] returns a transaction, that
    transaction serializes to the bytes whose length was logged, at most
    2048 of them; the step has issued one request and changed neither the
    ledger nor the trace; and were the bytes more than a packet holds, the
    node would refuse the transaction as too large. *)
Theorem logged_size_is_wire_size (env : Env)
    (instructions : list TransactionInstruction)
    (lookupTable : AddressLookupTableAccount) (w w' : World)
    (v0 : VersionedTransaction) :
  compileStep env instructions lookupTable w = (Ok v0, w') ->
  exists bytes,
    VersionedTransaction_serialize v0 = Ok bytes
    /\ console w' = console w ++ [LogV0Size (length bytes)]
    /\ (length bytes <= 2048)%nat
    /\ ledger w' = ledger w /\ trace w' = trace w /\ requests w' = S (requests w)
    /\ (forall w2,
          fault env (requests w2) = None ->
          Z.of_nat (length bytes) > PACKET_DATA_SIZE ->
          fst (sendTransaction env v0 w2) = Throw (RpcError "transaction too large")).
Proof.
  rewrite compileStep_run. cbv zeta.
  destruct (fault env (requests w)) as [msg|]; [discriminate|].
  destruct (compileComposite env instructions [lookupTable] (wallet_publicKey env) _)
    as [[v0' bytes]|e|] eqn:Hc; [|discriminate..].
  intros [= -> <-]. exists bytes.
  assert (Hser : VersionedTransaction_serialize v0 = Ok bytes)
    by exact (compileComposite_serialize _ _ _ _ _ _ _ Hc).
  split; [exact Hser|]. split; [reflexivity|]. split.
  { unfold VersionedTransaction_serialize in Hser.
    apply Outcome_bind_Ok in Hser as (m & _ & Hser).
    apply Outcome_bind_Ok in Hser as ([] & Hfit & Hser). injection Hser as <-.
    unfold sdk_assert in Hfit.
    destruct (Nat.leb_spec (length (encodeLength (length (signatures v0))
                ++ flat_map (be_bytes SIGNATURE_LENGTH_IN_BYTES) (signatures v0) ++ m))
                2048); [done|discriminate]. }
  repeat split.
  intros w2 Hf Hbig. unfold sendTransaction. rewrite bind_run. unfold lift.
  rewrite Hser. run_monad. rewrite Hf.
  destruct (Z.leb_spec (Z.of_nat (length bytes)) PACKET_DATA_SIZE); [lia|reflexivity].
Qed.

(** X16 on the fifty transfers of the local network. *)
Lemma logged_size_is_wire_size_witness :
  let lookupTable := {| key := 900%N; state_addresses := localnet_lookupAccounts |} in
  let step := compileStep localnet (transferInstructions localnet localnet_recipients)
                          lookupTable genesis in
  exists v0 bytes,
    fst step = Ok v0
    /\ VersionedTransaction_serialize v0 = Ok bytes
    /\ console (snd step) = console genesis ++ [LogV0Size (length bytes)].
Proof.
  intros lookupTable step.
  assert (Hok : exists v0, fst step = Ok v0) by (eexists; vm_compute; reflexivity).
  destruct Hok as [v0 Hok]. subst step.
  destruct (compileStep localnet _ lookupTable genesis) as [r w'] eqn:Hstep.
  cbn [fst snd] in *. subst r.
  destruct (logged_size_is_wire_size localnet _ lookupTable genesis w' v0 Hstep)
    as (bytes & Hser & Hcon & _).
  exists v0, bytes. auto.
Defined.

(** ** What no run does to the ledger *)

(** A transfer from [payer] takes nothing from anybody else, whoever
    receives. *)
Lemma transfer_spares_others f (ix' : TransactionInstruction) (s s' : Ledger.State)
    (payer r : N) (amount : Z) :
  sameInstruction ix' (SystemProgram.transfer payer r amount) ->
  Ledger.processInstruction f ix' s = Some s' ->
  (forall x, x <> payer -> (Ledger.balance s x <= Ledger.balance s' x)%N)
  /\ Ledger.tables s' = Ledger.tables s.
Proof.
  intros (Hprog & Hdata & Hkeys) Hrun.
  unfold Ledger.processInstruction in Hrun. rewrite Hprog, Hdata in Hrun.
  cbn [SystemProgram.transfer programId data keys map pubkey] in *.
  change (N.eqb SystemProgram.programId SystemProgram.programId) with true in Hrun.
  cbn iota in Hrun.
  destruct (keys ix') as [|from [|to [|? ?]]]; try discriminate.
  cbn in Hkeys. injection Hkeys as Hfrom Hto.
  destruct (_ && _) in Hrun; [|discriminate].
  cbn [mbind option_bind] in Hrun.
  unfold Ledger.debit in Hrun.
  destruct (N.leb_spec (Z.to_N amount) (Ledger.balance s (pubkey from)));
    [|discriminate].
  cbn [mbind option_bind] in Hrun. unfold Ledger.credit in Hrun.
  destruct (_ <? _)%N in Hrun; [|discriminate].
  injection Hrun as <-. rewrite Hfrom, Hto in *.
  split; [|reflexivity].
  intros x Hx. rewrite !balance_set_balance.
  destruct (decide (x = r)) as [->|Hxr].
  - rewrite (decide_False (P := r = payer)) by done. lia.
  - rewrite decide_False by done. lia.
Qed.

Lemma transfers_spare_others f (payer : N) (amount : Z) (rs : list N) :
  forall ixs' s s',
    Forall2 sameInstruction ixs'
            (map (fun r => SystemProgram.transfer payer r amount) rs) ->
    Ledger.processInstructions f ixs' s = Some s' ->
    (forall x, x <> payer -> (Ledger.balance s x <= Ledger.balance s' x)%N)
    /\ Ledger.tables s' = Ledger.tables s.
Proof.
  induction rs as [|r rs IH]; intros ixs' s s' Hsame Hrun.
  - apply Forall2_nil_inv_r in Hsame as ->. injection Hrun as <-.
    split; [intros; lia|reflexivity].
  - cbn [map] in Hsame.
    apply Forall2_cons_inv_r in Hsame as (ix' & ixs'' & Hix & Hsame & ->).
    cbn [Ledger.processInstructions] in Hrun.
    destruct (Ledger.processInstruction f ix' s) as [s1|] eqn:Hstep; [|discriminate].
    cbn [mbind option_bind] in Hrun.
    destruct (transfer_spares_others f ix' s s1 payer r amount Hix Hstep) as (H1 & T1).
    destruct (IH _ _ _ Hsame Hrun) as (H2 & T2).
    split; [|congruence].
    intros x Hx. specialize (H1 x Hx). specialize (H2 x Hx). lia.
Qed.

Lemma checkBalances_ledger (env : Env) (rs : list N) :
  forall i w, ledger (snd (checkBalances env i rs w)) = ledger w.
Proof. intros i w. by destruct (checkBalances_frame env rs i w) as (H & _). Qed.

Section Spared.
Variable env : Env.
Variable w0 : World.
#[local] Abbreviation pk := (wallet_publicKey env).

(** Since [w0], nobody but the wallet has lost anything and no table has
    changed. *)
#[local] Abbreviation spared :=
  (fun w : World =>
     (forall x, x <> pk ->
        (Ledger.balance (ledger w0) x <= Ledger.balance (ledger w) x)%N)
     /\ Ledger.tables (ledger w) = Ledger.tables (ledger w0)).

(** The same, but for the table at [lut], which may have been created or
    have grown. *)
#[local] Abbreviation grown lut :=
  (fun w : World =>
     (forall x, x <> pk ->
        (Ledger.balance (ledger w0) x <= Ledger.balance (ledger w) x)%N)
     /\ (forall a, a <> lut ->
           Ledger.tables (ledger w) !! a = Ledger.tables (ledger w0) !! a)
     /\ (forall t, Ledger.tables (ledger w0) !! lut = Some t ->
           exists t', Ledger.tables (ledger w) !! lut = Some t'
                      /\ Ledger.authority t' = Ledger.authority t
                      /\ Ledger.addresses t `prefix_of` Ledger.addresses t')).

#[local] Abbreviation harmless :=
  (fun (_ : option Error) (w : World) => exists lut, grown lut w).

Lemma spared_grown lut w : spared w -> grown lut w.
Proof.
  intros [Hb Ht]. split; [exact Hb|]. split; [by rewrite Ht|].
  intros t Hl. exists t. by rewrite Ht.
Qed.

Lemma main_harmless :
  hoare (fun w => w = w0) (main env) (fun _ w => exists lut, grown lut w) harmless.
Proof.
  unfold main.
  eapply hoare_bind with (Q := fun _ w => spared w).
  { intros w ->. rewrite requestAirdrop_run.
    assert (Hsame : spared (sent w0 (ledger w0) [Submitted (Airdrop pk airdropAmount)]))
      by done.
    destruct (fault env (requests w0)) as [msg|].
    { exists 0%N. by apply spared_grown. }
    unfold Ledger.credit. destruct (_ <? _)%N.
    - world. split; [|done]. intros x Hx.
      rewrite balance_set_balance, decide_False by done. lia.
    - exists 0%N. by apply spared_grown. }
  intros sig. eapply hoare_bind with (Q := fun _ w => spared w).
  { intros w Hs. rewrite confirmTransaction_run.
    destruct (fault env (requests w)) as [msg|]; [|exact Hs].
    exists 0%N. by apply spared_grown. }
  intros _. eapply hoare_bind with (Q := fun _ w => spared w).
  { intros w Hs. rewrite generateRecipients_run. exact Hs. }
  intros rs. cbv zeta.
  eapply hoare_bind with (Q := fun _ w => spared w).
  { intros w Hs. rewrite getLatestBlockhash_run.
    destruct (fault env (requests w)) as [msg|]; [|exact Hs].
    exists 0%N. by apply spared_grown. }
  intros blockInfo.
  eapply hoare_bind with (Q := fun lut w => grown lut w).
  { intros w Hs. rewrite createTable_run. cbv zeta.
    destruct (fault env (requests w)) as [msg|].
    { exists 0%N. by apply spared_grown. }
    destruct (fault env (S (requests w))) as [msg|].
    { exists 0%N. by apply spared_grown. }
    world. destruct Hs as [Hb Ht].
    destruct (Ledger.tables (ledger w) !! _) as [t|] eqn:Hl.
    - by apply spared_grown.
    - split; [exact Hb|]. cbn [Ledger.set_table Ledger.tables]. split.
      + intros a Ha. by rewrite lookup_insert_ne, Ht.
      + intros t Hl'. rewrite Ht, Hl' in Hl. discriminate. }
  intros lut.
  eapply hoare_bind with (Q := fun _ w => grown lut w).
  { intros w (Hb & Hoth & Hlut).
    assert (Hgrown : forall w' k,
               Ledger.lamports (ledger w') = Ledger.lamports (ledger w) ->
               Ledger.tables (ledger w')
               = alter (extended k) lut (Ledger.tables (ledger w)) ->
               grown lut w').
    { intros w' k Hlam Htab. split.
      { intros x Hx. unfold Ledger.balance. rewrite Hlam. by apply Hb. }
      split.
      { intros a Ha. rewrite Htab, lookup_alter_ne by done. by apply Hoth. }
      intros t Ht. destruct (Hlut t Ht) as (t' & Ht' & Hauth & Hpre).
      exists (extended k t'). split; [by rewrite Htab, lookup_alter_eq, Ht'|].
      split; [exact Hauth|]. cbn [extended Ledger.addresses].
      by apply prefix_app_r. }
    destruct (extendTable env lut _ batch w) as [r w'] eqn:Hrun.
    assert (Hw' : grown lut w').
    { unfold extendTable in Hrun.
      destruct (batchLoop_from (S (length ([SystemProgram.programId; pk] ++ rs)))
                  ([SystemProgram.programId; pk] ++ rs) batch 0)
        as (chunks & Hplan & _); [unfold batch; lia|lia|lia|].
      rewrite (extendLoop_submitAll env lut _ batch _ 0 chunks w Hplan) in Hrun.
      destruct (submitAll_extend env lut chunks w r w' Hrun)
        as (k & pending & _ & Htab & Hlam & _).
      by eapply Hgrown. }
    destruct r as [[]|e|]; [exact Hw'|by exists lut..]. }
  intros _.
  eapply hoare_bind
    with (Q := fun lookupTable w =>
                 grown lut w /\ tablesAgree (ledger w) [lookupTable]).
  { intros w Hg. rewrite awaitActivation_run. cbv zeta.
    destruct (fault env (requests w)) as [msg|]; [by exists lut|].
    destruct (Ledger.tables (ledger w) !! lut) as [t|] eqn:Ht;
      rewrite <- Ht in Hg; [|by exists lut].
    world. split; [exact Hg|]. repeat constructor. exists t. by split. }
  intros lookupTable.
  eapply hoare_bind
    with (Q := fun v0 w =>
                 grown lut w /\ tablesAgree (ledger w) [lookupTable]
                 /\ exists bh,
                      compileToV0Message
                        {| payerKey := pk; msg_recentBlockhash := bh;
                           instructions := transferInstructions env rs |}
                        [lookupTable]
                      = Ok (message v0)).
  { intros w [Hg Hagree]. rewrite compileStep_run. cbv zeta.
    destruct (fault env (requests w)) as [msg|]; [by exists lut|].
    destruct (compileComposite _ _ _ _ _) as [[v0 bytes]|e|] eqn:Hc;
      [|by exists lut..].
    world. split; [exact Hg|]. split; [exact Hagree|].
    eexists. by eapply compileComposite_message. }
  intros v0.
  eapply hoare_bind with (Q := fun _ w => grown lut w).
  { intros w (Hg & Hagree & bh & Hcompile). rewrite sendTransaction_run.
    destruct (VersionedTransaction_serialize v0) as [wire|e|]; [|by exists lut..].
    cbv zeta.
    destruct (fault env (requests w)) as [msg|]; [by exists lut|].
    destruct (_ <=? _); [|by exists lut].
    destruct (validSignatures env v0); [|by exists lut].
    destruct (Ledger.v0Resolve (ledger w) (message v0)) as [ixs'|] eqn:Hres;
      [|by exists lut].
    cbn [mbind option_bind].
    destruct (Ledger.processInstructions _ ixs' (ledger w)) as [s'|] eqn:Hrun;
      [|by exists lut].
    world.
    pose proof (compile_resolve _ _ _ _ _ Hagree Hcompile Hres) as Hsame.
    cbn [instructions] in Hsame. rewrite transferInstructions_seq in Hsame.
    rewrite <- (map_map (fun i => rs !!! i) (transferTo env)) in Hsame.
    destruct (transfers_spare_others _ pk (4 * LAMPORTS_PER_SOL) _ _ _ _ Hsame Hrun)
      as (Hmono & Htab).
    destruct Hg as (Hb & Hoth & Hlut). split.
    { intros x Hx. specialize (Hb x Hx). specialize (Hmono x Hx). lia. }
    rewrite Htab. by split. }
  intros sig'.
  eapply hoare_bind with (Q := fun _ w => grown lut w).
  { intros w Hg. rewrite confirmTransaction_run.
    destruct (fault env (requests w)) as [msg|]; [by exists lut|exact Hg]. }
  intros _. eapply hoare_bind with (Q := fun _ w => grown lut w).
  { intros w Hg. exact Hg. }
  intros _ w Hg.
  pose proof (checkBalances_ledger env rs 0 w) as Hl.
  destruct (checkBalances env 0 rs w) as [[[]|e|] w']; cbn [snd] in Hl;
    exists lut; by rewrite Hl.
Qed.

End Spared.

